(** * Sampling decisions and trace headers of the tracing package

    A shallow embedding of [packages/tracing/src/hubextensions.ts] and
    [packages/tracing/src/utils.ts], and the properties their specification
    states about them.

    The program:
    - [JS]: the JavaScript values the two files handle (a sample rate is
      of type [unknown]), the coercions [Number], [isNaN], [typeof],
      truthiness and [<], and completions (a normal return or a throw).
    - [Effects]: computations over a mutable state that may throw.
    - [RegExp]: the backtracking matcher that runs the two patterns.
    - [Encoding], [JSON]: strings of UTF-16 code units, UTF-8, base64 and
      the JSON texts of the tracestate header.
    - [Types]: the objects of @sentry/types and @sentry/hub the code reads
      and writes.
    - [Utils]: utils.ts, the trace headers and the time conversions.
    - [HubExtensions]: hubextensions.ts, the sampling decision, the
      transaction factory and the extension methods.

    The properties follow, module by module. *)

From Stdlib Require Import ZArith Bool List String Ascii Floats Lia.
From stdpp Require Import base option list gmap.

Import ListNotations.
Local Open Scope string_scope.

(* ===================================================================== *)
(** * JavaScript values and coercions *)
(* ===================================================================== *)

Module JS.

(** Thrown values. [UserThrow] is whatever user code (a sampler, a
    [valueOf]) throws. *)
Inductive error : Type :=
| TypeError (msg : string)
| SentryError (msg : string) (cause : error)
| UserThrow (tag : string).

(** The outcome of evaluating an expression: a value, or a throw. *)
Inductive completion (A : Type) : Type :=
| Normal (a : A)
| Throw (e : error).
Arguments Normal {A} a.
Arguments Throw {A} e.

Definition cbind {A B} (c : completion A) (k : A -> completion B) : completion B :=
  match c with
  | Normal a => k a
  | Throw e => Throw e
  end.

(** A JavaScript number is an IEEE 754 binary64 float.  A string among
    these values, a header and a message are modelled by [string], a
    sequence of code units below 256: of such a string the code reads its
    characters against ASCII classes, or whether it is empty.  The strings
    of the tracestate, whose code units are encoded, are those of
    [Encoding]. *)
Abbreviation number := float.

(** The primitive values.  A string carries, next to its characters, the
    number the engine's StringNumericLiteral grammar reads it as: that
    reading is the engine's, and nothing below depends on which it is. *)
Inductive primitive : Type :=
| PUndefined
| PNull
| PBoolean (b : bool)
| PNumber (n : number)
| PString (s : string) (numeric : number)
| PSymbol (description : string)
| PBigInt (z : Z).

(** What [JSON.stringify] produces for a value, before it is printed. *)
Inductive json : Type :=
| JNull
| JBool (b : bool)
| JNum (n : number)
| JStr (s : string)
| JCompound (text : string).

(** An object is seen through the three things this code can observe of it:
    what [ToPrimitive] with hint number gives (its [Symbol.toPrimitive],
    [valueOf] and [toString] are user code and may throw), what
    [JSON.stringify] gives ([undefined] is [None]; a cycle or a throwing
    [toJSON] throws), and whether [typeof] says ["function"]. *)
Record object : Type := {
  toPrimitive : completion primitive;
  toJSON : completion (option json);
  callable : bool;
}.

Inductive value : Type :=
| VPrim (p : primitive)
| VObject (o : object).

Definition undefined : value := VPrim PUndefined.
Definition null : value := VPrim PNull.
Definition bool_value (b : bool) : value := VPrim (PBoolean b).
Definition num (n : number) : value := VPrim (PNumber n).

Inductive type_tag : Type :=
| TUndefined | TObject | TBoolean | TNumber | TString | TSymbol | TBigInt | TFunction.

Definition type_tag_eqb (a b : type_tag) : bool :=
  match a, b with
  | TUndefined, TUndefined | TObject, TObject | TBoolean, TBoolean
  | TNumber, TNumber | TString, TString | TSymbol, TSymbol
  | TBigInt, TBigInt | TFunction, TFunction => true
  | _, _ => false
  end.

(** [typeof v] *)
Definition typeof (v : value) : type_tag :=
  match v with
  | VPrim PUndefined => TUndefined
  | VPrim PNull => TObject
  | VPrim (PBoolean _) => TBoolean
  | VPrim (PNumber _) => TNumber
  | VPrim (PString _ _) => TString
  | VPrim (PSymbol _) => TSymbol
  | VPrim (PBigInt _) => TBigInt
  | VObject o => if callable o then TFunction else TObject
  end.

(** [v !== undefined] *)
Definition is_undefined (v : value) : bool :=
  match v with
  | VPrim PUndefined => true
  | _ => false
  end.

Definition is_nan (n : number) : bool := negb (PrimFloat.eqb n n).

Definition ToPrimitive (v : value) : completion primitive :=
  match v with
  | VPrim p => Normal p
  | VObject o => toPrimitive o
  end.

(** [ToNumber] on a primitive: a symbol or a BigInt throws a TypeError. *)
Definition ToNumber_primitive (p : primitive) : completion number :=
  match p with
  | PUndefined => Normal nan
  | PNull => Normal 0%float
  | PBoolean b => Normal (if b then 1%float else 0%float)
  | PNumber n => Normal n
  | PString _ numeric => Normal numeric
  | PSymbol _ => Throw (TypeError "Cannot convert a Symbol value to a number")
  | PBigInt _ => Throw (TypeError "Cannot convert a BigInt value to a number")
  end.

Definition ToNumber (v : value) : completion number :=
  cbind (ToPrimitive v) ToNumber_primitive.

(** The nearest binary64 to an integer (round to nearest, ties to even). *)
Definition BigIntToNumber (z : Z) : number :=
  SF2Prim (binary_normalize prec emax z 0 false).

(** [Number(v)]: as [ToNumber], except that a BigInt is converted. *)
Definition Number (v : value) : completion number :=
  cbind (ToPrimitive v) (fun p =>
    match p with
    | PBigInt z => Normal (BigIntToNumber z)
    | _ => ToNumber_primitive p
    end).

(** The global [isNaN(v)]: [ToNumber] first, so it throws where that does. *)
Definition isNaN (v : value) : completion bool :=
  cbind (ToNumber v) (fun n => Normal (is_nan n)).

(** [!!v] *)
Definition ToBoolean (v : value) : bool :=
  match v with
  | VPrim PUndefined | VPrim PNull => false
  | VPrim (PBoolean b) => b
  | VPrim (PNumber n) => negb (PrimFloat.eqb n 0 || is_nan n)
  | VPrim (PString s _) => negb (String.eqb s "")
  | VPrim (PSymbol _) => true
  | VPrim (PBigInt z) => negb (Z.eqb z 0)
  | VObject _ => true
  end.

(** [x < y] for operands that are numbers or booleans, the only ones that
    reach a comparison in this code: both sides go through [ToNumber] and
    are compared as floats (a comparison with [NaN] is false). *)
Definition lessThan (x y : value) : completion bool :=
  cbind (ToNumber x) (fun nx =>
  cbind (ToNumber y) (fun ny =>
  Normal (PrimFloat.ltb nx ny))).

Definition is_finite (n : number) : bool :=
  negb (is_nan n) && negb (PrimFloat.eqb n infinity) && negb (PrimFloat.eqb n neg_infinity).

(** [JSON.stringify(v)], up to printing: [None] is [undefined]. *)
Definition JSON_stringify (v : value) : completion (option json) :=
  match v with
  | VPrim PUndefined => Normal None
  | VPrim PNull => Normal (Some JNull)
  | VPrim (PBoolean b) => Normal (Some (JBool b))
  | VPrim (PNumber n) => Normal (Some (if is_finite n then JNum n else JNull))
  | VPrim (PString s _) => Normal (Some (JStr s))
  | VPrim (PSymbol _) => Normal None
  | VPrim (PBigInt _) => Throw (TypeError "Do not know how to serialize a BigInt")
  | VObject o => toJSON o
  end.

End JS.

(* ===================================================================== *)
(** * Mutable state and exceptions *)
(* ===================================================================== *)

Module Effects.
Import JS.

(** A computation over a mutable state [S]: it ends in a state and either
    returns or throws.  What was written before a throw stays written. *)
Definition M (S A : Type) : Type := S -> S * completion A.

Definition ret {S A} (a : A) : M S A := fun s => (s, Normal a).
Definition throw {S A} (e : error) : M S A := fun s => (s, Throw e).

Definition bind {S A B} (m : M S A) (k : A -> M S B) : M S B :=
  fun s =>
    match m s with
    | (s', Normal a) => k a s'
    | (s', Throw e) => (s', Throw e)
    end.

(** An expression without effect on the state. *)
Definition lift {S A} (c : completion A) : M S A := fun s => (s, c).

Definition get {S} : M S S := fun s => (s, Normal s).
Definition modify {S} (f : S -> S) : M S unit := fun s => (f s, Normal tt).

(** [try { m } catch (err) { handler err }] *)
Definition try_catch {S A} (m : M S A) (handler : error -> M S A) : M S A :=
  fun s =>
    match m s with
    | (s', Throw e) => handler e s'
    | r => r
    end.

Module Notations.
  Notation "'do' x <- m ; k" := (bind m (fun x => k))
    (at level 10, x name, m at level 100, k at level 200, only parsing).
  Notation "'run' m ; k" := (bind m (fun _ => k))
    (at level 10, m at level 100, k at level 200, only parsing).
End Notations.

End Effects.

(* ===================================================================== *)
(** * Regular expressions *)
(* ===================================================================== *)

(** The two patterns of utils.ts are run by the engine's backtracking
    matcher.  This is that matcher for the constructs they use, in the
    continuation-passing form of the language specification: a matcher
    takes the state reached so far and a continuation for the rest of the
    pattern, and fails ([None]) or returns the final state. *)
Module RegExp.

Inductive Regex : Type :=
| Empty
| Char (A : ascii -> bool)                            (* a character or a class *)
| Seq (r1 r2 : Regex)
| Group (parenIndex : nat) (r : Regex)                (* ( r ) *)
| Quantified (r : Regex) (min : nat) (max : option nat)  (* greedy r{min,max} *)
| InputStart                                          (* ^ *)
| InputEnd.                                           (* $ *)

(** [r*], [r?] and [r{n}] *)
Definition Star (r : Regex) : Regex := Quantified r 0 None.
Definition Optional (r : Regex) : Regex := Quantified r 0 (Some 1).
Definition Times (n : nat) (r : Regex) : Regex := Quantified r n (Some n).

(** The indices of the groups inside a pattern. *)
Fixpoint parens (r : Regex) : list nat :=
  match r with
  | Seq r1 r2 => parens r1 ++ parens r2
  | Group i r => i :: parens r
  | Quantified r _ _ => parens r
  | _ => []
  end.

(** A state of the match: the input from the current position on, and
    what the groups have captured. *)
Record MatchState : Type := {
  rest : list ascii;
  captures : list (option (list ascii));
}.

Definition MatchResult : Type := option MatchState.
Definition MatcherContinuation : Type := MatchState -> MatchResult.
Definition Matcher : Type := MatchState -> MatcherContinuation -> MatchResult.

Definition CharacterSetMatcher (A : ascii -> bool) : Matcher :=
  fun x c =>
    match rest x with
    | [] => None
    | ch :: tl =>
        if A ch then c {| rest := tl; captures := captures x |} else None
    end.

Definition reset_captures (ps : list nat) (cap : list (option (list ascii)))
  : list (option (list ascii)) :=
  foldr (fun k cap => <[k := None]> cap) cap ps.

(** [RepeatMatcher]: one more round of [m] if [max] allows, preferred to
    stopping (greedy); a round that is not needed for [min] and consumes
    nothing fails.  The recursion is on [fuel]; [S (min + length (rest x))]
    is always enough, since a round either counts for [min] or consumes. *)
Fixpoint RepeatMatcher (fuel : nat) (m : Matcher) (min : nat) (max : option nat)
    (ps : list nat) (x : MatchState) (c : MatcherContinuation) : MatchResult :=
  match max with
  | Some 0 => c x
  | _ =>
      match fuel with
      | 0 => None
      | S fuel' =>
          let d : MatcherContinuation := fun y =>
            if Nat.eqb min 0 && Nat.eqb (length (rest y)) (length (rest x)) then None
            else RepeatMatcher fuel' m (pred min) (option_map pred max) ps y c in
          let xr := {| rest := rest x; captures := reset_captures ps (captures x) |} in
          if negb (Nat.eqb min 0) then m xr d
          else
            match m xr d with
            | Some z => Some z
            | None => c x
            end
      end
  end.

Section Compile.
(** The whole input; a state's position in it is what its [rest] leaves. *)
Variable Input : list ascii.

Fixpoint compile (r : Regex) : Matcher :=
  match r with
  | Empty => fun x c => c x
  | Char A => CharacterSetMatcher A
  | Seq r1 r2 => fun x c => compile r1 x (fun y => compile r2 y c)
  | Group parenIndex r => fun x c =>
      compile r x (fun y =>
        let captured := take (length (rest x) - length (rest y)) (rest x) in
        c {| rest := rest y;
             captures := <[parenIndex := Some captured]> (captures y) |})
  | Quantified r min max => fun x c =>
      RepeatMatcher (S (min + length (rest x))) (compile r) min max (parens r) x c
  | InputStart => fun x c =>
      if Nat.eqb (length (rest x)) (length Input) then c x else None
  | InputEnd => fun x c =>
      match rest x with
      | [] => c x
      | _ => None
      end
  end.
End Compile.

(** The result of a successful [exec]: where the match starts, the matched
    text and the captures. *)
Record MatchArray : Type := {
  index : nat;
  matched : list ascii;
  groups : list (option (list ascii));
}.

(** The search of [RegExpBuiltinExec] for a pattern without flags: try the
    pattern at [lastIndex], then at each later index up to the end. *)
Fixpoint search (Input : list ascii) (r : Regex) (lastIndex : nat) (suffix : list ascii)
  : option MatchArray :=
  match compile Input r
          {| rest := suffix; captures := replicate (length (parens r)) None |}
          Some with
  | Some y =>
      Some {| index := lastIndex;
              matched := take (length suffix - length (rest y)) suffix;
              groups := captures y |}
  | None =>
      match suffix with
      | [] => None
      | _ :: tl => search Input r (S lastIndex) tl
      end
  end.

Definition exec (r : Regex) (S : string) : option MatchArray :=
  search (list_ascii_of_string S) r 0 (list_ascii_of_string S).

(** [S.match(r)] for a pattern without the global flag: [null], or the
    array of the matched text followed by the captures. *)
Definition String_match (S : string) (r : Regex) : option (list (option string)) :=
  match exec r S with
  | Some a =>
      Some (Some (string_of_list_ascii (matched a))
            :: map (option_map string_of_list_ascii) (groups a))
  | None => None
  end.

(** [S.replace(r, replacement)] for a pattern without the global flag and
    a replacement without [$]. *)
Definition String_replace (S : string) (r : Regex) (replacement : string) : string :=
  match exec r S with
  | Some a =>
      let input := list_ascii_of_string S in
      string_of_list_ascii
        (take (index a) input
         ++ list_ascii_of_string replacement
         ++ drop (index a + length (matched a)) input)
  | None => S
  end.

(** [matches[k]]; past the end of an array it is [undefined]. *)
Definition at_index (matches : list (option string)) (k : nat) : option string :=
  mjoin (matches !! k).

(** [a === b] for a capture and a string literal. *)
Definition capture_is (a : option string) (b : string) : bool :=
  match a with
  | Some s => String.eqb s b
  | None => false
  end.

(** ** What a pattern matches

    [steps r s s']: from the input [s] the pattern [r] can consume down to
    [s'].  Captures play no part in whether a match exists. *)

Inductive rounds (R : list ascii -> list ascii -> Prop)
  : nat -> option nat -> list ascii -> list ascii -> Prop :=
| rounds_stop min max s :
    min = 0 \/ max = Some 0 -> rounds R min max s s
| rounds_more min max s s1 s' :
    max <> Some 0 ->
    R s s1 ->
    (min = 0 -> length s1 <> length s) ->
    rounds R (pred min) (option_map pred max) s1 s' ->
    rounds R min max s s'.

Fixpoint steps (Input : list ascii) (r : Regex) : list ascii -> list ascii -> Prop :=
  match r with
  | Empty => fun s s' => s' = s
  | Char A => fun s s' => exists a, s = a :: s' /\ A a = true
  | Seq r1 r2 => fun s s' => exists s1, steps Input r1 s s1 /\ steps Input r2 s1 s'
  | Group _ r => steps Input r
  | Quantified r min max => rounds (steps Input r) min max
  | InputStart => fun s s' => s' = s /\ length s = length Input
  | InputEnd => fun s s' => s' = s /\ s = []
  end.

(** A relation along which the input only gets shorter. *)
Definition shrinking (R : list ascii -> list ascii -> Prop) : Prop :=
  forall s s', R s s' -> length s' <= length s.

(** A continuation whose success, on the inputs of length at most [n],
    does not depend on the captures. *)
Definition blind_below (n : nat) (c : MatcherContinuation) : Prop :=
  forall s cap cap',
    length s <= n ->
    is_Some (c {| rest := s; captures := cap |})
    <-> is_Some (c {| rest := s; captures := cap' |}).

(** [m] succeeds exactly when [R] leads to an input on which the
    continuation succeeds. *)
Definition matcher_spec (m : Matcher) (R : list ascii -> list ascii -> Prop) : Prop :=
  forall x c,
    blind_below (length (rest x)) c ->
    is_Some (m x c)
    <-> exists s', R (rest x) s' /\ is_Some (c {| rest := s'; captures := captures x |}).

(** The input does not go on with a character of the class [A]. *)
Definition stops_at (A : ascii -> bool) (s : list ascii) : Prop :=
  match s with
  | [] => True
  | a :: _ => A a = false
  end.

End RegExp.

(* ===================================================================== *)
(** * Text encodings *)
(* ===================================================================== *)

(** [computeTracestateValue] hands a JSON text to [unicodeToBase64] of
    @sentry/utils, and its result is meant for a base64 decoder and
    [JSON.parse].  The text is a string of UTF-16 code units, any of them,
    surrogates included; its UTF-8 is a sequence of bytes, and a byte is an
    eight-bit character, as is a character of the base64 text. *)
Module Encoding.

(** ** Strings *)

(** A string is a sequence of UTF-16 code units.  A code unit is sixteen
    bits: its high byte and its low byte (a byte has its least significant
    bit first). *)
Inductive code_unit : Type :=
| CodeUnit (high low : ascii).

Definition ustring : Type := list code_unit.

(** The code units below 256, and the strings made of them. *)
Definition of_ascii (c : ascii) : code_unit := CodeUnit Ascii.zero c.

Definition of_string (s : string) : ustring := map of_ascii (list_ascii_of_string s).

Definition unit_eqb (u v : code_unit) : bool :=
  let 'CodeUnit h l := u in
  let 'CodeUnit h' l' := v in
  Ascii.eqb h h' && Ascii.eqb l l'.

(** The surrogates: [0xD800]-[0xDBFF] lead a pair, [0xDC00]-[0xDFFF]
    trail one. *)
Definition is_high_surrogate (u : code_unit) : bool :=
  let 'CodeUnit (Ascii _ _ b2 b3 b4 b5 b6 b7) _ := u in
  b7 && b6 && negb b5 && b4 && b3 && negb b2.

Definition is_low_surrogate (u : code_unit) : bool :=
  let 'CodeUnit (Ascii _ _ b2 b3 b4 b5 b6 b7) _ := u in
  b7 && b6 && negb b5 && b4 && b3 && b2.

Definition is_surrogate (u : code_unit) : bool :=
  is_high_surrogate u || is_low_surrogate u.

(** [String.prototype.isWellFormed]: every surrogate is half of a pair. *)
Fixpoint isWellFormed (s : ustring) : bool :=
  match s with
  | [] => true
  | u :: s' =>
      if is_high_surrogate u then
        match s' with
        | l :: s'' => is_low_surrogate l && isWellFormed s''
        | [] => false
        end
      else negb (is_low_surrogate u) && isWellFormed s'
  end.

(** ** Base64 (RFC 4648) *)

(** Six bits, the most significant first. *)
Inductive sextet : Type :=
| Sextet (b5 b4 b3 b2 b1 b0 : bool).

Definition bit (b : bool) (weight : nat) : nat := if b then weight else 0.

Definition sextet_value (s : sextet) : nat :=
  let 'Sextet b5 b4 b3 b2 b1 b0 := s in
  bit b5 32 + bit b4 16 + bit b3 8 + bit b2 4 + bit b1 2 + bit b0 1.

Definition sextet_of_value (n : nat) : sextet :=
  Sextet (Nat.testbit n 5) (Nat.testbit n 4) (Nat.testbit n 3)
         (Nat.testbit n 2) (Nat.testbit n 1) (Nat.testbit n 0).

Definition alphabet : list ascii :=
  list_ascii_of_string
    "ABCDEFGHIJKLMNOPQRSTUVWXYZabcdefghijklmnopqrstuvwxyz0123456789+/".

Definition padding : ascii := "=".

Definition digit (s : sextet) : ascii := nth (sextet_value s) alphabet padding.

Fixpoint position (c : ascii) (l : list ascii) : option nat :=
  match l with
  | [] => None
  | x :: l => if Ascii.eqb c x then Some 0 else option_map S (position c l)
  end.

Definition digit_value (c : ascii) : option sextet :=
  option_map sextet_of_value (position c alphabet).

(** Three bytes are four sextets; a byte has its least significant bit
    first. *)
Definition sextets3 (a b c : ascii) : sextet * sextet * sextet * sextet :=
  let 'Ascii a0 a1 a2 a3 a4 a5 a6 a7 := a in
  let 'Ascii b0 b1 b2 b3 b4 b5 b6 b7 := b in
  let 'Ascii c0 c1 c2 c3 c4 c5 c6 c7 := c in
  (Sextet a7 a6 a5 a4 a3 a2, Sextet a1 a0 b7 b6 b5 b4,
   Sextet b3 b2 b1 b0 c7 c6, Sextet c5 c4 c3 c2 c1 c0).

Definition bytes3 (s1 s2 s3 s4 : sextet) : ascii * ascii * ascii :=
  let 'Sextet a7 a6 a5 a4 a3 a2 := s1 in
  let 'Sextet a1 a0 b7 b6 b5 b4 := s2 in
  let 'Sextet b3 b2 b1 b0 c7 c6 := s3 in
  let 'Sextet c5 c4 c3 c2 c1 c0 := s4 in
  (Ascii a0 a1 a2 a3 a4 a5 a6 a7, Ascii b0 b1 b2 b3 b4 b5 b6 b7,
   Ascii c0 c1 c2 c3 c4 c5 c6 c7).

(** The encoding, with its padding to a multiple of four characters. *)
Fixpoint base64_encode (bytes : list ascii) : list ascii :=
  match bytes with
  | a :: b :: c :: bytes =>
      let '(s1, s2, s3, s4) := sextets3 a b c in
      digit s1 :: digit s2 :: digit s3 :: digit s4 :: base64_encode bytes
  | [a; b] =>
      let '(s1, s2, s3, _) := sextets3 a b Ascii.zero in
      [digit s1; digit s2; digit s3; padding]
  | [a] =>
      let '(s1, s2, _, _) := sextets3 a Ascii.zero Ascii.zero in
      [digit s1; digit s2; padding; padding]
  | [] => []
  end.

(** The digits of the encoding, without the padding. *)
Fixpoint base64_digits (bytes : list ascii) : list ascii :=
  match bytes with
  | a :: b :: c :: bytes =>
      let '(s1, s2, s3, s4) := sextets3 a b c in
      digit s1 :: digit s2 :: digit s3 :: digit s4 :: base64_digits bytes
  | [a; b] =>
      let '(s1, s2, s3, _) := sextets3 a b Ascii.zero in
      [digit s1; digit s2; digit s3]
  | [a] =>
      let '(s1, s2, _, _) := sextets3 a Ascii.zero Ascii.zero in
      [digit s1; digit s2]
  | [] => []
  end.

Definition is_padding (pad : list ascii) : Prop :=
  pad = [] \/ pad = [padding] \/ pad = [padding; padding].

Definition no_padding (digits : list ascii) : bool :=
  forallb (fun c => negb (Ascii.eqb c padding)) digits.

(** The decoding of a text without padding: what is left of a last,
    incomplete group of digits is one byte for two digits and two for
    three. *)
Fixpoint base64_decode_unpadded (digits : list ascii) : option (list ascii) :=
  match digits with
  | c1 :: c2 :: c3 :: c4 :: digits =>
      s1 ← digit_value c1; s2 ← digit_value c2;
      s3 ← digit_value c3; s4 ← digit_value c4;
      bytes ← base64_decode_unpadded digits;
      let '(a, b, c) := bytes3 s1 s2 s3 s4 in
      Some (a :: b :: c :: bytes)
  | [c1; c2; c3] =>
      s1 ← digit_value c1; s2 ← digit_value c2; s3 ← digit_value c3;
      let '(a, b, _) := bytes3 s1 s2 s3 (Sextet false false false false false false) in
      Some [a; b]
  | [c1; c2] =>
      s1 ← digit_value c1; s2 ← digit_value c2;
      let '(a, _, _) := bytes3 s1 s2 (Sextet false false false false false false)
                          (Sextet false false false false false false) in
      Some [a]
  | [_] => None
  | [] => Some []
  end.

(** Drop the padding at the end of a text, one or two characters. *)
Definition without_padding (digits : list ascii) : list ascii :=
  match rev digits with
  | p1 :: p2 :: l =>
      if Ascii.eqb p1 padding
      then if Ascii.eqb p2 padding then rev l else rev (p2 :: l)
      else digits
  | [p1] => if Ascii.eqb p1 padding then [] else digits
  | [] => []
  end.

(** The decoders this header is written for take a text with or without
    its padding. *)
Definition base64_decode (digits : list ascii) : option (list ascii) :=
  base64_decode_unpadded (without_padding digits).

(** ** UTF-8 *)

(** A code unit that is no surrogate is a code point of the basic plane:
    one byte below [0x80], two below [0x800], three from there. *)
Definition utf8_unit (u : code_unit) : list ascii :=
  let 'CodeUnit (Ascii h0 h1 h2 h3 h4 h5 h6 h7) (Ascii l0 l1 l2 l3 l4 l5 l6 l7) := u in
  if h7 || h6 || h5 || h4 || h3 then
    [Ascii h4 h5 h6 h7 false true true true;        (* 1110 hhhh *)
     Ascii l6 l7 h0 h1 h2 h3 false true;            (* 10 hhhh ll *)
     Ascii l0 l1 l2 l3 l4 l5 false true]            (* 10 llllll *)
  else if h2 || h1 || h0 || l7 then
    [Ascii l6 l7 h0 h1 h2 false true true;          (* 110 hhh ll *)
     Ascii l0 l1 l2 l3 l4 l5 false true]            (* 10 llllll *)
  else [Ascii l0 l1 l2 l3 l4 l5 l6 false].          (* 0 lllllll *)

(** The planes above the basic one.  A pair [110110 wwww xxxxxx],
    [110111 yyyyyyyyyy] is the code point [uuuuu xxxxxx yyyyyyyyyy] with
    [uuuuu = wwww + 1]. *)
Definition plane_succ (w0 w1 w2 w3 : bool) : bool * bool * bool * bool * bool :=
  let c1 := w0 in
  let c2 := w1 && c1 in
  let c3 := w2 && c2 in
  (negb w0, xorb w1 c1, xorb w2 c2, xorb w3 c3, w3 && c3).

(** [wwww = uuuuu - 1], for [uuuuu] from 1 to 16: the code points up to
    [0x10FFFF]. *)
Definition plane_pred (u0 u1 u2 u3 u4 : bool) : option (bool * bool * bool * bool) :=
  let b1 := negb u0 in
  let b2 := negb u1 && b1 in
  let b3 := negb u2 && b2 in
  let b4 := negb u3 && b3 in
  if xorb u4 b4 then None
  else Some (negb u0, xorb u1 b1, xorb u2 b2, xorb u3 b3).

Definition utf8_pair (h l : code_unit) : list ascii :=
  let 'CodeUnit (Ascii w2 w3 _ _ _ _ _ _) (Ascii x0 x1 x2 x3 x4 x5 w0 w1) := h in
  let 'CodeUnit (Ascii y8 y9 _ _ _ _ _ _) (Ascii y0 y1 y2 y3 y4 y5 y6 y7) := l in
  let '(u0, u1, u2, u3, u4) := plane_succ w0 w1 w2 w3 in
  [Ascii u2 u3 u4 false true true true true;        (* 11110 uuu *)
   Ascii x2 x3 x4 x5 u0 u1 false true;              (* 10 uu xxxx *)
   Ascii y6 y7 y8 y9 x0 x1 false true;              (* 10 xx yyyy *)
   Ascii y0 y1 y2 y3 y4 y5 false true].             (* 10 yyyyyy *)

(** [U+FFFD], which stands for a surrogate without its other half. *)
Definition replacement : list ascii := ["239"; "191"; "189"]%char.

(** The UTF-8 of a string, as [TextEncoder] and [Buffer.from] give it. *)
Fixpoint utf8_encode (s : ustring) : list ascii :=
  match s with
  | [] => []
  | u :: s' =>
      if is_high_surrogate u then
        match s' with
        | l :: s'' =>
            if is_low_surrogate l then (utf8_pair u l ++ utf8_encode s'')%list
            else (replacement ++ utf8_encode s')%list
        | [] => replacement
        end
      else if is_low_surrogate u then (replacement ++ utf8_encode s')%list
      else (utf8_unit u ++ utf8_encode s')%list
  end.

(** The six bits of a continuation byte [10 xxxxxx]. *)
Definition continuation (b : ascii) : option (bool * bool * bool * bool * bool * bool) :=
  let 'Ascii c0 c1 c2 c3 c4 c5 c6 c7 := b in
  if c7 && negb c6 then Some (c0, c1, c2, c3, c4, c5) else None.

(** The string of a UTF-8 text; [None] for bytes that are not the UTF-8
    of a string (an encoding longer than needed, a surrogate, a code
    point above [0x10FFFF], a byte out of place). *)
Fixpoint utf8_decode (bytes : list ascii) : option ustring :=
  match bytes with
  | [] => Some []
  | Ascii a0 a1 a2 a3 a4 a5 a6 a7 :: bytes1 =>
      if negb a7 then
        cons (CodeUnit Ascii.zero (Ascii a0 a1 a2 a3 a4 a5 a6 false)) <$> utf8_decode bytes1
      else if negb a6 then None
      else if negb a5 then
        match bytes1 with
        | b2 :: bytes2 =>
            match continuation b2 with
            | Some (l0, l1, l2, l3, l4, l5) =>
                if a4 || a3 || a2 || a1 then
                  cons (CodeUnit (Ascii a2 a3 a4 false false false false false)
                                 (Ascii l0 l1 l2 l3 l4 l5 a0 a1))
                    <$> utf8_decode bytes2
                else None
            | None => None
            end
        | [] => None
        end
      else if negb a4 then
        match bytes1 with
        | b2 :: b3 :: bytes3 =>
            match continuation b2, continuation b3 with
            | Some (l6, l7, h0, h1, h2, h3), Some (l0, l1, l2, l3, l4, l5) =>
                let u := CodeUnit (Ascii h0 h1 h2 h3 a0 a1 a2 a3)
                                  (Ascii l0 l1 l2 l3 l4 l5 l6 l7) in
                if (a3 || a2 || a1 || a0 || h3) && negb (is_surrogate u)
                then cons u <$> utf8_decode bytes3
                else None
            | _, _ => None
            end
        | _ => None
        end
      else if negb a3 then
        match bytes1 with
        | b2 :: b3 :: b4 :: bytes4 =>
            match continuation b2, continuation b3, continuation b4 with
            | Some (x2, x3, x4, x5, u0, u1), Some (y6, y7, y8, y9, x0, x1),
              Some (y0, y1, y2, y3, y4, y5) =>
                match plane_pred u0 u1 a0 a1 a2 with
                | Some (w0, w1, w2, w3) =>
                    let h := CodeUnit (Ascii w2 w3 false true true false true true)
                                      (Ascii x0 x1 x2 x3 x4 x5 w0 w1) in
                    let l := CodeUnit (Ascii y8 y9 true true true false true true)
                                      (Ascii y0 y1 y2 y3 y4 y5 y6 y7) in
                    (fun s => h :: l :: s) <$> utf8_decode bytes4
                | None => None
                end
            | _, _, _ => None
            end
        | _ => None
        end
      else None
  end.

(** Modelled from the spec: [unicodeToBase64] of @sentry/utils is not
    under src/.  It is the text-to-base64 transform that is safe for
    non-ASCII code points: the text is encoded in UTF-8, with
    [TextEncoder] or [Buffer.from], and the bytes in base64.  It raises if
    the platform's encoder does; the encoding here is defined on every
    string. *)
Definition unicodeToBase64 (plaintext : ustring) : JS.completion string :=
  JS.Normal (string_of_list_ascii (base64_encode (utf8_encode plaintext))).

(** Its inverse, [base64ToUnicode]: [None] for a text that is not the
    base64 of the UTF-8 of a string. *)
Definition base64ToUnicode (base64String : string) : option ustring :=
  base64_decode (list_ascii_of_string base64String) ≫= utf8_decode.

End Encoding.

(* ===================================================================== *)
(** * JSON texts *)
(* ===================================================================== *)

(** [JSON.stringify] and [JSON.parse] on the values the tracestate holds:
    objects whose properties are strings or [null], as ECMAScript 2019 and
    later define the two: [JSON.stringify] writes a surrogate that is not
    half of a pair as an escape, so that its text is well formed. *)
Module JSON.
Import Encoding.

Definition double_quote : code_unit := of_ascii "034".
Definition backslash : code_unit := of_ascii "092".

(** The properties of an object, in their order: [Some s] for a string
    and [None] for [null]. *)
Definition object : Type := list (ustring * option ustring).

Definition hex (n : nat) : ascii :=
  nth n (list_ascii_of_string "0123456789abcdef") "0"%char.

(** The two hexadecimal digits of a byte. *)
Definition hex2 (b : ascii) : ustring :=
  let n := nat_of_ascii b in
  [of_ascii (hex (n / 16)); of_ascii (hex (n mod 16))].

(** [UnicodeEscape]: [\uXXXX], the digits in lower case. *)
Definition UnicodeEscape (u : code_unit) : ustring :=
  let 'CodeUnit h l := u in
  (backslash :: of_ascii "u" :: hex2 h ++ hex2 l)%list.

(** [QuoteJSONString] on one code point of the basic plane, or on a
    surrogate that is not half of a pair. *)
Definition escape (u : code_unit) : ustring :=
  let 'CodeUnit h l := u in
  if Ascii.eqb h Ascii.zero then
    let n := nat_of_ascii l in
    if Nat.eqb n 8 then [backslash; of_ascii "b"]
    else if Nat.eqb n 9 then [backslash; of_ascii "t"]
    else if Nat.eqb n 10 then [backslash; of_ascii "n"]
    else if Nat.eqb n 12 then [backslash; of_ascii "f"]
    else if Nat.eqb n 13 then [backslash; of_ascii "r"]
    else if Nat.eqb n 34 then [backslash; double_quote]
    else if Nat.eqb n 92 then [backslash; backslash]
    else if Nat.ltb n 32 then UnicodeEscape u
    else [u]
  else if is_surrogate u then UnicodeEscape u
  else [u].

(** The code points of a string, each one escaped: a surrogate pair is a
    code point above the basic plane, and is written as it is. *)
Fixpoint escape_code_points (s : ustring) : ustring :=
  match s with
  | [] => []
  | u :: s' =>
      if is_high_surrogate u then
        match s' with
        | l :: s'' =>
            if is_low_surrogate l then u :: l :: escape_code_points s''
            else (escape u ++ escape_code_points s')%list
        | [] => escape u
        end
      else (escape u ++ escape_code_points s')%list
  end.

Definition QuoteJSONString (s : ustring) : ustring :=
  (double_quote :: escape_code_points s ++ [double_quote])%list.

Definition serialize_value (v : option ustring) : ustring :=
  match v with
  | Some s => QuoteJSONString s
  | None => of_string "null"
  end.

Definition serialize_member (m : ustring * option ustring) : ustring :=
  (QuoteJSONString (fst m) ++ of_ascii ":" :: serialize_value (snd m))%list.

Fixpoint serialize_members (ms : object) : ustring :=
  match ms with
  | [] => []
  | [m] => serialize_member m
  | m :: ms => (serialize_member m ++ of_ascii "," :: serialize_members ms)%list
  end.

(** [JSON.stringify] of an object, its properties in their order. *)
Definition stringify (o : object) : ustring :=
  (of_ascii "{" :: serialize_members o ++ [of_ascii "}"])%list.

(** *** Parsing *)

Definition hex_value (u : code_unit) : option nat :=
  let 'CodeUnit h c := u in
  let n := nat_of_ascii c in
  if negb (Ascii.eqb h Ascii.zero) then None
  else if Nat.leb 48 n && Nat.leb n 57 then Some (n - 48)
  else if Nat.leb 97 n && Nat.leb n 102 then Some (n - 87)
  else if Nat.leb 65 n && Nat.leb n 70 then Some (n - 55)
  else None.

(** The byte two hexadecimal digits stand for. *)
Definition hex_byte (d1 d2 : code_unit) : option ascii :=
  match hex_value d1, hex_value d2 with
  | Some n1, Some n2 => Some (ascii_of_nat (16 * n1 + n2))
  | _, _ => None
  end.

(** The character an escape letter stands for. *)
Definition unescape (e : code_unit) : option code_unit :=
  if unit_eqb e (of_ascii "b") then Some (of_ascii "008")
  else if unit_eqb e (of_ascii "t") then Some (of_ascii "009")
  else if unit_eqb e (of_ascii "n") then Some (of_ascii "010")
  else if unit_eqb e (of_ascii "f") then Some (of_ascii "012")
  else if unit_eqb e (of_ascii "r") then Some (of_ascii "013")
  else if unit_eqb e double_quote then Some double_quote
  else if unit_eqb e backslash then Some backslash
  else if unit_eqb e (of_ascii "/") then Some (of_ascii "/")
  else None.

(** The code units below [0x20], which a string literal does not hold
    unescaped. *)
Definition is_control (u : code_unit) : bool :=
  let 'CodeUnit h c := u in
  Ascii.eqb h Ascii.zero && Nat.ltb (nat_of_ascii c) 32.

Definition cons_unit (u : code_unit) (r : option (ustring * ustring))
  : option (ustring * ustring) :=
  match r with
  | Some (s, l) => Some (u :: s, l)
  | None => None
  end.

(** A string literal after its opening quote: the string, and what
    follows the closing quote. *)
Fixpoint parse_string (l : ustring) : option (ustring * ustring) :=
  match l with
  | [] => None
  | c :: l =>
      if unit_eqb c double_quote then Some ([], l)
      else if unit_eqb c backslash then
        match l with
        | [] => None
        | e :: l =>
            if unit_eqb e (of_ascii "u") then
              match l with
              | h1 :: h2 :: h3 :: h4 :: l =>
                  match hex_byte h1 h2, hex_byte h3 h4 with
                  | Some h, Some b => cons_unit (CodeUnit h b) (parse_string l)
                  | _, _ => None
                  end
              | _ => None
              end
            else
              match unescape e with
              | Some c => cons_unit c (parse_string l)
              | None => None
              end
        end
      else if is_control c then None
      else cons_unit c (parse_string l)
  end.

(** A value: a string or [null]. *)
Definition parse_value (l : ustring) : option (option ustring * ustring) :=
  match l with
  | c :: l' =>
      if unit_eqb c double_quote then
        match parse_string l' with
        | Some (s, rest) => Some (Some s, rest)
        | None => None
        end
      else
        match l with
        | n :: u :: l1 :: l2 :: rest =>
            if unit_eqb n (of_ascii "n") && unit_eqb u (of_ascii "u")
               && unit_eqb l1 (of_ascii "l") && unit_eqb l2 (of_ascii "l")
            then Some (None, rest) else None
        | _ => None
        end
  | [] => None
  end.

(** The members of an object up to its closing brace. *)
Fixpoint parse_members (fuel : nat) (l : ustring) : option (object * ustring) :=
  match fuel with
  | 0 => None
  | S fuel =>
      match l with
      | q :: l =>
          if unit_eqb q double_quote then
            match parse_string l with
            | Some (key, colon :: l) =>
                if unit_eqb colon (of_ascii ":") then
                  match parse_value l with
                  | Some (v, sep :: l) =>
                      if unit_eqb sep (of_ascii ",") then
                        match parse_members fuel l with
                        | Some (ms, rest) => Some ((key, v) :: ms, rest)
                        | None => None
                        end
                      else if unit_eqb sep (of_ascii "}") then Some ([(key, v)], l)
                      else None
                  | _ => None
                  end
                else None
            | _ => None
            end
          else None
      | [] => None
      end
  end.

(** [JSON.parse] of the text of an object (without white space): its
    members, in the order of the text. *)
Definition parse (text : ustring) : option object :=
  match text with
  | open :: l =>
      if unit_eqb open (of_ascii "{") then
        match l with
        | [close] => if unit_eqb close (of_ascii "}") then Some [] else None
        | _ =>
            match parse_members (length l) l with
            | Some (ms, []) => Some ms
            | _ => None
            end
        end
      else None
  | [] => None
  end.

Fixpoint ustring_eqb (s t : ustring) : bool :=
  match s, t with
  | [], [] => true
  | u :: s, v :: t => unit_eqb u v && ustring_eqb s t
  | _, _ => false
  end.

(** [object[key]] on the object the members make: [None] is [undefined],
    and of two members with one key the later one counts. *)
Fixpoint get (key : ustring) (members : object) : option (option ustring) :=
  match members with
  | [] => None
  | (k, v) :: members =>
      match get key members with
      | Some v' => Some v'
      | None => if ustring_eqb key k then Some v else None
      end
  end.
End JSON.

(* ===================================================================== *)
(** * The objects of the SDK *)
(* ===================================================================== *)

(** What @sentry/types, @sentry/hub and transaction.ts declare, as far as
    the two files use it. *)
Module Types.
Import JS.

(** Modelled from the spec: [TransactionSamplingMethod] of @sentry/types
    is not under src/.  It is the provenance of a sampling decision. *)
Inductive TransactionSamplingMethod : Type :=
| Explicit | Sampler | Inheritance | Rate.

(** Modelled from the spec: the metadata of a transaction (@sentry/types)
    is not under src/.  Its [transactionSampling] entry is the provenance
    with, for a sampler and for a configured rate, the rate as a number. *)
Record TransactionSampling : Type := {
  method : TransactionSamplingMethod;
  rate : option number;
}.

Record TransactionMetadata : Type := {
  transactionSampling : option TransactionSampling;
}.

(** Modelled from the spec: the class [Transaction] (./transaction) is not
    under src/.  This is a transaction as far as [sample] touches it:
    [sampled] is [boolean | undefined], [undefined] meaning not yet
    decided; [spanRecorder] holds the [maxlen] argument the recorder was
    created with, once there is a recorder. *)
Record Transaction : Type := {
  name : string;
  op : option string;
  sampled : option bool;
  metadata : TransactionMetadata;
  spanRecorder : option value;
}.

(** Modelled from the spec: [TransactionContext] of @sentry/types is not
    under src/; the construction context of a transaction. *)
Record TransactionContext : Type := {
  ctx_name : string;
  ctx_op : option string;
}.

(** Modelled from the spec: [SamplingContext] of @sentry/types is not under
    src/.  It is what [tracesSampler] is handed: the inherited decision,
    the construction context and the caller's custom data.
    [parentSampled] is declared [boolean | undefined], but the custom data
    is spread over it, so it is any value. *)
Record SamplingContext : Type := {
  parentSampled : value;
  transactionContext : TransactionContext;
  custom : list (string * value);
}.

(** Modelled from the spec: the [_experiments] of the options, of which
    this code reads the maximum span count. *)
Record Experiments : Type := {
  maxSpans : value;
}.

(** Modelled from the spec: [Options] of @sentry/types is not under src/.
    Of the SDK options this code reads a sampler, a fixed rate and the
    experiments.  For the first two the presence of the key matters
    ([hasTracingEnabled] tests it with [in]): [None] is an absent key.  A
    present [tracesSampler] is a function ([Some f]; user code, which
    returns anything or throws) or something else ([None]). *)
Record Options : Type := {
  tracesSampleRate : option value;
  tracesSampler : option (option (SamplingContext -> completion value));
  _experiments : option Experiments;
}.

(** [{}] *)
Definition empty_options : Options :=
  {| tracesSampleRate := None; tracesSampler := None; _experiments := None |}.

(** Modelled from the spec: the client and the hub of @sentry/hub are not
    under src/.  A hub has a client or none, and a client has options. *)
Record Client : Type := {
  options : Options;
}.

Record Hub : Type := {
  getClient : option Client;
}.

End Types.

(* ===================================================================== *)
(** * utils.ts: the trace headers *)
(* ===================================================================== *)

Module Utils.
Import JS Effects Effects.Notations RegExp Encoding Types.

Definition in_range (lo hi c : ascii) : bool :=
  Nat.leb (nat_of_ascii lo) (nat_of_ascii c) && Nat.leb (nat_of_ascii c) (nat_of_ascii hi).

(** [[ \t]], [[0-9a-f]], [-] and [[01]] *)
Definition space_or_tab (c : ascii) : bool := Ascii.eqb c " " || Ascii.eqb c "009".
Definition hex_digit (c : ascii) : bool := in_range "0" "9" c || in_range "a" "f" c.
Definition hyphen (c : ascii) : bool := Ascii.eqb c "-".
Definition zero_or_one (c : ascii) : bool := Ascii.eqb c "0" || Ascii.eqb c "1".

(** [^[ \t]*([0-9a-f]{32})?-?([0-9a-f]{16})?-?([01])?[ \t]*$] *)
Definition TRACEPARENT_REGEXP : Regex :=
  Seq InputStart
  (Seq (Star (Char space_or_tab))                         (* whitespace *)
  (Seq (Optional (Group 0 (Times 32 (Char hex_digit))))   (* trace_id *)
  (Seq (Optional (Char hyphen))
  (Seq (Optional (Group 1 (Times 16 (Char hex_digit))))   (* span_id *)
  (Seq (Optional (Char hyphen))
  (Seq (Optional (Group 2 (Char zero_or_one)))            (* sampled *)
  (Seq (Star (Char space_or_tab))                         (* whitespace *)
       InputEnd))))))).

(** [key in options]; also [!!client] *)
Definition has_key {A} (field : option A) : bool :=
  match field with
  | Some _ => true
  | None => false
  end.

(** Determines if tracing is currently enabled: at least one of
    [tracesSampleRate] and [tracesSampler] is defined in the SDK config,
    ['tracesSampleRate' in options || 'tracesSampler' in options]. *)
Definition hasTracingEnabled (options : Options) : bool :=
  has_key (tracesSampleRate options) || has_key (tracesSampler options).

(** Modelled from the spec: [TraceparentData] of @sentry/types is not under
    src/.  All three fields are optional, each on its own. *)
Record TraceparentData : Type := {
  traceId : option string;
  parentSampled : option bool;
  parentSpanId : option string;
}.

(** Extract transaction context data from a [sentry-trace] header:
    the data of the header, or [None] ([undefined]) if it is malformed. *)
Definition extractTraceparentData (traceparent : string) : option TraceparentData :=
  match String_match traceparent TRACEPARENT_REGEXP with
  | Some matches =>
      let parentSampled :=
        if capture_is (at_index matches 3) "1" then Some true
        else if capture_is (at_index matches 3) "0" then Some false
        else None in
      Some {| traceId := at_index matches 1;
              parentSampled := parentSampled;
              parentSpanId := at_index matches 2 |}
  | None => None
  end.

(** ** Time *)

(** Converts from milliseconds to seconds: [time / 1000]. *)
Definition msToSec (time : number) : number := (time / 1000)%float.

(** Converts from seconds to milliseconds: [time * 1000]. *)
Definition secToMs (time : number) : number := (time * 1000)%float.

(** ** The tracestate header *)

(** [string | undefined | null] *)
Inductive nullable_string : Type :=
| IsUndefined
| IsNull
| IsString (s : ustring).

(** The four properties of the declared type of the argument. *)
Inductive key : Type :=
| Key_trace_id
| Key_environment
| Key_release
| Key_public_key.

(** An object of that type: the values of its four properties, and the
    keys the object has, in their order, which is the one its creator gave
    them.  A key the object does not have is not among them, and its value
    is [undefined].  An object with further properties is not of the type,
    and is not modelled. *)
Record TracestateData : Type := {
  own_keys : list key;
  trace_id : ustring;
  environment : nullable_string;
  release : nullable_string;
  public_key : ustring;
}.

(** [v || null]: [undefined], [null] and the empty string are falsy. *)
Definition falsy (v : nullable_string) : bool :=
  match v with
  | IsString (_ :: _) => false
  | _ => true
  end.

Definition or_null (v : nullable_string) : nullable_string :=
  if falsy v then IsNull else v.

(** The argument of [computeTracestateValue] is an object of its caller:
    the heap holds the objects by their address, and a call is given an
    address.  An address without an object stands for an argument that is
    not an object, and reading a property of it throws. *)
Definition read (address : nat) : M (gmap nat TracestateData) TracestateData :=
  fun heap =>
    match heap !! address with
    | Some data => (heap, Normal data)
    | None => (heap, Throw (TypeError "Cannot read properties of undefined"))
    end.

Definition write (address : nat) (data : TracestateData)
  : M (gmap nat TracestateData) unit :=
  modify (fun heap => <[address := data]> heap).

Definition key_eqb (k k' : key) : bool :=
  match k, k' with
  | Key_trace_id, Key_trace_id | Key_environment, Key_environment
  | Key_release, Key_release | Key_public_key, Key_public_key => true
  | _, _ => false
  end.

(** The keys after an assignment to a property: one the object has stays
    in its place, and one it does not have comes last. *)
Definition assign_key (k : key) (keys : list key) : list key :=
  if existsb (key_eqb k) keys then keys else (keys ++ [k])%list.

Definition with_environment (v : nullable_string) (d : TracestateData) : TracestateData :=
  {| own_keys := assign_key Key_environment (own_keys d); trace_id := trace_id d;
     environment := v; release := release d; public_key := public_key d |}.

Definition with_release (v : nullable_string) (d : TracestateData) : TracestateData :=
  {| own_keys := assign_key Key_release (own_keys d); trace_id := trace_id d;
     environment := environment d; release := v; public_key := public_key d |}.

(** [/={1,2}$/] *)
Definition PADDING_REGEXP : Regex :=
  Seq (Quantified (Char (Ascii.eqb "=")) 1 (Some 2)) InputEnd.

Section ComputeTracestateValue.
(** [JSON.stringify] on the data and [unicodeToBase64]: either may
    throw, which is what the [try] is for. *)
Variable JSON_stringify : TracestateData -> completion ustring.
Variable unicodeToBase64 : ustring -> completion string.

(** Compute the value of a tracestate header: the base64-encoded header
    value; throws SentryError. *)
Definition computeTracestateValue (tracestateData : nat)
  : M (gmap nat TracestateData) string :=
  (* [JSON.stringify] will drop keys with undefined values, but not ones
     with null values *)
  do d <- read tracestateData;
  run write tracestateData (with_environment (or_null (environment d)) d);
  do d <- read tracestateData;
  run write tracestateData (with_release (or_null (release d)) d);
  try_catch
    (do d <- read tracestateData;
     do json <- lift (JSON_stringify d);
     do base64 <- lift (unicodeToBase64 json);
     ret (String_replace base64 PADDING_REGEXP ""))
    (fun err =>
       throw (SentryError "[Tracing] Error creating tracestate header" err)).
End ComputeTracestateValue.

Definition key_name (k : key) : ustring :=
  of_string match k with
            | Key_trace_id => "trace_id"
            | Key_environment => "environment"
            | Key_release => "release"
            | Key_public_key => "public_key"
            end.

(** [tracestateData[k]] *)
Definition value_of (k : key) (d : TracestateData) : nullable_string :=
  match k with
  | Key_trace_id => IsString (trace_id d)
  | Key_environment => environment d
  | Key_release => release d
  | Key_public_key => IsString (public_key d)
  end.

(** [JSON.stringify] on a [TracestateData]: its properties in the order
    the object has them, a property whose value is [undefined] dropped. *)
Definition property (key : ustring) (v : nullable_string) : JSON.object :=
  match v with
  | IsUndefined => []
  | IsNull => [(key, None)]
  | IsString s => [(key, Some s)]
  end.

Definition properties (d : TracestateData) : JSON.object :=
  flat_map (fun k => property (key_name k) (value_of k d)) (own_keys d).

Definition JSON_stringify_tracestate (d : TracestateData) : completion ustring :=
  Normal (JSON.stringify (properties d)).

(** ** The grammar of the header, as the specification words it

    Optional surrounding spaces and tabs; an optional trace id of 32 hex
    digits; an optional hyphen; an optional span id of 16 hex digits; an
    optional hyphen; an optional single digit 0 or 1.  The whole string
    has to be of this form. *)

Definition chars_in (A : ascii -> bool) (s : string) : bool :=
  forallb A (list_ascii_of_string s).

Definition hex_of_length (n : nat) (s : string) : Prop :=
  String.length s = n /\ chars_in hex_digit s = true.

Definition traceparent_grammar (header : string) : Prop :=
  exists ws1 trace_id h1 span_id h2 flag ws2 : string,
    header = ws1 ++ trace_id ++ h1 ++ span_id ++ h2 ++ flag ++ ws2 /\
    chars_in space_or_tab ws1 = true /\
    (trace_id = "" \/ hex_of_length 32 trace_id) /\
    (h1 = "" \/ h1 = "-") /\
    (span_id = "" \/ hex_of_length 16 span_id) /\
    (h2 = "" \/ h2 = "-") /\
    (flag = "" \/ flag = "0" \/ flag = "1") /\
    chars_in space_or_tab ws2 = true.

(** ** Vocabulary for the properties of the codecs *)

(** One run of the pattern on a header, from its start. *)
Definition match_header (header : string) : MatchResult :=
  compile (list_ascii_of_string header) TRACEPARENT_REGEXP
    {| rest := list_ascii_of_string header; captures := [None; None; None] |} Some.

(** The data read off the captures. *)
Definition data_of (cap : list (option (list ascii))) : TraceparentData :=
  let group k := option_map string_of_list_ascii (mjoin (cap !! k)) in
  {| traceId := group 0;
     parentSampled :=
       if capture_is (group 2) "1" then Some true
       else if capture_is (group 2) "0" then Some false
       else None;
     parentSpanId := group 1 |}.

(** The grammar on lists of characters. *)
Definition grammar_chars (input : list ascii) : Prop :=
  exists ws1 t h1 sp h2 f ws2 : list ascii,
    input = (ws1 ++ t ++ h1 ++ sp ++ h2 ++ f ++ ws2)%list /\
    forallb space_or_tab ws1 = true /\
    (t = [] \/ (length t = 32 /\ forallb hex_digit t = true)) /\
    (h1 = [] \/ exists a, h1 = [a] /\ hyphen a = true) /\
    (sp = [] \/ (length sp = 16 /\ forallb hex_digit sp = true)) /\
    (h2 = [] \/ exists a, h2 = [a] /\ hyphen a = true) /\
    (f = [] \/ exists a, f = [a] /\ zero_or_one a = true) /\
    forallb space_or_tab ws2 = true.

(** The data after the two assignments of [computeTracestateValue]. *)
Definition normalized (d : TracestateData) : TracestateData :=
  {| own_keys := assign_key Key_release (assign_key Key_environment (own_keys d));
     trace_id := trace_id d;
     environment := or_null (environment d);
     release := or_null (release d);
     public_key := public_key d |}.

(** What a reader of the header finds for [environment] and [release]:
    [null] ([None]) for a value that was undefined, null or the empty
    string, and the value itself otherwise. *)
Definition read_back (v : nullable_string) : option ustring :=
  match v with
  | IsString (u :: s) => Some (u :: s)
  | _ => None
  end.

(** The four keys, in the order of the declared type. *)
Definition declared_keys : list key :=
  [Key_trace_id; Key_environment; Key_release; Key_public_key].

(** What a reader finds for a key, in the object parsed from the header. *)
Definition read_value (k : key) (d : TracestateData) : option ustring :=
  match k with
  | Key_trace_id => Some (trace_id d)
  | Key_environment => read_back (environment d)
  | Key_release => read_back (release d)
  | Key_public_key => Some (public_key d)
  end.

(** Whether a string ends with a character. *)
Definition ends_with (c : ascii) (s : string) : bool :=
  match rev (list_ascii_of_string s) with
  | last :: _ => Ascii.eqb last c
  | [] => false
  end.

(** An object whose [environment] is undefined and whose [release] is the
    empty string. *)
Definition sparse_data : TracestateData :=
  {| own_keys := declared_keys;
     trace_id := of_string "4bf92f3577b34da6a3ce929d0e0e4736";
     environment := IsUndefined; release := IsString [];
     public_key := of_string "dogsarebadatkeepingsecrets" |}.

(** An object without the keys [environment] and [release]. *)
Definition minimal_data : TracestateData :=
  {| own_keys := [Key_public_key; Key_trace_id];
     trace_id := of_string "4bf92f3577b34da6a3ce929d0e0e4736";
     environment := IsUndefined; release := IsUndefined;
     public_key := of_string "dogsarebadatkeepingsecrets" |}.

(** The object of [sparse_data], its keys in the reverse order. *)
Definition reversed_data : TracestateData :=
  {| own_keys := rev declared_keys; trace_id := trace_id sparse_data;
     environment := environment sparse_data; release := release sparse_data;
     public_key := public_key sparse_data |}.

(** An object whose creator wrote [public_key] first and [trace_id] last.
    Its [environment] is [caf], U+00E9 (an e with an acute accent), a
    space and U+1F600 (a code point above the basic plane: two code
    units); its [release] is [v1.0] and the code unit 0xD800, a surrogate
    that is not half of a pair. *)
Definition shuffled_data : TracestateData :=
  {| own_keys := [Key_public_key; Key_release; Key_environment; Key_trace_id];
     trace_id := of_string "4bf92f3577b34da6a3ce929d0e0e4736";
     environment :=
       IsString (of_string "caf" ++ [CodeUnit "000" "233"; of_ascii " ";
                                     CodeUnit "216" "061"; CodeUnit "222" "000"])%list;
     release := IsString (of_string "v1.0" ++ [CodeUnit "216" "000"])%list;
     public_key := of_string "dogsarebadatkeepingsecrets" |}.

(** ** Vocabulary for the properties of the decoder and of the padding *)

(** The field of the result for a part of the header: [undefined] for a
    part that is absent, which is written as the empty string. *)
Definition field (s : string) : option string :=
  if String.eqb s "" then None else Some s.

(** The characters a header is made of: [[ \t]], [[0-9a-f]] and [-]. *)
Definition header_char (c : ascii) : bool :=
  space_or_tab c || hex_digit c || hyphen c.

(** A part of a header that is absent, or has [n] characters of the class
    [A]; [o] is what a group around it captures. *)
Definition part (A : ascii -> bool) (n : nat) (l : list ascii) (o : option (list ascii))
  : Prop :=
  (l = [] /\ o = None) \/ (length l = n /\ forallb A l = true /\ o = Some l).

Definition separator (h : list ascii) : Prop := h = [] \/ h = ["-"%char].

(** The text is [=] or [==]. *)
Definition only_padding (s : list ascii) : bool :=
  match s with
  | [a] => Ascii.eqb a padding
  | [a; b] => Ascii.eqb a padding && Ascii.eqb b padding
  | _ => false
  end.

(** A text does not end with [=]. *)
Definition ends_without_padding (s : list ascii) : Prop :=
  forall body, s <> (body ++ [padding])%list.

(** The search in any text: it finds the last [=] or the last two, at the
    end of the text, or nothing. *)

End Utils.

(* ===================================================================== *)
(** * hubextensions.ts: the sampling decision *)
(* ===================================================================== *)

Module HubExtensions.
Import JS Effects Effects.Notations Utils Types.

(** ** The logger *)

(** Modelled from the spec: [logger] of @sentry/utils is not under src/.
    Logging is a side effect only: a message is added to the output. *)
Inductive level : Type := LevelWarn | LevelLog.

(** The messages of this file, by their template. *)
Inductive message : Type :=
| InvalidRateType (got : option json) (type : type_tag)
    (* Given sample rate is invalid. Sample rate must be a boolean or a
       number between 0 and 1. Got ... of type ... *)
| InvalidRateRange (got : value)
    (* Given sample rate is invalid. Sample rate must be between 0 and 1. *)
| DiscardingInvalidRate
    (* Discarding transaction because of invalid sample rate. *)
| DiscardingSamplerZero
    (* Discarding transaction because tracesSampler returned 0 or false *)
| DiscardingInheritedOrZero
    (* Discarding transaction because a negative sampling decision was
       inherited or tracesSampleRate is set to 0 *)
| DiscardingNotSampled (rate : number)
    (* Discarding transaction because it's not included in the random
       sample (sampling rate = ...) *)
| Starting (op : option string) (name : string).
    (* starting ... transaction - ... *)

(** ** The state [sample] runs in

    The transaction it was given, the logger's output (latest first), and
    [Math.random]: the sequence of its draws and how many were taken. *)
Record World : Type := {
  transaction : Transaction;
  console : list (level * message);
  entropy : nat -> number;
  draws : nat;
}.

Definition with_transaction (f : Transaction -> Transaction) (w : World) : World :=
  {| transaction := f (transaction w); console := console w;
     entropy := entropy w; draws := draws w |}.

Definition logger (l : level) (m : message) : M World unit :=
  modify (fun w =>
    {| transaction := transaction w; console := (l, m) :: console w;
       entropy := entropy w; draws := draws w |}).

(** [Math.random()] *)
Definition Math_random : M World number :=
  fun w =>
    ({| transaction := transaction w; console := console w;
        entropy := entropy w; draws := S (draws w) |},
     Normal (entropy w (draws w))).

(** [transaction.sampled = b] *)
Definition set_sampled (b : bool) : M World unit :=
  modify (with_transaction (fun t =>
    {| name := name t; op := op t; sampled := Some b;
       metadata := metadata t; spanRecorder := spanRecorder t |})).

(** Modelled from the spec: [Transaction.setMetadata] is not under src/.
    It merges the given entries into the transaction's metadata; [sample]
    only ever gives it a [transactionSampling] entry. *)
Definition setMetadata (ts : TransactionSampling) : M World unit :=
  modify (with_transaction (fun t =>
    {| name := name t; op := op t; sampled := sampled t;
       metadata := {| transactionSampling := Some ts |};
       spanRecorder := spanRecorder t |})).

(** Modelled from the spec: [Transaction.initSpanRecorder] is not under
    src/.  It gives the transaction its span recorder; the maximum span
    count is passed through unchanged. *)
Definition initSpanRecorder (maxlen : value) : M World unit :=
  modify (with_transaction (fun t =>
    {| name := name t; op := op t; sampled := sampled t;
       metadata := metadata t; spanRecorder := Some maxlen |})).

(** [client?.options ?? {}] *)
Definition client_options (client : option Client) : Options :=
  match client with
  | Some c => options c
  | None => empty_options
  end.

(** [options._experiments?.maxSpans] *)
Definition experiments_maxSpans (options : Options) : value :=
  match _experiments options with
  | Some e => maxSpans e
  | None => undefined
  end.

(** [options.tracesSampleRate] *)
Definition read_tracesSampleRate (options : Options) : value :=
  match tracesSampleRate options with
  | Some v => v
  | None => undefined
  end.

(** ** [isValidSampleRate]

    Checks the given sample rate to make sure it is valid type and value (a
    boolean, or a number between 0 and 1). *)
Definition isValidSampleRate (rate : value) : M World bool :=
  do nan <- lift (isNaN rate);
  if nan || negb (type_tag_eqb (typeof rate) TNumber || type_tag_eqb (typeof rate) TBoolean)
  then
    do got <- lift (JSON_stringify rate);
    run logger LevelWarn (InvalidRateType got (typeof rate));
    ret false
  else
    do below <- lift (lessThan rate (num 0));
    do outside <- (if below then ret true else lift (lessThan (num 1) rate));
    if outside
    then
      run logger LevelWarn (InvalidRateRange rate);
      ret false
    else ret true.

(** ** [sample] *)

(** Lines 54-80: where the sample rate comes from.  The sampler if it is a
    function, else an inherited decision, else the configured rate. *)
Definition sampleRate (options : Options) (samplingContext : SamplingContext)
  : M World value :=
  match tracesSampler options with
  | Some (Some sampler) =>
      do r <- lift (sampler samplingContext);
      do n <- lift (Number r);
      run setMetadata {| method := Sampler; rate := Some n |};
      ret r
  | _ =>
      if negb (is_undefined (parentSampled samplingContext))
      then
        run setMetadata {| method := Inheritance; rate := None |};
        ret (parentSampled samplingContext)
      else
        do n <- lift (Number (read_tracesSampleRate options));
        run setMetadata {| method := Rate; rate := Some n |};
        ret (read_tracesSampleRate options)
  end.

(** Whether [typeof options.tracesSampler === 'function']. *)
Definition sampler_is_function (options : Options) : bool :=
  match tracesSampler options with
  | Some (Some _) => true
  | _ => false
  end.

(** [return transaction]: the transaction that was given, as it is now. *)
Definition return_transaction : M World Transaction :=
  do w <- get;
  ret (transaction w).

(** Lines 82-122: from the sample rate to the decision. *)
Definition decide (options : Options) (sampleRate : value) : M World Transaction :=
  (* who knows what we might get: the only valid values are booleans or
     numbers between 0 and 1 *)
  do valid <- isValidSampleRate sampleRate;
  if negb valid
  then
    run logger LevelWarn DiscardingInvalidRate;
    run set_sampled false;
    return_transaction
  (* 0 or false is a sign the transaction should be dropped *)
  else if negb (ToBoolean sampleRate)
  then
    run logger LevelLog
      (if sampler_is_function options then DiscardingSamplerZero
       else DiscardingInheritedOrZero);
    run set_sampled false;
    return_transaction
  else
    (* now we roll the dice *)
    do draw <- Math_random;
    do keep <- lift (lessThan (num draw) sampleRate);
    run set_sampled keep;
    (* if we're not going to keep it, we're done *)
    if negb keep
    then
      do n <- lift (Number sampleRate);
      run logger LevelLog (DiscardingNotSampled n);
      return_transaction
    else
      run initSpanRecorder (experiments_maxSpans options);
      do w <- get;
      run logger LevelLog (Starting (op (transaction w)) (name (transaction w)));
      return_transaction.

(** Makes a sampling decision for the given transaction and stores it on
    the transaction.  The transaction is a mutable object: it is the
    [transaction] of the state, and what the function returns. *)
Definition sample (hub : Hub) (samplingContext : SamplingContext)
  : M World Transaction :=
  let client := getClient hub in
  let options := client_options client in
  (* nothing to do if there's no client or if tracing is disabled *)
  if negb (has_key client) || negb (hasTracingEnabled options)
  then
    run set_sampled false;
    return_transaction
  else
    do w <- get;
    (* if the user has forced a sampling decision, go with that *)
    match sampled (transaction w) with
    | Some _ =>
        run setMetadata {| method := Explicit; rate := None |};
        return_transaction
    | None =>
        do r <- sampleRate options samplingContext;
        decide options r
    end.

(** ** The transaction factory *)

(** [object[key]] for an object written as the list of its properties. *)
Fixpoint property_of (object : list (string * value)) (key : string) : option value :=
  match object with
  | [] => None
  | (k, v) :: others => if String.eqb k key then Some v else property_of others key
  end.

(** The transaction under construction becomes the transaction of the
    state. *)
Definition construct (t : Transaction) : M World unit :=
  modify (fun w =>
    {| transaction := t; console := console w; entropy := entropy w; draws := draws w |}).

Section Factory.
(** [new Transaction(transactionContext, hub)] and
    [new IdleTransaction(transactionContext, hub, idleTimeout, onScope)]:
    the two classes are not under src/, and the objects they build are
    whatever these functions say. *)
Variable new_Transaction : TransactionContext -> Hub -> Transaction.
Variable new_IdleTransaction : TransactionContext -> Hub -> value -> value -> Transaction.
(** [transactionContext.parentSampled], a property of the construction
    context that [TransactionContext] above does not carry. *)
Variable context_parentSampled : TransactionContext -> value.

(** [{ parentSampled: transactionContext.parentSampled, transactionContext,
       ...customSamplingContext }]: the custom properties are spread last,
    and one named [parentSampled] replaces the inherited decision.  An
    absent [customSamplingContext] spreads nothing.  A custom property named
    [transactionContext] is kept among [custom], where a sampler sees it. *)
Definition sampling_context (transactionContext : TransactionContext)
    (customSamplingContext : option (list (string * value))) : SamplingContext :=
  let custom := default [] customSamplingContext in
  {| parentSampled :=
       match property_of custom "parentSampled" with
       | Some v => v
       | None => context_parentSampled transactionContext
       end;
     Types.transactionContext := transactionContext;
     custom := custom |}.

(** Creates a new transaction and adds a sampling decision if it doesn't
    yet have one. *)
Definition _startTransaction (this : Hub) (transactionContext : TransactionContext)
    (customSamplingContext : option (list (string * value))) : M World Transaction :=
  run construct (new_Transaction transactionContext this);
  sample this (sampling_context transactionContext customSamplingContext).

(** Create new idle transaction. *)
Definition startIdleTransaction (hub : Hub) (transactionContext : TransactionContext)
    (idleTimeout onScope : value) (customSamplingContext : option (list (string * value)))
  : M World Transaction :=
  run construct (new_IdleTransaction transactionContext hub idleTimeout onScope);
  sample hub (sampling_context transactionContext customSamplingContext).

End Factory.

(** ** The extension methods on the global carrier *)

(** What sits under a name in [carrier.__SENTRY__.extensions]: one of the
    two functions of this file, or whatever other code has put there. *)
Inductive extension : Type :=
| Fn_startTransaction            (* [_startTransaction] *)
| Fn_traceHeaders                (* [traceHeaders] *)
| Foreign (v : value).

(** [!!e]: a function is an object, and truthy. *)
Definition extension_truthy (e : extension) : bool :=
  match e with
  | Foreign v => ToBoolean v
  | _ => true
  end.

(** Modelled from the spec: the carrier of @sentry/hub is not under src/.
    [carrier.__SENTRY__] is absent or an object; its [extensions] is absent
    or an object from names to methods; [hub] stands for its other
    properties, which this code does not touch. *)
Record SentryGlobal : Type := {
  extensions : option (gmap string extension);
  hub : value;
}.

Record Carrier : Type := {
  __SENTRY__ : option SentryGlobal;
}.

(** [getMainCarrier] of @sentry/hub, which is not under src/ and of which
    the specification says nothing: it returns the global object, which is
    the state here, after
    [carrier.__SENTRY__ = carrier.__SENTRY__ || { extensions: {}, hub: undefined }]. *)
Definition getMainCarrier : M Carrier Carrier :=
  run modify (fun carrier =>
        match __SENTRY__ carrier with
        | Some _ => carrier
        | None => {| __SENTRY__ := Some {| extensions := Some ∅; hub := undefined |} |}
        end);
  get.

(** [carrier.__SENTRY__.extensions = extensions] *)
Definition set_extensions (exts : gmap string extension) : M Carrier unit :=
  modify (fun carrier =>
    match __SENTRY__ carrier with
    | Some g => {| __SENTRY__ := Some {| extensions := Some exts; hub := hub g |} |}
    | None => carrier
    end).

(** [carrier.__SENTRY__.extensions] once it is an object. *)
Definition get_extensions : M Carrier (gmap string extension) :=
  do carrier <- get;
  ret (default ∅ (__SENTRY__ carrier ≫= extensions)).

(** [!extensions[key]]: an absent property is [undefined]. *)
Definition missing (exts : gmap string extension) (key : string) : bool :=
  match exts !! key with
  | Some e => negb (extension_truthy e)
  | None => true
  end.

(** [_addTracingExtensions]: puts [startTransaction] and [traceHeaders]
    among the extensions of the main carrier, where they are not yet. *)
Definition _addTracingExtensions : M Carrier unit :=
  do carrier <- getMainCarrier;
  match __SENTRY__ carrier with
  | Some g =>
      (* extensions = extensions || {} *)
      run set_extensions (default ∅ (extensions g));
      do exts <- get_extensions;
      run (if missing exts "startTransaction"
           then set_extensions (<["startTransaction" := Fn_startTransaction]> exts)
           else ret tt);
      do exts <- get_extensions;
      if missing exts "traceHeaders"
      then set_extensions (<["traceHeaders" := Fn_traceHeaders]> exts)
      else ret tt
  | None => ret tt
  end.

(** ** Vocabulary for the properties of [sample] *)

(** The state after [transaction.setMetadata({ transactionSampling })]. *)
Definition recorded (ts : TransactionSampling) (w : World) : World :=
  fst (setMetadata ts w).

(** The state after [transaction.sampled = b]. *)
Definition decided (b : bool) (w : World) : World :=
  fst (set_sampled b w).

(** The warning for a number that is not a valid rate: [NaN] is reported
    as a value of the wrong type, printed [null]. *)
Definition invalid_number_warning (n : number) : message :=
  if is_nan n then InvalidRateType (Some JNull) TNumber else InvalidRateRange (num n).

(** ** Sample hubs, transactions and states *)

Definition fresh_transaction : Transaction :=
  {| name := "GET /users"; op := Some "http.server"; sampled := None;
     metadata := {| transactionSampling := None |}; spanRecorder := None |}.

Definition forced_transaction (b : bool) : Transaction :=
  {| name := "GET /users"; op := Some "http.server"; sampled := Some b;
     metadata := {| transactionSampling := None |}; spanRecorder := None |}.

(** Every draw of [Math.random] is one half. *)
Definition world_of (t : Transaction) : World :=
  {| transaction := t; console := []; entropy := fun _ => 0.5%float; draws := 0 |}.

Definition plain_context : SamplingContext :=
  {| parentSampled := undefined;
     transactionContext := {| ctx_name := "GET /users"; ctx_op := Some "http.server" |};
     custom := [] |}.

Definition hub_of (o : Options) : Hub := {| getClient := Some {| options := o |} |}.
Definition hub_without_client : Hub := {| getClient := None |}.

Definition options_with_sampler (result : completion value) : Options :=
  {| tracesSampleRate := None; tracesSampler := Some (Some (fun _ => result));
     _experiments := Some {| maxSpans := num 500%float |} |}.

Definition options_with_rate (r : value) : Options :=
  {| tracesSampleRate := Some r; tracesSampler := None; _experiments := None |}.

(** An object that refers to itself: as a number it is [NaN] (its string
    is not a numeric literal), and [JSON.stringify] throws on it. *)
Definition cyclic_object : object :=
  {| toPrimitive := Normal (PString "[object Object]" nan);
     toJSON := Throw (TypeError "Converting circular structure to JSON");
     callable := false |}.

End HubExtensions.

(* ********************************************************************* *)
(** * Properties *)
(* ********************************************************************* *)

(* ===================================================================== *)
(** * Effects and numbers *)
(* ===================================================================== *)

Module EffectsFacts.
Import JS Effects.

Lemma bind_normal {S A B} (m : M S A) (k : A -> M S B) (s s' : S) (a : A) :
  m s = (s', Normal a) -> bind m k s = k a s'.
Proof. intros H. unfold bind. now rewrite H. Qed.

Lemma bind_throw {S A B} (m : M S A) (k : A -> M S B) (s s' : S) (e : error) :
  m s = (s', Throw e) -> bind m k s = (s', Throw e).
Proof. intros H. unfold bind. now rewrite H. Qed.

End EffectsFacts.

Module FloatFacts.
Import JS.

Lemma SFcompare_antisym x y c :
  SFcompare x y = Some c -> SFcompare y x = Some (CompOpp c).
Proof.
  destruct x as [sx| sx | | sx mx ex], y as [sy | sy | | sy my ey]; simpl; try discriminate;
    repeat match goal with b : bool |- _ => destruct b end; simpl;
    intros [= <-]; try reflexivity.
  - rewrite (Z.compare_antisym ex ey). destruct (ex ?= ey)%Z; simpl; try reflexivity.
    rewrite Pos.compare_cont_antisym. simpl. now rewrite CompOpp_involutive.
  - rewrite (Z.compare_antisym ex ey). destruct (ex ?= ey)%Z; simpl; try reflexivity.
    now rewrite Pos.compare_cont_antisym.
Qed.

Lemma SFcompare_refl_not_nan f : f <> S754_nan -> SFcompare f f = Some Eq.
Proof.
  destruct f as [s | s | | s m e]; simpl; intros H; try congruence.
  - now destruct s.
  - rewrite Z.compare_refl. destruct s; simpl.
    + now rewrite Pos.compare_cont_refl.
    + now rewrite Pos.compare_cont_refl.
Qed.

Lemma is_nan_false (n : number) : is_nan n = false <-> Prim2SF n <> S754_nan.
Proof.
  unfold is_nan. rewrite FloatAxioms.eqb_spec. unfold SFeqb. split.
  - intros H E. rewrite E in H. discriminate.
  - intros H. now rewrite SFcompare_refl_not_nan.
Qed.

Lemma SFcompare_total x y :
  x <> S754_nan -> y <> S754_nan -> exists c, SFcompare x y = Some c.
Proof.
  destruct x, y; simpl; intros; try congruence; eauto.
Qed.

(** Away from [NaN], [x < y] is the negation of [y <= x]. *)
Lemma ltb_negb_leb (x y : number) :
  is_nan x = false -> is_nan y = false ->
  PrimFloat.ltb x y = negb (PrimFloat.leb y x).
Proof.
  rewrite !is_nan_false, ltb_spec, leb_spec. intros Hx Hy.
  destruct (SFcompare_total _ _ Hx Hy) as [c Hc].
  unfold SFltb, SFleb. rewrite Hc, (SFcompare_antisym _ _ _ Hc).
  now destruct c.
Qed.

(** [n <= m] is false as soon as one side is [NaN]. *)
Lemma leb_true_not_nan (x y : number) :
  PrimFloat.leb x y = true -> is_nan x = false /\ is_nan y = false.
Proof.
  rewrite leb_spec, !is_nan_false. unfold SFleb.
  destruct (Prim2SF x), (Prim2SF y); simpl; try discriminate; intros _; split; congruence.
Qed.

(** A number above zero is not zero, and not [NaN]. *)
Lemma ltb_zero_truthy (n : number) :
  PrimFloat.ltb 0 n = true ->
  PrimFloat.eqb n 0 = false /\ is_nan n = false /\ PrimFloat.leb 0 n = true.
Proof.
  intros H.
  assert (Hnan : is_nan n = false).
  { apply is_nan_false. intros E. rewrite ltb_spec, E in H. discriminate. }
  rewrite ltb_spec in H. rewrite FloatAxioms.eqb_spec, leb_spec.
  unfold SFltb, SFeqb, SFleb in *.
  destruct (SFcompare (Prim2SF 0) (Prim2SF n)) as [[]|] eqn:E; try discriminate.
  rewrite (SFcompare_antisym _ _ _ E). cbn. auto.
Qed.

(** The comparison of floats is transitive. *)
Lemma SFcompare_trans (x y z : spec_float) :
  SFcompare x y = Some Lt ->
  (SFcompare y z = Some Lt \/ SFcompare y z = Some Eq) ->
  SFcompare x z = Some Lt.
Proof.
  intros Hxy Hyz.
  destruct x as [sx|sx| |sx mx ex], y as [sy|sy| |sy my ey], z as [sz|sz| |sz mz ez];
    cbn in *; try discriminate;
    repeat match goal with s : bool |- _ => destruct s end;
    cbn in *; try discriminate; try reflexivity;
    try (destruct Hyz; discriminate).
  all: f_equal.
  all: injection Hxy as Hxy.
  all: assert (Hyz' : forall c', Some c' = Some Lt \/ Some c' = Some Eq -> c' = Lt \/ c' = Eq)
         by (intros c' [[= ->] | [= ->]]; auto).
  all: apply Hyz' in Hyz; clear Hyz'.
  all: change (Pos.compare_cont Eq ?a ?b) with (Pos.compare a b) in *.
  all: destruct (Z.compare_spec ex ey), (Z.compare_spec ey ez), (Z.compare_spec ex ez);
         subst; try lia; try discriminate; try reflexivity;
         try (destruct Hyz; discriminate).
  all: destruct (Pos.compare_spec mx my), (Pos.compare_spec my mz),
         (Pos.compare_spec mx mz);
         subst; cbn in *; try lia; try discriminate; try reflexivity;
         try (destruct Hyz; discriminate).
Qed.

Lemma ltb_leb_trans (x y z : number) :
  PrimFloat.ltb x y = true -> PrimFloat.leb y z = true -> PrimFloat.ltb x z = true.
Proof.
  rewrite !ltb_spec, leb_spec. unfold SFltb, SFleb. intros Hxy Hyz.
  destruct (SFcompare (Prim2SF x) (Prim2SF y)) as [[]|] eqn:E1; try discriminate.
  destruct (SFcompare (Prim2SF y) (Prim2SF z)) as [[]|] eqn:E2; try discriminate;
    now rewrite (SFcompare_trans _ _ _ E1 ltac:(eauto)).
Qed.

Lemma leb_trans (x y z : number) :
  PrimFloat.leb x y = true -> PrimFloat.leb y z = true -> PrimFloat.leb x z = true.
Proof.
  intros Hxy Hyz.
  destruct (leb_true_not_nan _ _ Hxy) as [Hx Hy], (leb_true_not_nan _ _ Hyz) as [_ Hz].
  destruct (PrimFloat.leb x z) eqn:E; [reflexivity|exfalso].
  assert (Hzx : PrimFloat.ltb z x = true)
    by (rewrite (ltb_negb_leb z x Hz Hx), E; reflexivity).
  pose proof (ltb_leb_trans _ _ _ Hzx Hxy) as Hzy.
  rewrite (ltb_negb_leb z y Hz Hy), Hyz in Hzy. discriminate.
Qed.

End FloatFacts.

Module TimeFacts.
Import JS FloatFacts Utils.

(** Rounding to nearest does not look at the sign. *)
Lemma binary_round_aux_opp (s : bool) (m e : Z) (l : location) :
  binary_round_aux prec emax (negb s) m e l = SFopp (binary_round_aux prec emax s m e l).
Proof.
  unfold binary_round_aux.
  destruct (shr_fexp prec emax m e l) as [mrs' e'].
  destruct (shr_fexp prec emax _ e' loc_Exact) as [mrs'' e''].
  destruct (shr_m mrs''); try reflexivity.
  now destruct (Z.leb e'' (emax - prec)).
Qed.

Lemma SFdiv_opp (x y : spec_float) :
  SFdiv prec emax (SFopp x) y = SFopp (SFdiv prec emax x y).
Proof.
  destruct x as [sx|sx| |sx mx ex], y as [sy|sy| |sy my ey]; cbn [SFdiv SFopp];
    rewrite <- ?negb_xorb_l; try reflexivity.
  destruct (SFdiv_core_binary prec emax (Z.pos mx) ex (Z.pos my) ey) as [[mz ez] lz].
  apply binary_round_aux_opp.
Qed.

Lemma SFmul_opp (x y : spec_float) :
  SFmul prec emax (SFopp x) y = SFopp (SFmul prec emax x y).
Proof.
  destruct x as [sx|sx| |sx mx ex], y as [sy|sy| |sy my ey]; cbn [SFmul SFopp];
    rewrite <- ?negb_xorb_l; try reflexivity.
  apply binary_round_aux_opp.
Qed.

Lemma is_nan_true (n : number) : is_nan n = true <-> Prim2SF n = S754_nan.
Proof.
  split.
  - intros H. destruct (Prim2SF n) eqn:E; try reflexivity;
      assert (is_nan n = false) by (apply is_nan_false; congruence); congruence.
  - intros E. destruct (is_nan n) eqn:H; [reflexivity|].
    now apply is_nan_false in H.
Qed.

(** X22: [msToSec] and [secToMs] commute with negation, give [NaN] for
    [NaN], a zero for a zero, and infinity for infinity. *)
Theorem msToSec_secToMs_special_values (time : number) :
  msToSec (- time) = (- msToSec time)%float /\
  secToMs (- time) = (- secToMs time)%float /\
  (is_nan time = true -> is_nan (msToSec time) = true /\ is_nan (secToMs time) = true) /\
  (PrimFloat.eqb time 0 = true ->
   PrimFloat.eqb (msToSec time) 0 = true /\ PrimFloat.eqb (secToMs time) 0 = true) /\
  msToSec infinity = infinity /\ secToMs infinity = infinity.
Proof.
  unfold msToSec, secToMs. repeat split.
  - apply Prim2SF_inj. rewrite div_spec, !opp_spec, div_spec. apply SFdiv_opp.
  - apply Prim2SF_inj. rewrite mul_spec, !opp_spec, mul_spec. apply SFmul_opp.
  - apply is_nan_true. apply is_nan_true in H. rewrite div_spec, H. reflexivity.
  - apply is_nan_true. apply is_nan_true in H. rewrite mul_spec, H. reflexivity.
  - rewrite FloatAxioms.eqb_spec in *. rewrite div_spec.
    change (Prim2SF 0) with (S754_zero false) in *.
    change (Prim2SF 1000) with (S754_finite false 8796093022208000 (-43)).
    destruct (Prim2SF time) as [s|s| |s m e]; try destruct s; try discriminate H;
      reflexivity.
  - rewrite FloatAxioms.eqb_spec in *. rewrite mul_spec.
    change (Prim2SF 0) with (S754_zero false) in *.
    change (Prim2SF 1000) with (S754_finite false 8796093022208000 (-43)).
    destruct (Prim2SF time) as [s|s| |s m e]; try destruct s; try discriminate H;
      reflexivity.
Qed.

End TimeFacts.

(* ===================================================================== *)
(** * The matcher *)
(* ===================================================================== *)

Module RegExpFacts.
Import RegExp.

(** ** Unfolding [RepeatMatcher] *)

Lemma RepeatMatcher_done fuel m min ps x c :
  RepeatMatcher fuel m min (Some 0) ps x c = c x.
Proof. destruct fuel; reflexivity. Qed.

Lemma RepeatMatcher_round fuel m min max ps x c :
  max <> Some 0 ->
  RepeatMatcher (S fuel) m min max ps x c
  = let d : MatcherContinuation := fun y =>
      if Nat.eqb min 0 && Nat.eqb (length (rest y)) (length (rest x)) then None
      else RepeatMatcher fuel m (pred min) (option_map pred max) ps y c in
    let xr := {| rest := rest x; captures := reset_captures ps (captures x) |} in
    if negb (Nat.eqb min 0) then m xr d
    else match m xr d with
         | Some z => Some z
         | None => c x
         end.
Proof. destruct max as [[|k]|]; [congruence| |]; reflexivity. Qed.

(** ** The matcher finds every match *)

Section Semantics.
Variable Input : list ascii.

Lemma rounds_shrinking R min max s s' :
  shrinking R -> rounds R min max s s' -> length s' <= length s.
Proof.
  intros HR H. induction H as [|min max s s1 s' _ H1 _ _ IH]; [lia|].
  apply HR in H1. lia.
Qed.

Lemma steps_shrinking r : shrinking (steps Input r).
Proof.
  induction r as [|A|r1 IH1 r2 IH2|i r IH|r IH min max| |]; intros s s'; cbn.
  - intros ->. lia.
  - intros (a & -> & _). cbn. lia.
  - intros (s1 & H1 & H2). apply IH1 in H1. apply IH2 in H2. lia.
  - apply IH.
  - now apply rounds_shrinking.
  - intros [-> _]. lia.
  - intros [-> _]. lia.
Qed.

Lemma blind_below_le n n' c : n' <= n -> blind_below n c -> blind_below n' c.
Proof. intros Hle H s cap cap' Hs. apply H. lia. Qed.

Lemma matcher_spec_blind m R n c :
  matcher_spec m R -> shrinking R -> blind_below n c ->
  blind_below n (fun y => m y c).
Proof.
  intros Hm HR Hc s cap cap' Hs. cbn beta.
  assert (Hb : blind_below (length s) c) by (eapply blind_below_le; eauto).
  pose proof (Hm {| rest := s; captures := cap |} c Hb) as H1.
  pose proof (Hm {| rest := s; captures := cap' |} c Hb) as H2.
  cbn in H1, H2. rewrite H1, H2.
  split; intros (s' & H & Hs'); exists s'; (split; [exact H|]);
    (eapply Hc; [|exact Hs']); apply HR in H; lia.
Qed.

Lemma RepeatMatcher_spec m R ps :
  matcher_spec m R -> shrinking R ->
  forall fuel min max x c,
    min + length (rest x) < fuel ->
    blind_below (length (rest x)) c ->
    is_Some (RepeatMatcher fuel m min max ps x c)
    <-> exists s', rounds R min max (rest x) s'
                   /\ is_Some (c {| rest := s'; captures := captures x |}).
Proof.
  intros Hm HR. induction fuel as [|fuel IH]; intros min max x c Hfuel Hc; [lia|].
  destruct (decide (max = Some 0)) as [->|Hmax].
  { rewrite RepeatMatcher_done. destruct x as [s cap]; cbn. split.
    - intros H. exists s. split; [constructor; auto|exact H].
    - intros (s' & H & Hs'). inversion H; subst; [exact Hs'|congruence]. }
  rewrite RepeatMatcher_round by exact Hmax. cbn zeta.
  match goal with |- context [m _ ?k] => set (d := k) end.
  (* what [d] does on the inputs [m] can reach *)
  assert (Hd : forall s1 cap, length s1 <= length (rest x) ->
            is_Some (d {| rest := s1; captures := cap |})
            <-> (min = 0 -> length s1 <> length (rest x))
                /\ exists s', rounds R (pred min) (option_map pred max) s1 s'
                              /\ is_Some (c {| rest := s'; captures := captures x |})).
  { intros s1 cap Hs1.
    assert (Hrec : (min = 0 -> length s1 <> length (rest x)) ->
              is_Some (RepeatMatcher fuel m (pred min) (option_map pred max) ps
                         {| rest := s1; captures := cap |} c)
              <-> exists s', rounds R (pred min) (option_map pred max) s1 s'
                             /\ is_Some (c {| rest := s'; captures := captures x |})).
    { intros Hne.
      assert (Hf : pred min + length s1 < fuel) by (destruct min; cbn in *; lia).
      assert (Hb : blind_below (length s1) c) by (eapply blind_below_le; eauto).
      pose proof (IH (pred min) (option_map pred max)
                    {| rest := s1; captures := cap |} c Hf Hb) as H.
      cbn in H. rewrite H.
      split; intros (s' & Hr & Hs'); exists s'; (split; [exact Hr|]);
        (eapply Hc; [|exact Hs']); apply rounds_shrinking in Hr; auto; lia. }
    unfold d. cbn [rest].
    destruct (Nat.eqb_spec min 0) as [Hmin|Hmin]; cbn [andb].
    - destruct (Nat.eqb_spec (length s1) (length (rest x))) as [Hlen|Hlen].
      + split; [intros H; now apply is_Some_None in H|intros [H _]; now destruct H].
      + rewrite Hrec by auto. tauto.
    - rewrite Hrec by (intros; lia). split; [intros H; split; [intros; lia|exact H]|tauto]. }
  assert (Hblind : blind_below (length (rest x)) d).
  { intros s1 cap cap' Hs1. now rewrite !Hd. }
  pose proof (Hm {| rest := rest x; captures := reset_captures ps (captures x) |} d Hblind)
    as Hround.
  cbn [rest captures] in Hround.
  (* one more round, then the rest *)
  assert (Hmore : is_Some (m {| rest := rest x;
                                 captures := reset_captures ps (captures x) |} d)
                  <-> exists s1 s', R (rest x) s1
                        /\ (min = 0 -> length s1 <> length (rest x))
                        /\ rounds R (pred min) (option_map pred max) s1 s'
                        /\ is_Some (c {| rest := s'; captures := captures x |})).
  { rewrite Hround. split.
    - intros (s1 & H1 & Hs1). apply Hd in Hs1; [|now apply HR].
      destruct Hs1 as [Hne (s' & Hr & Hs')]. eauto 10.
    - intros (s1 & s' & H1 & Hne & Hr & Hs'). exists s1. split; [exact H1|].
      apply Hd; [now apply HR|]. eauto. }
  destruct (m {| rest := rest x; captures := reset_captures ps (captures x) |} d)
    as [z|] eqn:Hz.
  - (* the round succeeds: its result is the result *)
    destruct (proj1 Hmore (mk_is_Some _ _ eq_refl)) as (s1 & s' & H1 & Hne & Hr & Hs').
    assert (Hex : exists s', rounds R min max (rest x) s'
                             /\ is_Some (c {| rest := s'; captures := captures x |})).
    { exists s'. split; [|exact Hs']. eapply rounds_more; eauto. }
    destruct (negb (Nat.eqb min 0)); (split; [intros _; exact Hex|intros _; eexists; reflexivity]).
  - (* the round fails: stop here if [min] allows *)
    assert (Hno : forall s1 s', R (rest x) s1 ->
              (min = 0 -> length s1 <> length (rest x)) ->
              rounds R (pred min) (option_map pred max) s1 s' ->
              is_Some (c {| rest := s'; captures := captures x |}) -> False).
    { intros s1 s' H1 Hne Hr Hs'. eapply is_Some_None. apply Hmore. eauto 10. }
    destruct (Nat.eqb_spec min 0) as [Hmin|Hmin]; cbn [negb].
    + destruct x as [s cap]; cbn in *. split.
      * intros H. exists s. split; [constructor; auto|exact H].
      * intros (s' & H & Hs'). inversion H; subst; [exact Hs'|].
        exfalso. eauto.
    + split; [intros H; now apply is_Some_None in H|].
      intros (s' & H & Hs'). inversion H; subst; [intuition congruence|].
      exfalso. eauto.
Qed.

(** The matcher of a pattern succeeds exactly on what the pattern
    matches: the backtracking search misses nothing, and the fuel of
    [RepeatMatcher] never runs out. *)
Theorem compile_spec r : matcher_spec (compile Input r) (steps Input r).
Proof.
  induction r as [|A|r1 IH1 r2 IH2|i r IH|r IH min max| |]; intros x c Hc;
    [cbn..|idtac|cbn|cbn].
  - destruct x as [s cap]; cbn. split; [eauto|intros (s' & -> & H); exact H].
  - unfold CharacterSetMatcher. destruct x as [[|a s] cap]; cbn.
    + split; [intros H; now apply is_Some_None in H|intros (s' & (a & Ha & _) & _); discriminate].
    + destruct (A a) eqn:Ha.
      * split; [intros H; eauto 10|].
        intros (s' & (a' & Heq & _) & Hs'). injection Heq as <- <-. exact Hs'.
      * split; [intros H; now apply is_Some_None in H|].
        intros (s' & (a' & Heq & Ha') & _). injection Heq as <- <-. congruence.
  - pose proof (matcher_spec_blind _ _ _ c IH2 (steps_shrinking r2) Hc) as Hb.
    rewrite (IH1 x _ Hb). split.
    + intros (s1 & H1 & Hs1). cbn beta in Hs1.
      apply IH2 in Hs1; [|cbn; eapply blind_below_le; [|exact Hc]; now apply steps_shrinking in H1].
      destruct Hs1 as (s' & H2 & Hs'). cbn in *. eauto 10.
    + intros (s' & (s1 & H1 & H2) & Hs'). exists s1. split; [exact H1|]. cbn beta.
      apply IH2; [cbn; eapply blind_below_le; [|exact Hc]; now apply steps_shrinking in H1|].
      cbn. eauto.
  - set (c' := fun y : MatchState => c _).
    assert (Hb : blind_below (length (rest x)) c').
    { intros s cap cap' Hs. unfold c'. cbn. now apply Hc. }
    rewrite (IH x c' Hb). unfold c'. cbn.
    split; intros (s' & H & Hs'); exists s'; (split; [exact H|]);
      (eapply Hc; [|exact Hs']); apply steps_shrinking in H; lia.
  - apply (RepeatMatcher_spec (compile Input r) (steps Input r) (parens r) IH
             (steps_shrinking r) (S (min + length (rest x))) min max x c); [lia|exact Hc].
  - destruct x as [s cap]; cbn. destruct (Nat.eqb_spec (length s) (length Input)).
    + split; [eauto|intros (s' & [-> _] & H); exact H].
    + split; [intros H; now apply is_Some_None in H|intros (s' & [-> ?] & _); lia].
  - destruct x as [[|a s] cap]; cbn.
    + split; [eauto|intros (s' & [-> _] & H); exact H].
    + split; [intros H; now apply is_Some_None in H|intros (s' & [-> ?] & _); discriminate].
Qed.
End Semantics.
End RegExpFacts.

Module RegExpEval.
Import RegExp RegExpFacts.

(** ** The greedy path

    Where the longest run of a class is followed by something the rest of
    the pattern accepts, that is the match the engine returns. *)

Lemma CharacterSetMatcher_in A a s cap c :
  A a = true ->
  CharacterSetMatcher A {| rest := a :: s; captures := cap |} c
  = c {| rest := s; captures := cap |}.
Proof. intros H. unfold CharacterSetMatcher; cbn. now rewrite H. Qed.

Lemma CharacterSetMatcher_stops A s cap c :
  stops_at A s -> CharacterSetMatcher A {| rest := s; captures := cap |} c = None.
Proof.
  intros H. unfold CharacterSetMatcher; cbn. destruct s as [|a s]; [reflexivity|].
  cbn in H. now rewrite H.
Qed.

Lemma RepeatMatcher_class_greedy A c res :
  forall w min max fuel s cap,
    forallb A w = true ->
    min <= length w ->
    (forall k, max = Some k -> length w <= k) ->
    max = Some (length w) \/ stops_at A s ->
    min + length (w ++ s) < fuel ->
    c {| rest := s; captures := cap |} = Some res ->
    RepeatMatcher fuel (CharacterSetMatcher A) min max []
      {| rest := w ++ s; captures := cap |} c = Some res.
Proof.
  induction w as [|a w IH]; intros min max fuel s cap Hw Hmin Hmax Hstop Hfuel Hc.
  - cbn in *. assert (min = 0) as -> by lia.
    destruct (decide (max = Some 0)) as [->|Hne]; [now rewrite RepeatMatcher_done|].
    destruct fuel as [|fuel]; [lia|]. rewrite RepeatMatcher_round by exact Hne.
    cbn -[CharacterSetMatcher]. destruct Hstop as [->|Hstop]; [congruence|].
    now rewrite CharacterSetMatcher_stops.
  - cbn in Hw. apply andb_true_iff in Hw as [Ha Hw]. cbn [length] in *.
    assert (Hne : max <> Some 0) by (intros ->; specialize (Hmax 0 eq_refl); lia).
    destruct fuel as [|fuel]; [lia|]. rewrite RepeatMatcher_round by exact Hne.
    cbn -[RepeatMatcher CharacterSetMatcher].
    rewrite CharacterSetMatcher_in by exact Ha. cbn -[RepeatMatcher CharacterSetMatcher].
    replace (Nat.eqb (length (w ++ s)) (S (length (w ++ s)))) with false
      by (symmetry; apply Nat.eqb_neq; lia).
    rewrite andb_false_r.
    rewrite (IH (pred min) (option_map pred max) fuel s cap); auto.
    + now destruct (negb (Nat.eqb min 0)).
    + lia.
    + intros k Hk. destruct max as [[|k']|]; cbn in Hk; try congruence.
      injection Hk as <-. specialize (Hmax (S k') eq_refl). lia.
    + destruct Hstop as [->|Hstop]; [left; reflexivity|now right].
    + cbn in Hfuel. lia.
Qed.

Lemma stops_at_app A (p q : list ascii) :
  stops_at A p -> stops_at A q -> stops_at A (p ++ q)%list.
Proof. destruct p; cbn; auto. Qed.

Lemma stops_at_nonempty A (p q : list ascii) :
  p <> [] -> stops_at A p -> stops_at A (p ++ q)%list.
Proof. destruct p; [congruence|auto]. Qed.

Lemma RepeatMatcher_class_short A c :
  forall w min max fuel s cap,
    forallb A w = true ->
    length w < min ->
    (forall k, max = Some k -> min <= k) ->
    stops_at A s ->
    RepeatMatcher fuel (CharacterSetMatcher A) min max []
      {| rest := w ++ s; captures := cap |} c = None.
Proof.
  induction w as [|a w IH]; intros min max fuel s cap Hw Hmin Hmax Hstop;
    cbn [length] in Hmin.
  - assert (Hne : max <> Some 0) by (intros ->; specialize (Hmax 0 eq_refl); lia).
    destruct fuel as [|fuel]; [now destruct max as [[|?]|]|].
    rewrite RepeatMatcher_round by exact Hne. cbn -[CharacterSetMatcher].
    destruct min; [lia|]. cbn -[CharacterSetMatcher].
    now apply CharacterSetMatcher_stops.
  - cbn in Hw. apply andb_true_iff in Hw as [Ha Hw].
    assert (Hne : max <> Some 0) by (intros ->; specialize (Hmax 0 eq_refl); lia).
    destruct fuel as [|fuel]; [now destruct max as [[|?]|]|].
    rewrite RepeatMatcher_round by exact Hne.
    destruct min as [|min]; [lia|].
    cbn -[RepeatMatcher CharacterSetMatcher].
    rewrite CharacterSetMatcher_in by exact Ha. cbn -[RepeatMatcher CharacterSetMatcher].
    apply IH; auto; [lia|].
    intros k Hk. destruct max as [[|k']|]; cbn in Hk; try congruence.
    injection Hk as <-. specialize (Hmax (S k') eq_refl). lia.
Qed.

(** A run of a class calls what follows it only after a run of an allowed
    length. *)
Lemma RepeatMatcher_class_none A c :
  forall fuel min max s cap,
    (forall k, max = Some k -> min <= k) ->
    (forall w s', s = (w ++ s')%list -> forallb A w = true -> min <= length w ->
                  (forall k, max = Some k -> length w <= k) ->
                  c {| rest := s'; captures := cap |} = None) ->
    RepeatMatcher fuel (CharacterSetMatcher A) min max []
      {| rest := s; captures := cap |} c = None.
Proof.
  induction fuel as [|fuel IH]; intros min max s cap Hmax Hc.
  - destruct max as [[|k]|]; try reflexivity. cbn.
    apply (Hc [] s);
      [reflexivity|reflexivity|specialize (Hmax 0 eq_refl); cbn; lia|intros; cbn; lia].
  - destruct (decide (max = Some 0)) as [-> | Hne].
    + rewrite RepeatMatcher_done.
      apply (Hc [] s);
        [reflexivity|reflexivity|specialize (Hmax 0 eq_refl); cbn; lia|intros; cbn; lia].
    + rewrite RepeatMatcher_round by exact Hne. cbn zeta. cbn [rest captures reset_captures foldr].
      assert (Hround : CharacterSetMatcher A {| rest := s; captures := cap |}
                (fun y =>
                   if Nat.eqb min 0 && Nat.eqb (length (rest y)) (length s) then None
                   else RepeatMatcher fuel (CharacterSetMatcher A) (pred min)
                          (option_map pred max) [] y c) = None).
      { unfold CharacterSetMatcher at 1. cbn [rest captures].
        destruct s as [|a tl]; [reflexivity|].
        destruct (A a) eqn:Ha; [|reflexivity].
        destruct (Nat.eqb min 0 && Nat.eqb (length tl) (length (a :: tl))); [reflexivity|].
        apply IH.
        - intros k Hk. destruct max as [[|k']|]; cbn in Hk; try congruence.
          injection Hk as <-. specialize (Hmax (S k') eq_refl). lia.
        - intros w s' -> Hw Hmin Hlen. apply (Hc (a :: w) s'); cbn; auto.
          + now rewrite Ha, Hw.
          + lia.
          + intros k ->. specialize (Hlen (pred k) eq_refl).
            specialize (Hmax k eq_refl). destruct k; [congruence|cbn in Hlen; lia]. }
      rewrite Hround.
      destruct (negb (Nat.eqb min 0)) eqn:Hmin; [reflexivity|].
      apply negb_false_iff, Nat.eqb_eq in Hmin as ->.
      apply (Hc [] s); [reflexivity|reflexivity|cbn; lia|intros; cbn; lia].
Qed.

Section Eval.
Variable Input : list ascii.

Lemma compile_Seq_eq r1 r2 x c :
  compile Input (Seq r1 r2) x c = compile Input r1 x (fun y => compile Input r2 y c).
Proof. reflexivity. Qed.

Lemma class_greedy A min max w s cap c res :
  forallb A w = true ->
  min <= length w ->
  (forall k, max = Some k -> length w <= k) ->
  max = Some (length w) \/ stops_at A s ->
  c {| rest := s; captures := cap |} = Some res ->
  compile Input (Quantified (Char A) min max) {| rest := w ++ s; captures := cap |} c
  = Some res.
Proof.
  intros. cbn [compile rest parens].
  apply RepeatMatcher_class_greedy; auto.
Qed.

(** A run that cannot start when at least one character is asked for. *)
Lemma class_fail A min max s cap c :
  0 < min -> max <> Some 0 -> stops_at A s ->
  compile Input (Quantified (Char A) min max) {| rest := s; captures := cap |} c = None.
Proof.
  intros Hmin Hmax Hstop. cbn [compile rest parens].
  rewrite RepeatMatcher_round by exact Hmax. cbn.
  destruct min; [lia|]. cbn -[CharacterSetMatcher].
  now apply CharacterSetMatcher_stops.
Qed.

(** [r?] tries [r] once, and goes on without it if that fails. *)
Lemma Optional_unfold r x c :
  compile Input (Optional r) x c
  = match compile Input r
            {| rest := rest x; captures := reset_captures (parens r) (captures x) |}
            (fun y =>
               if Nat.eqb (length (rest y)) (length (rest x)) then None
               else RepeatMatcher (length (rest x)) (compile Input r) 0 (Some 0)
                      (parens r) y c) with
    | Some z => Some z
    | None => c x
    end.
Proof. reflexivity. Qed.

Lemma Optional_taken r x c res :
  compile Input r
    {| rest := rest x; captures := reset_captures (parens r) (captures x) |}
    (fun y =>
       if Nat.eqb (length (rest y)) (length (rest x)) then None
       else RepeatMatcher (length (rest x)) (compile Input r) 0 (Some 0)
              (parens r) y c) = Some res ->
  compile Input (Optional r) x c = Some res.
Proof. intros H. now rewrite Optional_unfold, H. Qed.

Lemma Optional_skipped r x c :
  (forall d, compile Input r
     {| rest := rest x; captures := reset_captures (parens r) (captures x) |} d = None) ->
  compile Input (Optional r) x c = c x.
Proof. intros H. now rewrite Optional_unfold, H. Qed.

(** A group around a run of a class that is all there: the run is
    captured. *)
Lemma Optional_group_run_taken i A n w s cap c res :
  0 < n -> length w = n -> forallb A w = true ->
  c {| rest := s; captures := <[i := Some w]> (<[i := None]> cap) |} = Some res ->
  compile Input (Optional (Group i (Times n (Char A)))) {| rest := w ++ s; captures := cap |} c
  = Some res.
Proof.
  intros Hn Hlen Hw Hc. apply Optional_taken. cbn [rest captures parens Times app].
  cbn [compile]. fold (compile Input (Quantified (Char A) n (Some n))).
  apply class_greedy;
    [exact Hw|lia|intros k [= <-]; lia|left; now rewrite Hlen|].
  cbn [rest captures].
  replace (Nat.eqb (length s) (length (w ++ s))) with false
    by (symmetry; apply Nat.eqb_neq; rewrite length_app; lia).
  rewrite RepeatMatcher_done. cbn [rest captures reset_captures foldr].
  replace (length (w ++ s) - length s) with (length w) by (rewrite length_app; lia).
  now rewrite take_app_length.
Qed.

Lemma Optional_group_run_skipped i A n s cap c :
  0 < n -> stops_at A s ->
  compile Input (Optional (Group i (Times n (Char A)))) {| rest := s; captures := cap |} c
  = c {| rest := s; captures := cap |}.
Proof.
  intros Hn Hstop. apply Optional_skipped. intros d. cbn [rest captures parens Times app].
  cbn [compile]. fold (compile Input (Quantified (Char A) n (Some n))).
  apply class_fail; auto. intros [= ->]. lia.
Qed.

Lemma Optional_group_char_taken i A a s cap c res :
  A a = true ->
  c {| rest := s; captures := <[i := Some [a]]> (<[i := None]> cap) |} = Some res ->
  compile Input (Optional (Group i (Char A))) {| rest := a :: s; captures := cap |} c
  = Some res.
Proof.
  intros Ha Hc. apply Optional_taken. cbn -[RepeatMatcher Nat.sub CharacterSetMatcher].
  rewrite CharacterSetMatcher_in by exact Ha. cbn -[RepeatMatcher Nat.sub].
  replace (Nat.eqb (length s) (S (length s))) with false
    by (symmetry; apply Nat.eqb_neq; lia).
  rewrite RepeatMatcher_done. cbn -[Nat.sub].
  replace (S (length s) - length s) with 1 by lia. exact Hc.
Qed.

Lemma Optional_group_char_skipped i A s cap c :
  stops_at A s ->
  compile Input (Optional (Group i (Char A))) {| rest := s; captures := cap |} c
  = c {| rest := s; captures := cap |}.
Proof.
  intros Hstop. apply Optional_skipped. intros d. cbn -[CharacterSetMatcher].
  now apply CharacterSetMatcher_stops.
Qed.

Lemma Optional_char_taken A a s cap c res :
  A a = true ->
  c {| rest := s; captures := cap |} = Some res ->
  compile Input (Optional (Char A)) {| rest := a :: s; captures := cap |} c = Some res.
Proof.
  intros Ha Hc. apply (class_greedy A 0 (Some 1) [a] s); cbn; auto.
  - now rewrite Ha.
  - intros k [= <-]. lia.
Qed.

Lemma Optional_char_skipped A s cap c res :
  stops_at A s ->
  c {| rest := s; captures := cap |} = Some res ->
  compile Input (Optional (Char A)) {| rest := s; captures := cap |} c = Some res.
Proof.
  intros Hstop Hc. apply (class_greedy A 0 (Some 1) [] s); cbn; auto.
  intros k [= <-]. lia.
Qed.

Lemma Star_class_greedy A w s cap c res :
  forallb A w = true -> stops_at A s ->
  c {| rest := s; captures := cap |} = Some res ->
  compile Input (Star (Char A)) {| rest := w ++ s; captures := cap |} c = Some res.
Proof.
  intros Hw Hstop Hc. apply class_greedy; auto; [lia|discriminate].
Qed.

(** A group around a run that is too short: the run is given back. *)
Lemma Optional_group_run_short i A n w s cap c :
  forallb A w = true -> length w < n -> stops_at A s ->
  compile Input (Optional (Group i (Times n (Char A))))
    {| rest := w ++ s; captures := cap |} c
  = c {| rest := w ++ s; captures := cap |}.
Proof.
  intros Hw Hlen Hstop. apply Optional_skipped. intros d.
  cbn [rest captures parens Times app]. cbn [compile rest].
  apply RepeatMatcher_class_short; auto.
  intros k [= <-]. lia.
Qed.

End Eval.
End RegExpEval.

Module StringFacts.

Lemma list_ascii_of_string_app (a b : string) :
  list_ascii_of_string (a ++ b) = (list_ascii_of_string a ++ list_ascii_of_string b)%list.
Proof. induction a as [|c a IH]; simpl; [reflexivity|now rewrite IH]. Qed.

Lemma string_of_list_ascii_app (a b : list ascii) :
  string_of_list_ascii (a ++ b)%list = string_of_list_ascii a ++ string_of_list_ascii b.
Proof. induction a as [|c a IH]; simpl; [reflexivity|now rewrite IH]. Qed.

Lemma length_list_ascii_of_string (s : string) :
  length (list_ascii_of_string s) = String.length s.
Proof. induction s as [|c s IH]; cbn; [reflexivity|now rewrite IH]. Qed.

Lemma length_string_of_list_ascii (l : list ascii) :
  String.length (string_of_list_ascii l) = length l.
Proof. induction l as [|c l IH]; cbn; [reflexivity|now rewrite IH]. Qed.

End StringFacts.

Module RegExpSteps.
Import RegExp RegExpFacts.

(** ** What the quantifiers of the two patterns match *)

Section Steps.
Variable Input : list ascii.

Lemma rounds_star_class A s s' :
  rounds (steps Input (Char A)) 0 None s s'
  <-> exists w, s = (w ++ s')%list /\ forallb A w = true.
Proof.
  split.
  - remember 0 as min eqn:Hmin. remember (@None nat) as max eqn:Hmax.
    intros H. induction H as [min max s _|min max s s1 s' _ (a & -> & Ha) _ _ IH]; subst.
    + now exists [].
    + destruct (IH eq_refl eq_refl) as (w & -> & Hw).
      exists (a :: w). cbn. now rewrite Ha, Hw.
  - intros (w & -> & Hw). induction w as [|a w IH]; cbn in *.
    + constructor. now left.
    + apply andb_true_iff in Hw as [Ha Hw].
      apply rounds_more with (s1 := (w ++ s')%list);
        [discriminate|cbn; eauto|intros _; cbn; lia|cbn; now apply IH].
Qed.

Lemma rounds_times_class A n s s' :
  rounds (steps Input (Char A)) n (Some n) s s'
  <-> exists w, s = (w ++ s')%list /\ length w = n /\ forallb A w = true.
Proof.
  split.
  - revert s. induction n as [|n IH]; intros s H.
    + inversion H; subst; [now exists []|congruence].
    + inversion H as [? ? ? [?|?]|? ? ? s1 ? _ (a & -> & Ha) _ Hr]; subst;
        try discriminate.
      cbn in Hr. destruct (IH _ Hr) as (w & -> & Hlen & Hw).
      exists (a :: w). cbn. now rewrite Ha, Hw, Hlen.
  - intros (w & -> & <- & Hw). induction w as [|a w IH]; cbn in *.
    + constructor. now left.
    + apply andb_true_iff in Hw as [Ha Hw].
      apply rounds_more with (s1 := (w ++ s')%list);
        [discriminate|cbn; eauto|intros; discriminate|cbn; now apply IH].
Qed.

Lemma rounds_optional R s s' :
  rounds R 0 (Some 1) s s' <-> s' = s \/ (R s s' /\ length s' <> length s).
Proof.
  split.
  - intros H. inversion H as [|? ? ? s1 ? _ H1 Hne Hr]; subst; [now left|].
    cbn in Hr. inversion Hr; subst; [|congruence]. right. auto.
  - intros [->|[H Hne]]; [constructor; now left|].
    apply rounds_more with (s1 := s');
      [discriminate|exact H|intros _; exact Hne|cbn; constructor; now right].
Qed.

Lemma steps_optional_run i A n s s' :
  0 < n ->
  steps Input (Optional (Group i (Times n (Char A)))) s s'
  <-> exists w, s = (w ++ s')%list
                /\ (w = [] \/ (length w = n /\ forallb A w = true)).
Proof.
  intros Hn. cbn [steps Optional Times]. rewrite rounds_optional.
  split.
  - intros [->|[H _]]; [exists []; auto|].
    apply (proj1 (rounds_times_class A n s s')) in H.
    destruct H as (w & -> & Hlen & Hw). exists w; auto.
  - intros (w & -> & [->|[Hlen Hw]]); [now left|right].
    split; [|rewrite length_app; lia].
    apply (proj2 (rounds_times_class A n _ s')). eauto.
Qed.

Lemma steps_optional_char A s s' :
  steps Input (Optional (Char A)) s s'
  <-> exists w, s = (w ++ s')%list /\ (w = [] \/ exists a, w = [a] /\ A a = true).
Proof.
  cbn [steps Optional]. rewrite rounds_optional. split.
  - intros [->|[(a & -> & Ha) _]]; [exists []|exists [a]]; eauto.
  - intros (w & -> & [->|(a & -> & Ha)]); [now left|right].
    split; [eauto|]. cbn. lia.
Qed.

Lemma steps_optional_group_char i A s s' :
  steps Input (Optional (Group i (Char A))) s s'
  <-> exists w, s = (w ++ s')%list /\ (w = [] \/ exists a, w = [a] /\ A a = true).
Proof. apply steps_optional_char. Qed.

Lemma steps_star_class A s s' :
  steps Input (Star (Char A)) s s'
  <-> exists w, s = (w ++ s')%list /\ forallb A w = true.
Proof. apply rounds_star_class. Qed.

End Steps.

(** ** Searching with an anchored pattern *)

Lemma search_anchored_later Input r suffix k :
  length suffix < length Input ->
  search Input (Seq InputStart r) k suffix = None.
Proof.
  revert k. induction suffix as [|a suffix IH]; intros k Hlen;
    cbn [search compile rest].
  - replace (Nat.eqb (length []) (length Input)) with false
      by (symmetry; apply Nat.eqb_neq; cbn in *; lia). reflexivity.
  - replace (Nat.eqb (length (a :: suffix)) (length Input)) with false
      by (symmetry; apply Nat.eqb_neq; lia).
    apply IH. cbn in Hlen. lia.
Qed.

(** A pattern that starts with [^] matches at index 0 or not at all. *)
Lemma exec_anchored r S :
  exec (Seq InputStart r) S
  = let Input := list_ascii_of_string S in
    match compile Input (Seq InputStart r)
            {| rest := Input; captures := replicate (length (parens r)) None |} Some with
    | Some y => Some {| index := 0;
                        matched := take (length Input - length (rest y)) Input;
                        groups := captures y |}
    | None => None
    end.
Proof.
  unfold exec. cbn zeta. set (Input := list_ascii_of_string S).
  assert (H : forall suffix, suffix = Input ->
            search Input (Seq InputStart r) 0 suffix
            = match compile Input (Seq InputStart r)
                      {| rest := suffix; captures := replicate (length (parens r)) None |}
                      Some with
              | Some y => Some {| index := 0;
                                  matched := take (length suffix - length (rest y)) suffix;
                                  groups := captures y |}
              | None => None
              end).
  { intros suffix Hs. destruct suffix as [|a suffix]; [reflexivity|].
    cbn [search]. cbn [parens app].
    destruct (compile Input (Seq InputStart r) _ Some); [reflexivity|].
    apply search_anchored_later. rewrite <- Hs. cbn. lia. }
  now apply H.
Qed.

End RegExpSteps.

(* ===================================================================== *)
(** * The codecs *)
(* ===================================================================== *)

Module EncodingFacts.
Import Encoding.

(** ** Base64 *)

Lemma digit_value_digit (s : sextet) : digit_value (digit s) = Some s.
Proof. destruct s as [[] [] [] [] [] []]; reflexivity. Qed.

Lemma digit_not_padding (s : sextet) : Ascii.eqb (digit s) padding = false.
Proof. destruct s as [[] [] [] [] [] []]; reflexivity. Qed.

Lemma bytes3_sextets3 (a b c : ascii) :
  (let '(s1, s2, s3, s4) := sextets3 a b c in bytes3 s1 s2 s3 s4) = (a, b, c).
Proof. destruct a, b, c. reflexivity. Qed.

(** Lists, three elements at a time. *)
Lemma list_ind3 {A} (P : list A -> Prop) :
  P [] -> (forall a, P [a]) -> (forall a b, P [a; b]) ->
  (forall a b c l, P l -> P (a :: b :: c :: l)) ->
  forall l, P l.
Proof.
  intros H0 H1 H2 H3 l.
  assert (H : P l /\ (forall a, P (a :: l)) /\ (forall a b, P (a :: b :: l))).
  { induction l as [|x l (IH0 & IH1 & IH2)]; [auto|].
    split; [apply IH1|]. split; [intros a; apply IH2|]. intros a b. now apply H3. }
  apply H.
Qed.

Definition is_padding (pad : list ascii) : Prop :=
  pad = [] \/ pad = [padding] \/ pad = [padding; padding].

(** The encoding is its digits, then no, one or two padding characters. *)
Lemma base64_encode_digits (bytes : list ascii) :
  exists pad, base64_encode bytes = (base64_digits bytes ++ pad)%list /\ is_padding pad.
Proof.
  unfold is_padding.
  induction bytes as [|a|a b|a b c bytes (pad & IH & Hpad)] using list_ind3.
  - exists []. auto.
  - exists [padding; padding]. destruct a. cbn. auto.
  - exists [padding]. destruct a, b. cbn. auto.
  - exists pad. split; [|exact Hpad]. destruct a, b, c.
    cbn -[digit padding]. now rewrite IH.
Qed.

Lemma base64_digits_not_padding (bytes : list ascii) :
  forallb (fun c => negb (Ascii.eqb c padding)) (base64_digits bytes) = true.
Proof.
  induction bytes as [|a|a b|a b c bytes IH] using list_ind3.
  - reflexivity.
  - destruct a. cbn -[digit Ascii.eqb padding]. now rewrite !digit_not_padding.
  - destruct a, b. cbn -[digit Ascii.eqb padding]. now rewrite !digit_not_padding.
  - destruct a, b, c. cbn -[digit Ascii.eqb padding].
    now rewrite !digit_not_padding, IH.
Qed.

(** Decoding the digits gives the bytes back. *)
Lemma base64_decode_unpadded_digits (bytes : list ascii) :
  base64_decode_unpadded (base64_digits bytes) = Some bytes.
Proof.
  induction bytes as [|a|a b|a b c bytes IH] using list_ind3.
  - reflexivity.
  - destruct a. cbn -[digit digit_value padding].
    rewrite !digit_value_digit. reflexivity.
  - destruct a, b. cbn -[digit digit_value padding].
    rewrite !digit_value_digit. reflexivity.
  - destruct a, b, c. cbn -[digit digit_value padding].
    rewrite !digit_value_digit. cbn -[digit digit_value padding]. rewrite IH. reflexivity.
Qed.

Lemma without_padding_digits (digits : list ascii) :
  forallb (fun c => negb (Ascii.eqb c padding)) digits = true ->
  without_padding digits = digits.
Proof.
  intros H. unfold without_padding.
  assert (Hrev : forallb (fun c => negb (Ascii.eqb c padding)) (rev digits) = true).
  { rewrite forallb_forall in *. intros c Hc. apply H. now apply in_rev. }
  destruct (rev digits) as [|p1 [|p2 l]] eqn:E.
  - apply (f_equal (@rev ascii)) in E. rewrite rev_involutive in E. now rewrite E.
  - cbn in Hrev. destruct (Ascii.eqb p1 padding); [discriminate|reflexivity].
  - cbn in Hrev. destruct (Ascii.eqb p1 padding); [discriminate|reflexivity].
Qed.

(** ** UTF-8 *)

(** Lists, one or two elements at a time. *)
Lemma list_ind2 {A} (P : list A -> Prop) :
  P [] -> (forall a, P [a]) ->
  (forall a b l, P l -> P (b :: l) -> P (a :: b :: l)) ->
  forall l, P l.
Proof.
  intros H0 H1 H2 l.
  assert (H : P l /\ forall a, P (a :: l)).
  { induction l as [|x l [IH0 IH1]]; [auto|]. split; [apply IH1|]. intros a. now apply H2. }
  apply H.
Qed.

Lemma utf8_decode_unit (u : code_unit) (bytes : list ascii) :
  is_surrogate u = false ->
  utf8_decode (utf8_unit u ++ bytes) = cons u <$> utf8_decode bytes.
Proof.
  destruct u as [[h0 h1 h2 h3 h4 h5 h6 h7] [l0 l1 l2 l3 l4 l5 l6 l7]].
  destruct h7, h6, h5, h4, h3, h2, h1, h0, l7; intros H; try discriminate H; reflexivity.
Qed.

Lemma utf8_decode_pair (h l : code_unit) (bytes : list ascii) :
  is_high_surrogate h = true -> is_low_surrogate l = true ->
  utf8_decode (utf8_pair h l ++ bytes) = (fun s => h :: l :: s) <$> utf8_decode bytes.
Proof.
  destruct h as [[w2 w3 a2 a3 a4 a5 a6 a7] [x0 x1 x2 x3 x4 x5 w0 w1]].
  destruct l as [[y8 y9 b2 b3 b4 b5 b6 b7] [y0 y1 y2 y3 y4 y5 y6 y7]].
  destruct a7, a6, a5, a4, a3, a2; intros H; try discriminate H.
  destruct b7, b6, b5, b4, b3, b2; intros H'; try discriminate H'.
  destruct w0, w1, w2, w3; reflexivity.
Qed.

Lemma utf8_decode_encode_app (s : ustring) :
  isWellFormed s = true ->
  forall bytes, utf8_decode (utf8_encode s ++ bytes) = app s <$> utf8_decode bytes.
Proof.
  induction s as [|u|u v s IH IH'] using list_ind2; intros Hwf bytes.
  - cbn. now destruct (utf8_decode bytes).
  - cbn [isWellFormed utf8_encode] in *.
    destruct (is_high_surrogate u) eqn:Hh; [discriminate|].
    destruct (is_low_surrogate u) eqn:Hl; [discriminate|].
    rewrite app_nil_r, utf8_decode_unit by (unfold is_surrogate; now rewrite Hh, Hl).
    now destruct (utf8_decode bytes).
  - cbn [isWellFormed utf8_encode] in Hwf |- *.
    destruct (is_high_surrogate u) eqn:Hh.
    + apply andb_true_iff in Hwf as [Hv Hwf]. rewrite Hv, <- app_assoc.
      rewrite utf8_decode_pair, IH by assumption.
      now destruct (utf8_decode bytes).
    + destruct (is_low_surrogate u) eqn:Hl; [discriminate|].
      rewrite <- app_assoc, utf8_decode_unit by (unfold is_surrogate; now rewrite Hh, Hl).
      rewrite IH' by exact Hwf. now destruct (utf8_decode bytes).
Qed.

Lemma utf8_decode_encode (s : ustring) :
  isWellFormed s = true -> utf8_decode (utf8_encode s) = Some s.
Proof.
  intros H. rewrite <- (app_nil_r (utf8_encode s)), utf8_decode_encode_app by exact H.
  cbn. now rewrite app_nil_r.
Qed.

Lemma isWellFormed_app (a b : ustring) :
  isWellFormed a = true -> isWellFormed (a ++ b)%list = isWellFormed b.
Proof.
  induction a as [|u|u v a IH IH'] using list_ind2; intros H.
  - reflexivity.
  - cbn [isWellFormed app] in *. destruct (is_high_surrogate u); [discriminate|].
    apply andb_true_iff in H as [-> _]. reflexivity.
  - cbn [isWellFormed app] in H |- *. destruct (is_high_surrogate u).
    + apply andb_true_iff in H as [-> H]. cbn. now apply IH.
    + apply andb_true_iff in H as [-> H]. cbn [andb]. now apply IH'.
Qed.

(** U+00E9, U+20AC and U+1F600 in two, three and four bytes; a
    surrogate without its other half as U+FFFD. *)
Example utf8_encode_samples :
  utf8_encode [CodeUnit "000" "233"] = ["195"; "169"]%char /\
  utf8_encode [CodeUnit "032" "172"] = ["226"; "130"; "172"]%char /\
  utf8_encode [CodeUnit "216" "061"; CodeUnit "222" "000"]
  = ["240"; "159"; "152"; "128"]%char /\
  utf8_encode [CodeUnit "222" "000"; CodeUnit "216" "061"]
  = ["239"; "191"; "189"; "239"; "191"; "189"]%char /\
  unicodeToBase64 [CodeUnit "216" "000"] = JS.Normal "77+9".
Proof. repeat split. Qed.

(** [base64ToUnicode] undoes [unicodeToBase64], with the padding or, as
    here, without. *)
Lemma base64ToUnicode_digits (plaintext : ustring) :
  isWellFormed plaintext = true ->
  base64ToUnicode (string_of_list_ascii (base64_digits (utf8_encode plaintext)))
  = Some plaintext.
Proof.
  intros Hwf. unfold base64ToUnicode, base64_decode.
  rewrite list_ascii_of_string_of_list_ascii.
  rewrite without_padding_digits by apply base64_digits_not_padding.
  rewrite base64_decode_unpadded_digits. cbn. now apply utf8_decode_encode.
Qed.

End EncodingFacts.

Module JSONFacts.
Import Encoding EncodingFacts JSON StringFacts.

(** ** [JSON.parse] reads back what [JSON.stringify] writes *)

Lemma hex_byte_hex2 (b : ascii) :
  hex_byte (of_ascii (hex (nat_of_ascii b / 16))) (of_ascii (hex (nat_of_ascii b mod 16)))
  = Some b.
Proof. destruct b as [[] [] [] [] [] [] [] []]; reflexivity. Qed.

Lemma parse_string_UnicodeEscape (u : code_unit) (l : ustring) :
  parse_string (UnicodeEscape u ++ l)%list = cons_unit u (parse_string l).
Proof.
  destruct u as [h b]. unfold UnicodeEscape, hex2. cbn [app].
  cbn -[hex_byte hex Nat.div Nat.modulo nat_of_ascii].
  now rewrite !hex_byte_hex2.
Qed.

(** A code unit that stands for itself in a string literal. *)
Lemma parse_string_raw (u : code_unit) (l : ustring) :
  unit_eqb u double_quote = false -> unit_eqb u backslash = false ->
  is_control u = false ->
  parse_string (u :: l) = cons_unit u (parse_string l).
Proof. intros H1 H2 H3. cbn [parse_string]. now rewrite H1, H2, H3. Qed.

Lemma parse_string_escape (u : code_unit) (l : ustring) :
  parse_string (escape u ++ l)%list = cons_unit u (parse_string l).
Proof.
  destruct (is_surrogate u) eqn:Hs.
  - assert (E : escape u = UnicodeEscape u).
    { destruct u as [[h0 h1 h2 h3 h4 h5 h6 h7] b].
      destruct h7, h6, h5, h4, h3; try discriminate Hs; destruct h2, h1, h0; reflexivity. }
    rewrite E. apply parse_string_UnicodeEscape.
  - destruct u as [[h0 h1 h2 h3 h4 h5 h6 h7] b].
    destruct h7, h6, h5, h4, h3, h2, h1, h0; try discriminate Hs; try reflexivity.
    destruct b as [[] [] [] [] [] [] [] []]; reflexivity.
Qed.

Lemma surrogate_raw (u : code_unit) (l : ustring) :
  is_surrogate u = true -> parse_string (u :: l) = cons_unit u (parse_string l).
Proof.
  destruct u as [[h0 h1 h2 h3 h4 h5 h6 h7] b].
  destruct h7, h6, h5, h4, h3; intros Hs; try discriminate Hs;
    destruct h2, h1, h0; reflexivity.
Qed.

Lemma parse_string_quoted (s : ustring) :
  forall l, parse_string (escape_code_points s ++ double_quote :: l)%list = Some (s, l).
Proof.
  induction s as [|u|u v s IH IH'] using list_ind2; intros l.
  - reflexivity.
  - cbn [escape_code_points]. destruct (is_high_surrogate u);
      now rewrite ?app_nil_r, parse_string_escape.
  - cbn [escape_code_points]. destruct (is_high_surrogate u) eqn:Hu.
    + destruct (is_low_surrogate v) eqn:Hv.
      * cbn [app]. rewrite !surrogate_raw, IH
          by (unfold is_surrogate; rewrite ?Hu, ?Hv, ?orb_true_r; reflexivity).
        reflexivity.
      * rewrite <- app_assoc. now rewrite parse_string_escape, IH'.
    + rewrite <- app_assoc. now rewrite parse_string_escape, IH'.
Qed.

Lemma parse_value_serialize (v : option ustring) (l : ustring) :
  parse_value (serialize_value v ++ l)%list = Some (v, l).
Proof.
  destruct v as [s|]; [|reflexivity].
  unfold serialize_value, QuoteJSONString. cbn [app parse_value].
  change (unit_eqb double_quote double_quote) with true. cbn iota.
  rewrite <- app_assoc. cbn [app]. now rewrite parse_string_quoted.
Qed.

Lemma serialize_member_app (key : ustring) (v : option ustring) (l : ustring) :
  (serialize_member (key, v) ++ l)%list
  = double_quote
    :: (escape_code_points key
        ++ double_quote :: of_ascii ":" :: (serialize_value v ++ l))%list.
Proof.
  unfold serialize_member, QuoteJSONString. cbn [fst snd].
  cbn [app]. now rewrite <- !app_assoc.
Qed.

(** One member, then whatever follows its value. *)
Lemma parse_member (key : ustring) (v : option ustring) (sep : code_unit) (l : ustring)
    (fuel : nat) :
  parse_members (S fuel) (serialize_member (key, v) ++ sep :: l)%list
  = if unit_eqb sep (of_ascii ",")
    then match parse_members fuel l with
         | Some (ms, rest) => Some ((key, v) :: ms, rest)
         | None => None
         end
    else if unit_eqb sep (of_ascii "}") then Some ([(key, v)], l)
    else None.
Proof.
  rewrite serialize_member_app. cbn [parse_members].
  change (unit_eqb double_quote double_quote) with true. cbn iota.
  rewrite parse_string_quoted.
  change (unit_eqb (of_ascii ":") (of_ascii ":")) with true. cbn iota.
  now rewrite parse_value_serialize.
Qed.

Lemma parse_members_serialize (m : ustring * option ustring) (ms : object) :
  forall fuel l,
    length ms < fuel ->
    parse_members fuel (serialize_members (m :: ms) ++ of_ascii "}" :: l)%list
    = Some (m :: ms, l).
Proof.
  revert m. induction ms as [|m' ms IH]; intros [key v] fuel l Hfuel;
    (destruct fuel as [|fuel]; [cbn in Hfuel; lia|]).
  - cbn [serialize_members]. now rewrite parse_member.
  - change (serialize_members ((key, v) :: m' :: ms))
      with (serialize_member (key, v) ++ of_ascii "," :: serialize_members (m' :: ms))%list.
    rewrite <- app_assoc. cbn [app]. rewrite parse_member.
    change (unit_eqb (of_ascii ",") (of_ascii ",")) with true. cbn iota.
    rewrite IH by (cbn in Hfuel; lia). reflexivity.
Qed.

Lemma length_serialize_members (ms : object) :
  length ms <= length (serialize_members ms).
Proof.
  induction ms as [|m [|m' ms] IH]; [cbn; lia| |].
  - cbn. rewrite length_app. cbn. lia.
  - change (serialize_members (m :: m' :: ms))
      with (serialize_member m ++ of_ascii "," :: serialize_members (m' :: ms))%list.
    rewrite length_app. cbn [length] in *. lia.
Qed.

Theorem parse_stringify (o : object) : parse (stringify o) = Some o.
Proof.
  unfold parse, stringify.
  change (unit_eqb (of_ascii "{") (of_ascii "{")) with true. cbn iota.
  destruct o as [|m ms]; [reflexivity|].
  rewrite parse_members_serialize.
  - assert (H : exists a b l, (serialize_members (m :: ms) ++ [of_ascii "}"])%list
                              = a :: b :: l).
    { pose proof (length_serialize_members (m :: ms)) as Hlen.
      destruct (serialize_members (m :: ms)) as [|a [|b l]]; cbn in *; eauto; lia. }
    destruct H as (a & b & l & ->). reflexivity.
  - rewrite length_app. pose proof (length_serialize_members (m :: ms)).
    cbn [length] in *. lia.
Qed.

(** [JSON.stringify] on an object whose property [a] is a quote, a line
    feed and the code unit 0xD800, a surrogate without its other half. *)
Example stringify_sample :
  stringify [(of_string "a", Some [of_ascii "034"; of_ascii "010"; CodeUnit "216" "000"])]
  = (of_string "{" ++ [double_quote; of_ascii "a"; double_quote; of_ascii ":"; double_quote;
                       backslash; double_quote; backslash; of_ascii "n"]
     ++ of_string "\ud800" ++ [double_quote; of_ascii "}"])%list.
Proof. reflexivity. Qed.

(** ** The text [JSON.stringify] writes is well formed *)

Lemma isWellFormed_of_ascii (c : ascii) (s : ustring) :
  isWellFormed (of_ascii c :: s) = isWellFormed s.
Proof. reflexivity. Qed.

Lemma isWellFormed_UnicodeEscape (u : code_unit) :
  isWellFormed (UnicodeEscape u) = true.
Proof. destruct u as [h b]. reflexivity. Qed.

Lemma isWellFormed_escape (u : code_unit) : isWellFormed (escape u) = true.
Proof.
  destruct (is_surrogate u) eqn:Hs.
  - assert (E : escape u = UnicodeEscape u).
    { destruct u as [[h0 h1 h2 h3 h4 h5 h6 h7] b].
      destruct h7, h6, h5, h4, h3; try discriminate Hs; destruct h2, h1, h0; reflexivity. }
    rewrite E. apply isWellFormed_UnicodeEscape.
  - destruct u as [[h0 h1 h2 h3 h4 h5 h6 h7] b].
    destruct h7, h6, h5, h4, h3, h2, h1, h0; try discriminate Hs; try reflexivity.
    destruct b as [[] [] [] [] [] [] [] []]; reflexivity.
Qed.

Lemma isWellFormed_escape_code_points (s : ustring) :
  isWellFormed (escape_code_points s) = true.
Proof.
  induction s as [|u|u v s IH IH'] using list_ind2.
  - reflexivity.
  - cbn [escape_code_points]. destruct (is_high_surrogate u);
      rewrite ?app_nil_r; apply isWellFormed_escape.
  - cbn [escape_code_points]. destruct (is_high_surrogate u) eqn:Hu.
    + destruct (is_low_surrogate v) eqn:Hv.
      * cbn [isWellFormed]. now rewrite Hu, Hv.
      * now rewrite isWellFormed_app by apply isWellFormed_escape.
    + now rewrite isWellFormed_app by apply isWellFormed_escape.
Qed.

Lemma isWellFormed_QuoteJSONString (s : ustring) :
  isWellFormed (QuoteJSONString s) = true.
Proof.
  unfold QuoteJSONString, double_quote. rewrite isWellFormed_of_ascii.
  now rewrite isWellFormed_app by apply isWellFormed_escape_code_points.
Qed.

Lemma isWellFormed_serialize_member (m : ustring * option ustring) :
  isWellFormed (serialize_member m) = true.
Proof.
  unfold serialize_member.
  rewrite isWellFormed_app, isWellFormed_of_ascii by apply isWellFormed_QuoteJSONString.
  destruct (snd m); [apply isWellFormed_QuoteJSONString|reflexivity].
Qed.

Lemma isWellFormed_serialize_members (ms : object) :
  isWellFormed (serialize_members ms) = true.
Proof.
  induction ms as [|m [|m' ms] IH]; [reflexivity|apply isWellFormed_serialize_member|].
  change (serialize_members (m :: m' :: ms))
    with (serialize_member m ++ of_ascii "," :: serialize_members (m' :: ms))%list.
  now rewrite isWellFormed_app, isWellFormed_of_ascii
    by apply isWellFormed_serialize_member.
Qed.

Theorem isWellFormed_stringify (o : object) : isWellFormed (stringify o) = true.
Proof.
  unfold stringify. rewrite isWellFormed_of_ascii.
  now rewrite isWellFormed_app by apply isWellFormed_serialize_members.
Qed.
End JSONFacts.

(* ===================================================================== *)
(** * [extractTraceparentData] *)
(* ===================================================================== *)

Module TraceparentFacts.
Import RegExp RegExpFacts RegExpEval RegExpSteps StringFacts Utils.

(** ** The character classes of the header are disjoint where it matters *)

Ltac by_cases_on_ascii a :=
  destruct a as [[] [] [] [] [] [] [] []]; vm_compute; intros; congruence.

Lemma hex_digit_not_space a : hex_digit a = true -> space_or_tab a = false.
Proof. by_cases_on_ascii a. Qed.
Lemma space_not_hex_digit a : space_or_tab a = true -> hex_digit a = false.
Proof. by_cases_on_ascii a. Qed.
Lemma space_not_hyphen a : space_or_tab a = true -> hyphen a = false.
Proof. by_cases_on_ascii a. Qed.
Lemma space_not_zero_or_one a : space_or_tab a = true -> zero_or_one a = false.
Proof. by_cases_on_ascii a. Qed.
Lemma hyphen_not_space a : hyphen a = true -> space_or_tab a = false.
Proof. by_cases_on_ascii a. Qed.
Lemma hyphen_not_hex_digit a : hyphen a = true -> hex_digit a = false.
Proof. by_cases_on_ascii a. Qed.
Lemma hyphen_not_zero_or_one a : hyphen a = true -> zero_or_one a = false.
Proof. by_cases_on_ascii a. Qed.
Lemma hex_digit_not_hyphen a : hex_digit a = true -> hyphen a = false.
Proof. by_cases_on_ascii a. Qed.
Lemma zero_or_one_not_space a : zero_or_one a = true -> space_or_tab a = false.
Proof. by_cases_on_ascii a. Qed.
Lemma zero_or_one_not_hyphen a : zero_or_one a = true -> hyphen a = false.
Proof. by_cases_on_ascii a. Qed.

Lemma zero_or_one_inv a : zero_or_one a = true <-> a = "0"%char \/ a = "1"%char.
Proof.
  unfold zero_or_one. rewrite orb_true_iff, !Ascii.eqb_eq. tauto.
Qed.

Lemma hyphen_inv a : hyphen a = true <-> a = "-"%char.
Proof. unfold hyphen. apply Ascii.eqb_eq. Qed.

(** A run of a class stops where another, disjoint, class begins. *)
Lemma stops_at_other (A B : ascii -> bool) w s :
  (forall a, B a = true -> A a = false) ->
  forallb B w = true -> stops_at A s -> stops_at A (w ++ s)%list.
Proof.
  intros HAB Hw Hs. destruct w as [|a w]; [exact Hs|]. cbn in *.
  apply andb_true_iff in Hw as [Ha _]. now apply HAB.
Qed.

(** ** One run of the pattern on a header *)

Lemma extractTraceparentData_run header :
  extractTraceparentData header
  = match match_header header with
    | Some y => Some (data_of (captures y))
    | None => None
    end.
Proof.
  unfold extractTraceparentData, String_match, TRACEPARENT_REGEXP.
  rewrite exec_anchored. cbn zeta. fold TRACEPARENT_REGEXP. cbn [parens Star Optional Times app length replicate].
  fold (match_header header). destruct (match_header header) as [y|]; [|reflexivity].
  cbn [groups matched]. unfold data_of, at_index. cbn [lookup list_lookup].
  assert (H : forall k, mjoin (map (option_map string_of_list_ascii) (captures y) !! k)
                        = option_map string_of_list_ascii (mjoin (captures y !! k))).
  { intros k. rewrite list_lookup_fmap.
    destruct (captures y !! k) as [[?|]|]; reflexivity. }
  now rewrite !H.
Qed.

(** ** The pattern and the grammar *)

Lemma steps_TRACEPARENT_REGEXP (Input s' : list ascii) :
  steps Input TRACEPARENT_REGEXP Input s' <-> s' = [] /\ grammar_chars Input.
Proof.
  split.
  - intros (s1 & [-> _] & s2 & H1 & s3 & H2 & s4 & H3 & s5 & H4 & s6 & H5
            & s7 & H6 & s8 & H7 & -> & ->).
    apply (proj1 (steps_star_class Input space_or_tab _ _)) in H1 as (ws1 & E1 & Hws1).
    apply (proj1 (steps_optional_run Input 0 hex_digit 32 _ _ ltac:(lia))) in H2
      as (t & -> & Ht).
    apply (proj1 (steps_optional_char Input hyphen _ _)) in H3 as (h1 & -> & Hh1).
    apply (proj1 (steps_optional_run Input 1 hex_digit 16 _ _ ltac:(lia))) in H4
      as (sp & -> & Hsp).
    apply (proj1 (steps_optional_char Input hyphen _ _)) in H5 as (h2 & -> & Hh2).
    apply (proj1 (steps_optional_group_char Input 2 zero_or_one _ _)) in H6
      as (f & -> & Hf).
    apply (proj1 (steps_star_class Input space_or_tab _ _)) in H7 as (ws2 & -> & Hws2).
    split; [reflexivity|]. exists ws1, t, h1, sp, h2, f, ws2.
    rewrite app_nil_r in E1. auto 10.
  - intros [-> (ws1 & t & h1 & sp & h2 & f & ws2 & E & Hws1 & Ht & Hh1 & Hsp & Hh2 & Hf & Hws2)].
    exists Input. split; [split; reflexivity|].
    exists (t ++ h1 ++ sp ++ h2 ++ f ++ ws2)%list. split.
    { apply (proj2 (steps_star_class Input space_or_tab _ _)). eauto. }
    exists (h1 ++ sp ++ h2 ++ f ++ ws2)%list. split.
    { apply (proj2 (steps_optional_run Input 0 hex_digit 32 _ _ ltac:(lia))). eauto. }
    exists (sp ++ h2 ++ f ++ ws2)%list. split.
    { apply (proj2 (steps_optional_char Input hyphen _ _)). eauto. }
    exists (h2 ++ f ++ ws2)%list. split.
    { apply (proj2 (steps_optional_run Input 1 hex_digit 16 _ _ ltac:(lia))). eauto. }
    exists (f ++ ws2)%list. split.
    { apply (proj2 (steps_optional_char Input hyphen _ _)). eauto. }
    exists ws2. split.
    { apply (proj2 (steps_optional_group_char Input 2 zero_or_one _ _)). eauto. }
    exists []. split.
    { apply (proj2 (steps_star_class Input space_or_tab _ _)).
      exists ws2. now rewrite app_nil_r. }
    split; reflexivity.
Qed.

Lemma chars_in_string_of_list_ascii A w :
  chars_in A (string_of_list_ascii w) = forallb A w.
Proof. unfold chars_in. now rewrite list_ascii_of_string_of_list_ascii. Qed.

Lemma grammar_chars_iff (header : string) :
  grammar_chars (list_ascii_of_string header) <-> traceparent_grammar header.
Proof.
  split.
  - intros (ws1 & t & h1 & sp & h2 & f & ws2 & E & Hws1 & Ht & Hh1 & Hsp & Hh2 & Hf & Hws2).
    exists (string_of_list_ascii ws1), (string_of_list_ascii t), (string_of_list_ascii h1),
      (string_of_list_ascii sp), (string_of_list_ascii h2), (string_of_list_ascii f),
      (string_of_list_ascii ws2).
    rewrite <- !string_of_list_ascii_app, <- E, string_of_list_ascii_of_string.
    unfold hex_of_length.
    rewrite !chars_in_string_of_list_ascii, !length_string_of_list_ascii.
    repeat split; auto.
    + destruct Ht as [->|?]; auto.
    + destruct Hh1 as [->|(a & -> & Ha)]; [now left|right].
      apply hyphen_inv in Ha as ->. reflexivity.
    + destruct Hsp as [->|?]; auto.
    + destruct Hh2 as [->|(a & -> & Ha)]; [now left|right].
      apply hyphen_inv in Ha as ->. reflexivity.
    + destruct Hf as [->|(a & -> & Ha)]; [now left|right].
      apply zero_or_one_inv in Ha as [->| ->]; auto.
  - intros (ws1 & t & h1 & sp & h2 & f & ws2 & E & Hws1 & Ht & Hh1 & Hsp & Hh2 & Hf & Hws2).
    exists (list_ascii_of_string ws1), (list_ascii_of_string t), (list_ascii_of_string h1),
      (list_ascii_of_string sp), (list_ascii_of_string h2), (list_ascii_of_string f),
      (list_ascii_of_string ws2).
    rewrite <- !list_ascii_of_string_app, <- E.
    rewrite !length_list_ascii_of_string.
    unfold hex_of_length, chars_in in *.
    repeat split; auto.
    + destruct Ht as [->|?]; auto.
    + destruct Hh1 as [->| ->]; [now left|right]. now exists "-"%char.
    + destruct Hsp as [->|?]; auto.
    + destruct Hh2 as [->| ->]; [now left|right]. now exists "-"%char.
    + destruct Hf as [->|[->| ->]]; [now left|right|right];
        [now exists "0"%char|now exists "1"%char].
Qed.

(** The engine finds a match of the pattern exactly on the headers of the
    grammar. *)
Lemma run_is_Some_iff (header : string) :
  is_Some (match_header header) <-> traceparent_grammar header.
Proof.
  unfold match_header. rewrite <- grammar_chars_iff.
  pose proof (compile_spec (list_ascii_of_string header) TRACEPARENT_REGEXP
                {| rest := list_ascii_of_string header; captures := [None; None; None] |}
                Some) as H.
  cbn [rest captures] in H. rewrite H.
  - split.
    + intros (s' & Hs & _). now apply steps_TRACEPARENT_REGEXP in Hs.
    + intros Hg. exists []. split; [now apply steps_TRACEPARENT_REGEXP|eauto].
  - intros s cap cap' _. split; intros _; eauto.
Qed.

Lemma compile_InputStart Input cap c :
  compile Input InputStart {| rest := Input; captures := cap |} c
  = c {| rest := Input; captures := cap |}.
Proof. cbn. now rewrite Nat.eqb_refl. Qed.

Lemma compile_InputEnd Input cap c :
  compile Input InputEnd {| rest := []; captures := cap |} c
  = c {| rest := []; captures := cap |}.
Proof. reflexivity. Qed.

Lemma stops_at_run (A B : ascii -> bool) w s :
  (forall a, B a = true -> A a = false) ->
  0 < length w -> forallb B w = true -> stops_at A (w ++ s)%list.
Proof.
  intros HAB Hlen Hw. destruct w as [|a w]; [cbn in Hlen; lia|]. cbn in *.
  apply andb_true_iff in Hw as [Ha _]. now apply HAB.
Qed.

(** The tail of a header after its fields: spaces and tabs to the end. *)
Lemma trailing_whitespace Input ws cap :
  forallb space_or_tab ws = true ->
  compile Input (Seq (Star (Char space_or_tab)) InputEnd)
    {| rest := ws; captures := cap |} Some
  = Some {| rest := []; captures := cap |}.
Proof.
  intros Hws. rewrite compile_Seq_eq.
  rewrite <- (app_nil_r ws) at 1. now apply Star_class_greedy.
Qed.

Ltac next := cbn beta; rewrite compile_Seq_eq.

(** A full header: trace id, span id and flag, hyphens between them. *)
Lemma run_full (ws1 T S ws2 : list ascii) (f : ascii) :
  forallb space_or_tab ws1 = true ->
  length T = 32 -> forallb hex_digit T = true ->
  length S = 16 -> forallb hex_digit S = true ->
  zero_or_one f = true ->
  forallb space_or_tab ws2 = true ->
  let Input := (ws1 ++ T ++ "-"%char :: S ++ "-"%char :: f :: ws2)%list in
  compile Input TRACEPARENT_REGEXP
    {| rest := Input; captures := [None; None; None] |} Some
  = Some {| rest := []; captures := [Some T; Some S; Some [f]] |}.
Proof.
  intros Hws1 HT HhT HS HhS Hf Hws2 Input. unfold TRACEPARENT_REGEXP.
  rewrite compile_Seq_eq, compile_InputStart. next. subst Input.
  apply Star_class_greedy; [exact Hws1| |].
  { apply (stops_at_run _ hex_digit); auto using hex_digit_not_space. lia. }
  next. apply Optional_group_run_taken; [lia|exact HT|exact HhT|].
  next. apply Optional_char_taken; [reflexivity|].
  next. apply Optional_group_run_taken; [lia|exact HS|exact HhS|].
  next. apply Optional_char_taken; [reflexivity|].
  next. apply Optional_group_char_taken; [exact Hf|].
  cbn beta. now apply trailing_whitespace.
Qed.

(** The same without the flag, and with or without the hyphen before it. *)
Lemma run_without_flag (ws1 T S h2 ws2 : list ascii) :
  forallb space_or_tab ws1 = true ->
  length T = 32 -> forallb hex_digit T = true ->
  length S = 16 -> forallb hex_digit S = true ->
  h2 = [] \/ h2 = ["-"%char] ->
  forallb space_or_tab ws2 = true ->
  let Input := (ws1 ++ T ++ "-"%char :: S ++ h2 ++ ws2)%list in
  compile Input TRACEPARENT_REGEXP
    {| rest := Input; captures := [None; None; None] |} Some
  = Some {| rest := []; captures := [Some T; Some S; None] |}.
Proof.
  intros Hws1 HT HhT HS HhS Hh2 Hws2 Input. unfold TRACEPARENT_REGEXP.
  assert (Hstop : forall A, (forall a, space_or_tab a = true -> A a = false) ->
                            stops_at A ws2).
  { intros A HA. destruct ws2 as [|a ws2]; [exact I|]. cbn in *.
    apply andb_true_iff in Hws2 as [Ha _]. now apply HA. }
  rewrite compile_Seq_eq, compile_InputStart. next. subst Input.
  apply Star_class_greedy; [exact Hws1| |].
  { apply (stops_at_run _ hex_digit); auto using hex_digit_not_space. lia. }
  next. apply Optional_group_run_taken; [lia|exact HT|exact HhT|].
  next. apply Optional_char_taken; [reflexivity|].
  next. apply Optional_group_run_taken; [lia|exact HS|exact HhS|].
  next. destruct Hh2 as [-> | ->]; cbn [app].
  - apply Optional_char_skipped; [apply Hstop, space_not_hyphen|].
    next. rewrite Optional_group_char_skipped by apply Hstop, space_not_zero_or_one.
    now apply trailing_whitespace.
  - apply Optional_char_taken; [reflexivity|].
    next. rewrite Optional_group_char_skipped by apply Hstop, space_not_zero_or_one.
    now apply trailing_whitespace.
Qed.

(** No field at all: only spaces and tabs, around nothing, one hyphen or
    two. *)
Lemma run_without_fields (ws1 h ws2 : list ascii) :
  forallb space_or_tab ws1 = true ->
  h = [] \/ h = ["-"%char] \/ h = ["-"%char; "-"%char] ->
  forallb space_or_tab ws2 = true ->
  let Input := (ws1 ++ h ++ ws2)%list in
  compile Input TRACEPARENT_REGEXP
    {| rest := Input; captures := [None; None; None] |} Some
  = Some {| rest := []; captures := [None; None; None] |}.
Proof.
  intros Hws1 Hh Hws2 Input. unfold TRACEPARENT_REGEXP.
  assert (Hstop : forall A, (forall a, space_or_tab a = true -> A a = false) ->
                            stops_at A ws2).
  { intros A HA. destruct ws2 as [|a ws2]; [exact I|]. cbn in *.
    apply andb_true_iff in Hws2 as [Ha _]. now apply HA. }
  rewrite compile_Seq_eq, compile_InputStart. next. subst Input.
  destruct Hh as [-> | [-> | ->]]; cbn [app].
  - (* whitespace only: the leading run takes it all *)
    rewrite <- (app_nil_r (ws1 ++ ws2)).
    apply Star_class_greedy; [now rewrite forallb_app, Hws1, Hws2|exact I|].
    next. rewrite Optional_group_run_skipped by (try lia; exact I).
    next. apply Optional_char_skipped; [exact I|].
    next. rewrite Optional_group_run_skipped by (try lia; exact I).
    next. apply Optional_char_skipped; [exact I|].
    next. rewrite Optional_group_char_skipped by exact I.
    now apply (trailing_whitespace _ []).
  - apply Star_class_greedy; [exact Hws1|reflexivity|].
    next. rewrite Optional_group_run_skipped by (try lia; reflexivity).
    next. apply Optional_char_taken; [reflexivity|].
    next. rewrite Optional_group_run_skipped
      by (try lia; apply Hstop, space_not_hex_digit).
    next. apply Optional_char_skipped; [apply Hstop, space_not_hyphen|].
    next. rewrite Optional_group_char_skipped by apply Hstop, space_not_zero_or_one.
    now apply trailing_whitespace.
  - apply Star_class_greedy; [exact Hws1|reflexivity|].
    next. rewrite Optional_group_run_skipped by (try lia; reflexivity).
    next. apply Optional_char_taken; [reflexivity|].
    next. rewrite Optional_group_run_skipped by (try lia; reflexivity).
    next. apply Optional_char_taken; [reflexivity|].
    next. rewrite Optional_group_char_skipped by apply Hstop, space_not_zero_or_one.
    now apply trailing_whitespace.
Qed.

(** ** The decoder *)

Lemma extractTraceparentData_of_run header cap :
  match_header header = Some {| rest := []; captures := cap |} ->
  extractTraceparentData header = Some (data_of cap).
Proof. intros H. now rewrite extractTraceparentData_run, H. Qed.

(** C7: [extractTraceparentData] returns a result exactly on the headers
    of the grammar (anchored at both ends), and nothing on any other
    string.  For a trace id [T] of 32 hex digits, a span id [S] of 16 and a
    flag [0] or [1], the header [T-S-flag] decodes to [T], [S] and whether
    the flag is [1]; without the flag [parentSampled] is undefined. *)
Theorem extractTraceparentData_grammar :
  (forall header,
      is_Some (extractTraceparentData header) <-> traceparent_grammar header) /\
  (forall header,
      ~ traceparent_grammar header -> extractTraceparentData header = None) /\
  (forall T S flag,
      hex_of_length 32 T -> hex_of_length 16 S -> flag = "0" \/ flag = "1" ->
      extractTraceparentData (T ++ "-" ++ S ++ "-" ++ flag)
      = Some {| traceId := Some T;
                parentSampled := Some (String.eqb flag "1");
                parentSpanId := Some S |}) /\
  (forall T S,
      hex_of_length 32 T -> hex_of_length 16 S ->
      extractTraceparentData (T ++ "-" ++ S)
      = Some {| traceId := Some T; parentSampled := None; parentSpanId := Some S |}).
Proof.
  assert (Hiff : forall header,
             is_Some (extractTraceparentData header) <-> traceparent_grammar header).
  { intros header. rewrite <- run_is_Some_iff, extractTraceparentData_run.
    destruct (match_header header); split; intros H; eauto; now apply is_Some_None in H. }
  split; [exact Hiff|]. split; [|split].
  - intros header Hno. destruct (extractTraceparentData header) eqn:E; [|reflexivity].
    exfalso. apply Hno, Hiff. rewrite E. eauto.
  - intros T S flag [HT HhT] [HS HhS] Hflag.
    assert (exists f, flag = String f "" /\ zero_or_one f = true
                      /\ String.eqb flag "1" = Ascii.eqb f "1") as (f & -> & Hf & Heq).
    { destruct Hflag as [-> | ->]; [exists "0"%char|exists "1"%char]; auto. }
    rewrite Heq.
    rewrite (extractTraceparentData_of_run _
               [Some (list_ascii_of_string T); Some (list_ascii_of_string S); Some [f]]).
    + unfold data_of. cbn [lookup list_lookup mjoin option_map option_join option_bind
                             option_ret mbind mret string_of_list_ascii].
      rewrite !string_of_list_ascii_of_string.
      destruct (zero_or_one_inv f) as [Hinv _].
      destruct (Hinv Hf) as [-> | ->]; reflexivity.
    + unfold match_header. rewrite !list_ascii_of_string_app. cbn [list_ascii_of_string app].
      apply (run_full [] (list_ascii_of_string T) (list_ascii_of_string S) [] f);
        rewrite ?length_list_ascii_of_string; auto.
  - intros T S [HT HhT] [HS HhS].
    rewrite (extractTraceparentData_of_run _
               [Some (list_ascii_of_string T); Some (list_ascii_of_string S); None]).
    + unfold data_of. cbn [lookup list_lookup mjoin option_map option_join option_bind
                             option_ret mbind mret string_of_list_ascii].
      now rewrite !string_of_list_ascii_of_string.
    + unfold match_header. rewrite !list_ascii_of_string_app. cbn [list_ascii_of_string app].
      pose proof (run_without_flag [] (list_ascii_of_string T) (list_ascii_of_string S)
                    [] []) as H.
      cbn [app] in H. rewrite app_nil_r in H.
      apply H; rewrite ?length_list_ascii_of_string; auto.
Qed.

(** The scenarios of the specification. *)
Example extractTraceparentData_scenario :
  extractTraceparentData "  4bf92f3577b34da6a3ce929d0e0e4736-00f067aa0ba902b7-1  "
  = Some {| traceId := Some "4bf92f3577b34da6a3ce929d0e0e4736";
            parentSampled := Some true;
            parentSpanId := Some "00f067aa0ba902b7" |}.
Proof. reflexivity. Qed.

Example extractTraceparentData_malformed :
  extractTraceparentData "not-a-valid-header" = None.
Proof. reflexivity. Qed.

(** C9: a header of spaces and tabs only (the empty string among them),
    or of one or two hyphens between spaces and tabs, is not malformed for
    the decoder: it returns a result, in which all three fields are
    undefined. *)
Theorem extractTraceparentData_without_fields (ws1 h ws2 : string) :
  chars_in space_or_tab ws1 = true ->
  chars_in space_or_tab ws2 = true ->
  h = "" \/ h = "-" \/ h = "--" ->
  extractTraceparentData (ws1 ++ h ++ ws2)
  = Some {| traceId := None; parentSampled := None; parentSpanId := None |}.
Proof.
  intros Hws1 Hws2 Hh.
  rewrite (extractTraceparentData_of_run _ [None; None; None]); [reflexivity|].
  unfold match_header. rewrite !list_ascii_of_string_app.
  apply run_without_fields; auto.
  destruct Hh as [-> | [-> | ->]]; auto.
Qed.

Lemma extractTraceparentData_without_fields_witness :
  extractTraceparentData (" " ++ "-" ++ String "009" "")
  = Some {| traceId := None; parentSampled := None; parentSpanId := None |}.
Proof.
  exact (extractTraceparentData_without_fields " " "-" (String "009" "")
           eq_refl eq_refl (or_intror (or_introl eq_refl))).
Defined.

(** ** Every header of the grammar *)

Lemma zero_or_one_hex_digit a : zero_or_one a = true -> hex_digit a = true.
Proof. intros [-> | ->]%zero_or_one_inv; reflexivity. Qed.


(** Where a part of a header starts, no other class goes on. *)
Lemma part_stops_at (A B : ascii -> bool) n l o :
  (forall a, B a = true -> A a = false) -> part B n l o -> stops_at A l.
Proof.
  intros HAB [[-> _] | (_ & Hl & _)]; [exact I|].
  destruct l as [|a l]; [exact I|]. cbn in *.
  apply andb_true_iff in Hl as [Ha _]. now apply HAB.
Qed.

Lemma separator_stops_at (A : ascii -> bool) h :
  (forall a, hyphen a = true -> A a = false) -> separator h -> stops_at A h.
Proof. intros HA [-> | ->]; [exact I|]. now apply HA. Qed.

Lemma whitespace_stops_at (A : ascii -> bool) ws :
  (forall a, space_or_tab a = true -> A a = false) ->
  forallb space_or_tab ws = true -> stops_at A ws.
Proof.
  intros HA Hws. destruct ws as [|a ws]; [exact I|]. cbn in *.
  apply andb_true_iff in Hws as [Ha _]. now apply HA.
Qed.

(** The hex digits a header goes on with after a field that is absent:
    fewer than a field of the next group has. *)
Lemma short_run_before_flag h2 f oflag ws2 :
  separator h2 -> part zero_or_one 1 f oflag -> forallb space_or_tab ws2 = true ->
  exists w s, (h2 ++ f ++ ws2 = w ++ s)%list /\ forallb hex_digit w = true /\
              length w <= 1 /\ stops_at hex_digit s.
Proof.
  intros Hh2 Hf Hws2.
  pose proof (whitespace_stops_at hex_digit ws2 space_not_hex_digit Hws2) as Hst.
  destruct Hh2 as [-> | ->].
  - destruct Hf as [[-> _] | (Hlen & Hf & _)].
    + exists [], ws2. cbn. auto.
    + exists f, ws2. repeat split; auto; [|lia].
      apply forallb_forall. intros a Ha. apply zero_or_one_hex_digit.
      now apply (proj1 (forallb_forall _ _) Hf).
  - exists [], ("-"%char :: f ++ ws2)%list. cbn. auto.
Qed.

Lemma short_run_before_span h1 sp osp h2 f oflag ws2 :
  separator h1 -> part hex_digit 16 sp osp -> separator h2 ->
  part zero_or_one 1 f oflag -> forallb space_or_tab ws2 = true ->
  exists w s, (h1 ++ sp ++ h2 ++ f ++ ws2 = w ++ s)%list /\ forallb hex_digit w = true /\
              length w <= 17 /\ stops_at hex_digit s.
Proof.
  intros Hh1 Hsp Hh2 Hf Hws2.
  destruct Hh1 as [-> | ->];
    [|exists [], ("-"%char :: sp ++ h2 ++ f ++ ws2)%list; cbn; repeat split; auto; lia].
  destruct (short_run_before_flag h2 f oflag ws2 Hh2 Hf Hws2) as (w & s & E & Hw & Hlen & Hst).
  cbn [app]. rewrite E.
  destruct Hsp as [[-> _] | (Hl & Hsp & _)].
  - exists w, s. cbn. repeat split; auto. lia.
  - exists (sp ++ w)%list, s. rewrite app_assoc, forallb_app, length_app, Hsp, Hw.
    repeat split; auto. lia.
Qed.

(** One run of the pattern on a header of the grammar, written so that a
    lone hyphen is the first separator and a header without a field ends
    with it. *)
Lemma run_fields_normal (ws1 t h1 sp h2 f ws2 : list ascii) ot osp oflag :
  forallb space_or_tab ws1 = true ->
  part hex_digit 32 t ot -> separator h1 ->
  part hex_digit 16 sp osp -> separator h2 ->
  part zero_or_one 1 f oflag ->
  forallb space_or_tab ws2 = true ->
  (h1 = [] -> sp = [] -> h2 = []) ->
  ((t ++ h1 ++ sp ++ h2 ++ f)%list = [] -> ws2 = []) ->
  let Input := (ws1 ++ t ++ h1 ++ sp ++ h2 ++ f ++ ws2)%list in
  compile Input TRACEPARENT_REGEXP
    {| rest := Input; captures := [None; None; None] |} Some
  = Some {| rest := []; captures := [ot; osp; oflag] |}.
Proof.
  intros Hws1 Ht Hh1 Hsp Hh2 Hf Hws2 Hlone Hempty Input. unfold TRACEPARENT_REGEXP.
  pose proof (fun A HA => whitespace_stops_at A ws2 HA Hws2) as Hws2_stops.
  rewrite compile_Seq_eq, compile_InputStart. next. subst Input.
  apply Star_class_greedy; [exact Hws1| |].
  { destruct (list_eq_nil_dec (t ++ h1 ++ sp ++ h2 ++ f)%list) as [E|E].
    - rewrite (Hempty E).
      apply app_eq_nil in E as [-> E]. apply app_eq_nil in E as [-> E].
      apply app_eq_nil in E as [-> E]. apply app_eq_nil in E as [-> ->]. exact I.
    - replace (t ++ h1 ++ sp ++ h2 ++ f ++ ws2)%list
        with ((t ++ h1 ++ sp ++ h2 ++ f) ++ ws2)%list by now rewrite <- !app_assoc.
      apply stops_at_nonempty; [exact E|].
      repeat apply stops_at_app;
        eauto using part_stops_at, separator_stops_at, hex_digit_not_space,
          hyphen_not_space, zero_or_one_not_space. }
  (* the trace id *)
  next.
  assert (G1 : forall c res,
             c {| rest := (h1 ++ sp ++ h2 ++ f ++ ws2)%list; captures := [ot; None; None] |}
             = Some res ->
             compile (ws1 ++ t ++ h1 ++ sp ++ h2 ++ f ++ ws2)
               (Optional (Group 0 (Times 32 (Char hex_digit))))
               {| rest := (t ++ h1 ++ sp ++ h2 ++ f ++ ws2)%list;
                  captures := [None; None; None] |} c = Some res).
  { intros c res Hc. destruct Ht as [[-> ->] | (Hl & Hhex & ->)].
    - cbn [app].
      destruct (short_run_before_span h1 sp osp h2 f oflag ws2) as (w & s & E & Hw & Hlen & Hst);
        auto.
      rewrite E in *. rewrite Optional_group_run_short; auto. lia.
    - apply Optional_group_run_taken; auto. lia. }
  apply G1. clear G1.
  (* the first hyphen *)
  next.
  assert (G2 : forall c res,
             c {| rest := (sp ++ h2 ++ f ++ ws2)%list; captures := [ot; None; None] |}
             = Some res ->
             compile (ws1 ++ t ++ h1 ++ sp ++ h2 ++ f ++ ws2) (Optional (Char hyphen))
               {| rest := (h1 ++ sp ++ h2 ++ f ++ ws2)%list;
                  captures := [ot; None; None] |} c = Some res).
  { intros c res Hc. destruct Hh1 as [-> | ->].
    - cbn [app]. apply Optional_char_skipped; [|exact Hc].
      destruct Hsp as [[-> _] | Hsp'].
      + rewrite (Hlone eq_refl eq_refl). cbn [app].
        apply stops_at_app;
          eauto using part_stops_at, zero_or_one_not_hyphen, space_not_hyphen.
      + apply stops_at_nonempty; [intros ->; now destruct Hsp'|].
        eapply (part_stops_at hyphen hex_digit 16 sp (Some sp));
          [apply hex_digit_not_hyphen|right; tauto].
    - apply Optional_char_taken; [reflexivity|exact Hc]. }
  apply G2. clear G2.
  (* the span id *)
  next.
  assert (G3 : forall c res,
             c {| rest := (h2 ++ f ++ ws2)%list; captures := [ot; osp; None] |}
             = Some res ->
             compile (ws1 ++ t ++ h1 ++ sp ++ h2 ++ f ++ ws2)
               (Optional (Group 1 (Times 16 (Char hex_digit))))
               {| rest := (sp ++ h2 ++ f ++ ws2)%list;
                  captures := [ot; None; None] |} c = Some res).
  { intros c res Hc. destruct Hsp as [[-> ->] | (Hl & Hhex & ->)].
    - cbn [app].
      destruct (short_run_before_flag h2 f oflag ws2) as (w & s & E & Hw & Hlen & Hst); auto.
      rewrite E in *. rewrite Optional_group_run_short; auto. lia.
    - apply Optional_group_run_taken; auto. lia. }
  apply G3. clear G3.
  (* the second hyphen *)
  next.
  assert (G4 : forall c res,
             c {| rest := (f ++ ws2)%list; captures := [ot; osp; None] |} = Some res ->
             compile (ws1 ++ t ++ h1 ++ sp ++ h2 ++ f ++ ws2) (Optional (Char hyphen))
               {| rest := (h2 ++ f ++ ws2)%list; captures := [ot; osp; None] |} c
             = Some res).
  { intros c res Hc. destruct Hh2 as [-> | ->].
    - cbn [app]. apply Optional_char_skipped; [|exact Hc].
      apply stops_at_app;
        eauto using part_stops_at, zero_or_one_not_hyphen, space_not_hyphen.
    - apply Optional_char_taken; [reflexivity|exact Hc]. }
  apply G4. clear G4.
  (* the flag *)
  next.
  destruct Hf as [[-> ->] | (Hl & Hbit & ->)].
  - cbn [app]. rewrite Optional_group_char_skipped
      by (apply Hws2_stops, space_not_zero_or_one).
    now apply trailing_whitespace.
  - destruct f as [|a [|? ?]]; try discriminate Hl. cbn in Hbit.
    rewrite andb_true_r in Hbit. cbn [app].
    apply Optional_group_char_taken; [exact Hbit|].
    now apply trailing_whitespace.
Qed.

(** The same for every way of writing the header. *)
Lemma run_fields (ws1 t h1 sp h2 f ws2 : list ascii) ot osp oflag :
  forallb space_or_tab ws1 = true ->
  part hex_digit 32 t ot -> separator h1 ->
  part hex_digit 16 sp osp -> separator h2 ->
  part zero_or_one 1 f oflag ->
  forallb space_or_tab ws2 = true ->
  let Input := (ws1 ++ t ++ h1 ++ sp ++ h2 ++ f ++ ws2)%list in
  compile Input TRACEPARENT_REGEXP
    {| rest := Input; captures := [None; None; None] |} Some
  = Some {| rest := []; captures := [ot; osp; oflag] |}.
Proof.
  intros Hws1 Ht Hh1 Hsp Hh2 Hf Hws2.
  destruct (list_eq_nil_dec (t ++ h1 ++ sp ++ h2 ++ f)%list) as [E|E].
  - (* no field and no hyphen: the leading run takes all the whitespace *)
    apply app_eq_nil in E as [-> E]. apply app_eq_nil in E as [-> E].
    apply app_eq_nil in E as [-> E]. apply app_eq_nil in E as [-> ->].
    pose proof (run_fields_normal (ws1 ++ ws2) [] [] [] [] [] [] ot osp oflag) as R.
    cbn [app] in *. rewrite !app_nil_r in R.
    apply R; auto. now rewrite forallb_app, Hws1, Hws2.
  - destruct Hh1 as [-> | ->].
    + destruct Hsp as [[-> ->] | Hsp].
      * destruct Hh2 as [-> | ->].
        -- apply run_fields_normal; unfold separator, part; auto. tauto.
        -- (* a lone hyphen is taken as the first separator *)
           apply (run_fields_normal ws1 t ["-"%char] [] [] f ws2);
             unfold separator, part; auto.
           intros E'. exfalso. apply E. exact E'.
      * apply run_fields_normal; unfold separator, part; auto; [|tauto].
        intros _ ->. now destruct Hsp.
    + apply run_fields_normal; unfold separator, part; auto; [discriminate|tauto].
Qed.

(** From strings to lists of characters. *)
Lemma part_of_field (A : ascii -> bool) (n : nat) (s : string) :
  0 < n ->
  s = "" \/ (String.length s = n /\ chars_in A s = true) ->
  part A n (list_ascii_of_string s) (option_map list_ascii_of_string (field s)).
Proof.
  intros Hn [-> | [Hlen Hs]]; [now left|right].
  rewrite length_list_ascii_of_string. repeat split; auto.
  unfold field. destruct s; [cbn in Hlen; lia|reflexivity].
Qed.

Lemma group_of_field (s : string) :
  option_map string_of_list_ascii (option_map list_ascii_of_string (field s)) = field s.
Proof.
  unfold field. destruct (String.eqb s ""); cbn; [reflexivity|].
  now rewrite string_of_list_ascii_of_string.
Qed.

Lemma separator_of_string (h : string) :
  h = "" \/ h = "-" -> separator (list_ascii_of_string h).
Proof. intros [-> | ->]; [now left|now right]. Qed.

(** The decoder on a header given by its parts. *)
Lemma extractTraceparentData_of_fields (ws1 trace_id h1 span_id h2 flag ws2 : string) :
  chars_in space_or_tab ws1 = true ->
  trace_id = "" \/ hex_of_length 32 trace_id ->
  h1 = "" \/ h1 = "-" ->
  span_id = "" \/ hex_of_length 16 span_id ->
  h2 = "" \/ h2 = "-" ->
  flag = "" \/ flag = "0" \/ flag = "1" ->
  chars_in space_or_tab ws2 = true ->
  extractTraceparentData (ws1 ++ trace_id ++ h1 ++ span_id ++ h2 ++ flag ++ ws2)
  = Some {| traceId := field trace_id;
            parentSampled :=
              if String.eqb flag "1" then Some true
              else if String.eqb flag "0" then Some false
              else None;
            parentSpanId := field span_id |}.
Proof.
  intros Hws1 Ht Hh1 Hsp Hh2 Hf Hws2.
  rewrite (extractTraceparentData_of_run _
             [option_map list_ascii_of_string (field trace_id);
              option_map list_ascii_of_string (field span_id);
              option_map list_ascii_of_string (field flag)]).
  - unfold data_of. cbn [lookup list_lookup mjoin option_join option_bind option_ret
                           mbind mret].
    rewrite !group_of_field.
    destruct Hf as [-> | [-> | ->]]; reflexivity.
  - unfold match_header. rewrite !list_ascii_of_string_app.
    apply run_fields; auto using separator_of_string.
    + apply part_of_field; [lia|exact Ht].
    + apply part_of_field; [lia|exact Hsp].
    + destruct Hf as [-> | [-> | ->]]; [now left|now right|now right].
Qed.

(** X15: the decoder on every header of the grammar.  Each of the three
    fields is decoded on its own: a header made of any of a trace id of 32
    hex digits, a span id of 16 and a flag 0 or 1, in this order, each
    present or not, with or without a hyphen after the first and after the
    second, between spaces and tabs, decodes to exactly the fields that are
    present.  (A flag alone is a header, and so is a span id alone.) *)
Theorem extractTraceparentData_fields
    (ws1 trace_id h1 span_id h2 flag ws2 : string) :
  chars_in space_or_tab ws1 = true ->
  trace_id = "" \/ hex_of_length 32 trace_id ->
  h1 = "" \/ h1 = "-" ->
  span_id = "" \/ hex_of_length 16 span_id ->
  h2 = "" \/ h2 = "-" ->
  flag = "" \/ flag = "0" \/ flag = "1" ->
  chars_in space_or_tab ws2 = true ->
  extractTraceparentData (ws1 ++ trace_id ++ h1 ++ span_id ++ h2 ++ flag ++ ws2)
  = Some {| traceId := field trace_id;
            parentSampled :=
              if String.eqb flag "1" then Some true
              else if String.eqb flag "0" then Some false
              else None;
            parentSpanId := field span_id |}.
Proof. apply extractTraceparentData_of_fields. Qed.

Lemma extractTraceparentData_fields_witness :
  extractTraceparentData (" " ++ "" ++ "" ++ "00f067aa0ba902b7" ++ "" ++ "1" ++ "")
  = Some {| traceId := None; parentSampled := Some true;
            parentSpanId := Some "00f067aa0ba902b7" |}.
Proof.
  exact (extractTraceparentData_fields " " "" "" "00f067aa0ba902b7" "" "1" ""
           eq_refl (or_introl eq_refl) (or_introl eq_refl)
           (or_intror (conj eq_refl eq_refl)) (or_introl eq_refl)
           (or_intror (or_intror eq_refl)) eq_refl).
Defined.

(** X16: the fields of a result are well formed, and nothing of the
    header is lost.  A [traceId] is 32 hex digits, a [parentSpanId] is 16,
    and the header is these fields and the flag in this order, with at most
    one hyphen after each id, between spaces and tabs. *)
Theorem extractTraceparentData_well_formed (header : string) (d : TraceparentData) :
  extractTraceparentData header = Some d ->
  (forall T, traceId d = Some T -> hex_of_length 32 T) /\
  (forall S, parentSpanId d = Some S -> hex_of_length 16 S) /\
  exists ws1 h1 h2 ws2,
    header = ws1 ++ default "" (traceId d) ++ h1 ++ default "" (parentSpanId d) ++ h2
               ++ match parentSampled d with
                  | Some true => "1"
                  | Some false => "0"
                  | None => ""
                  end ++ ws2 /\
    chars_in space_or_tab ws1 = true /\ chars_in space_or_tab ws2 = true /\
    (h1 = "" \/ h1 = "-") /\ (h2 = "" \/ h2 = "-").
Proof.
  intros Hd.
  assert (Hg : traceparent_grammar header).
  { apply run_is_Some_iff. rewrite extractTraceparentData_run in Hd.
    destruct (match_header header); [eauto|discriminate]. }
  destruct Hg as (ws1 & t & h1 & sp & h2 & f & ws2 & -> & Hws1 & Ht & Hh1 & Hsp & Hh2
                  & Hf & Hws2).
  rewrite extractTraceparentData_of_fields in Hd by assumption.
  injection Hd as <-. cbn [traceId parentSpanId parentSampled].
  assert (Hfield : forall n s, s = "" \/ hex_of_length (S n) s ->
                     (forall x, field s = Some x -> hex_of_length (S n) x)
                     /\ default "" (field s) = s).
  { intros n s [-> | Hs]; [split; [discriminate|reflexivity]|].
    unfold field. destruct s; [destruct Hs as [[=] _]|].
    split; [now intros x [= <-]|reflexivity]. }
  destruct (Hfield _ _ Ht) as [HT ET], (Hfield _ _ Hsp) as [HS ES].
  split; [exact HT|]. split; [exact HS|].
  exists ws1, h1, h2, ws2. rewrite ET, ES.
  repeat split; auto.
  destruct Hf as [-> | [-> | ->]]; reflexivity.
Qed.

Lemma extractTraceparentData_well_formed_witness :
  hex_of_length 32 "4bf92f3577b34da6a3ce929d0e0e4736".
Proof.
  refine (proj1 (extractTraceparentData_well_formed
                   "4bf92f3577b34da6a3ce929d0e0e4736-00f067aa0ba902b7-1"
                   {| traceId := Some "4bf92f3577b34da6a3ce929d0e0e4736";
                      parentSampled := Some true;
                      parentSpanId := Some "00f067aa0ba902b7" |} _)
            _ eq_refl).
  vm_compute. reflexivity.
Defined.

(** A header of the grammar is made of the characters of the pattern. *)
Lemma grammar_header_chars (header : string) :
  traceparent_grammar header -> chars_in header_char header = true.
Proof.
  intros (ws1 & t & h1 & sp & h2 & f & ws2 & -> & Hws1 & Ht & Hh1 & Hsp & Hh2 & Hf & Hws2).
  unfold chars_in in *. rewrite !list_ascii_of_string_app, !forallb_app.
  assert (Hsub : forall A s, (forall a, A a = true -> header_char a = true) ->
                   forallb A (list_ascii_of_string s) = true ->
                   forallb header_char (list_ascii_of_string s) = true).
  { intros A s HA Hs. apply forallb_forall. intros a Ha.
    apply HA. now apply (proj1 (forallb_forall _ _) Hs). }
  assert (Hspace : forall a, space_or_tab a = true -> header_char a = true)
    by (intros a Ha; unfold header_char; now rewrite Ha).
  assert (Hhex : forall a, hex_digit a = true -> header_char a = true)
    by (intros a Ha; unfold header_char; rewrite Ha; now rewrite orb_true_r).
  rewrite (Hsub _ ws1 Hspace Hws1), (Hsub _ ws2 Hspace Hws2).
  replace (forallb header_char (list_ascii_of_string t)) with true
    by (destruct Ht as [-> | [_ Ht]]; [reflexivity|symmetry; now apply (Hsub hex_digit)]).
  replace (forallb header_char (list_ascii_of_string sp)) with true
    by (destruct Hsp as [-> | [_ Hsp]]; [reflexivity|symmetry; now apply (Hsub hex_digit)]).
  destruct Hh1 as [-> | ->], Hh2 as [-> | ->], Hf as [-> | [-> | ->]]; reflexivity.
Qed.

(** X17: a header with a character that is not a space, a tab, a hyphen
    or one of [0-9a-f] has no result; an upper-case hex digit is such a
    character. *)
Theorem extractTraceparentData_rejects_other_characters (header : string) (c : ascii) :
  In c (list_ascii_of_string header) ->
  header_char c = false ->
  extractTraceparentData header = None.
Proof.
  intros Hin Hc.
  destruct (extractTraceparentData header) as [d|] eqn:E; [exfalso|reflexivity].
  assert (Hg : traceparent_grammar header).
  { apply run_is_Some_iff. rewrite extractTraceparentData_run in E.
    destruct (match_header header); [eauto|discriminate]. }
  apply grammar_header_chars in Hg. unfold chars_in in Hg.
  rewrite forallb_forall in Hg. specialize (Hg c Hin). congruence.
Qed.

Lemma extractTraceparentData_rejects_other_characters_witness :
  extractTraceparentData "4BF92F3577B34DA6A3CE929D0E0E4736-00F067AA0BA902B7-1" = None.
Proof.
  exact (extractTraceparentData_rejects_other_characters
           "4BF92F3577B34DA6A3CE929D0E0E4736-00F067AA0BA902B7-1" "B"
           (or_intror (or_introl eq_refl)) eq_refl).
Defined.

End TraceparentFacts.

(* ===================================================================== *)
(** * [computeTracestateValue] *)
(* ===================================================================== *)

Module TracestateFacts.
Import JS Effects EffectsFacts RegExp RegExpFacts RegExpEval StringFacts Encoding
  EncodingFacts JSONFacts Utils.
Import Permutation.

Section Any_platform.
Variable JSON_stringify : TracestateData -> completion ustring.
Variable unicodeToBase64 : ustring -> completion string.

(** What the call does, whatever the two platform functions do: the
    object is normalised in place, and the result is the stripped base64
    of the JSON text, or the SentryError around what was thrown. *)
Lemma computeTracestateValue_unfold (address : nat) (heap : gmap nat TracestateData)
    (d : TracestateData) :
  heap !! address = Some d ->
  computeTracestateValue JSON_stringify unicodeToBase64 address heap
  = (<[address := normalized d]> heap,
     match cbind (JSON_stringify (normalized d)) unicodeToBase64 with
     | Normal base64 => Normal (String_replace base64 PADDING_REGEXP "")
     | Throw err =>
         Throw (SentryError "[Tracing] Error creating tracestate header" err)
     end).
Proof.
  intros Hd. unfold computeTracestateValue, try_catch, bind, read, write, modify, lift,
    ret, throw.
  rewrite Hd. rewrite lookup_insert_eq. cbn [with_environment release].
  rewrite lookup_insert_eq. rewrite insert_insert_eq.
  change (with_release _ _) with (normalized d).
  destruct (JSON_stringify (normalized d)) as [json|err]; cbn; [|reflexivity].
  destruct (unicodeToBase64 json); reflexivity.
Qed.

(** C10: the call writes into its argument.  Whether it returns or
    throws, the caller's object then has [null] for an [environment] and
    for a [release] that were undefined, null or the empty string; a
    non-empty one, [trace_id] and [public_key] are as they were, and so
    is every other object. *)
Theorem computeTracestateValue_mutates_argument
    (address : nat) (heap : gmap nat TracestateData) (d : TracestateData) :
  heap !! address = Some d ->
  let heap' :=
    fst (computeTracestateValue JSON_stringify unicodeToBase64 address heap) in
  exists d',
    heap' !! address = Some d' /\
    (falsy (environment d) = true -> environment d' = IsNull) /\
    (falsy (release d) = true -> release d' = IsNull) /\
    (falsy (environment d) = false -> environment d' = environment d) /\
    (falsy (release d) = false -> release d' = release d) /\
    trace_id d' = trace_id d /\
    public_key d' = public_key d /\
    (forall other, other <> address -> heap' !! other = heap !! other).
Proof.
  intros Hd. rewrite (computeTracestateValue_unfold _ _ _ Hd). cbn [fst].
  exists (normalized d). rewrite lookup_insert_eq. unfold normalized, or_null; cbn.
  repeat split; try (intros ->; reflexivity).
  intros other Hne. now rewrite lookup_insert_ne.
Qed.
End Any_platform.

Lemma computeTracestateValue_mutates_argument_witness :
  exists d',
    fst (computeTracestateValue JSON_stringify_tracestate Encoding.unicodeToBase64 7
           {[ 7 := sparse_data ]}) !! 7 = Some d' /\
    environment d' = IsNull /\ release d' = IsNull /\
    trace_id d' = trace_id sparse_data /\ public_key d' = public_key sparse_data.
Proof.
  destruct (computeTracestateValue_mutates_argument JSON_stringify_tracestate
              Encoding.unicodeToBase64 7 {[ 7 := sparse_data ]} sparse_data
              (lookup_singleton_eq 7 sparse_data))
    as (d' & Hd' & Henv & Hrel & _ & _ & Hid & Hkey & _).
  exists d'. repeat split; auto.
Defined.

(** The same when serialisation throws: the error is wrapped, and the
    object has been written all the same. *)
Example computeTracestateValue_throws :
  let stringify_throws := fun _ : TracestateData =>
    Throw (TypeError "Converting circular structure to JSON") in
  computeTracestateValue stringify_throws Encoding.unicodeToBase64 7 {[ 7 := sparse_data ]}
  = (<[7 := normalized sparse_data]> {[ 7 := sparse_data ]},
     Throw (SentryError "[Tracing] Error creating tracestate header"
              (TypeError "Converting circular structure to JSON"))).
Proof.
  intros f. now rewrite (computeTracestateValue_unfold f _ 7 _ sparse_data
                           (lookup_singleton_eq 7 sparse_data)).
Qed.

(** ** Stripping the padding *)

(** The search for [/={1,2}$/] in digits followed by padding finds the
    padding, all of it. *)
Lemma search_PADDING_REGEXP (Input : list ascii) (pad : list ascii) :
  is_padding pad ->
  forall digits k,
    no_padding digits = true ->
    search Input PADDING_REGEXP k (digits ++ pad)
    = match pad with
      | [] => None
      | _ => Some {| index := k + length digits; matched := pad; groups := [] |}
      end.
Proof.
  intros Hpad. induction digits as [|c digits IH]; intros k Hd.
  - cbn [app length]. rewrite Nat.add_0_r.
    destruct Hpad as [-> | [-> | ->]].
    + cbn [search]. unfold PADDING_REGEXP at 1. rewrite compile_Seq_eq.
      now rewrite class_fail by (try lia; try discriminate; exact I).
    + cbn [search]. unfold PADDING_REGEXP at 1. rewrite compile_Seq_eq.
      rewrite (class_greedy Input (Ascii.eqb "=") 1 (Some 2) [padding] [] _ _
                 {| rest := []; captures := [] |}); cbn; auto.
      intros ? [= <-]; lia.
    + cbn [search]. unfold PADDING_REGEXP at 1. rewrite compile_Seq_eq.
      rewrite (class_greedy Input (Ascii.eqb "=") 1 (Some 2) [padding; padding] [] _ _
                 {| rest := []; captures := [] |}); cbn; auto.
      intros ? [= <-]; lia.
  - change (no_padding (c :: digits))
      with (negb (Ascii.eqb c padding) && no_padding digits) in Hd.
    apply andb_true_iff in Hd as [Hc Hd]. apply negb_true_iff in Hc.
    cbn [app search]. unfold PADDING_REGEXP at 1. rewrite compile_Seq_eq.
    rewrite class_fail;
      [|lia|discriminate|unfold stops_at; rewrite Ascii.eqb_sym; exact Hc].
    fold PADDING_REGEXP. rewrite IH by exact Hd.
    cbn [length]. now rewrite Nat.add_succ_r.
Qed.

Lemma String_replace_PADDING_REGEXP (digits pad : list ascii) :
  no_padding digits = true -> is_padding pad ->
  String_replace (string_of_list_ascii (digits ++ pad)) PADDING_REGEXP ""
  = string_of_list_ascii digits.
Proof.
  intros Hd Hpad. unfold String_replace, exec.
  rewrite list_ascii_of_string_of_list_ascii.
  rewrite search_PADDING_REGEXP by auto.
  destruct pad as [|p pad]; [now rewrite app_nil_r|].
  cbn [index matched list_ascii_of_string app Nat.add].
  rewrite take_app_length, drop_ge by (rewrite length_app; cbn; lia).
  now rewrite app_nil_r.
Qed.

(** ** The header value and back *)

Lemma property_or_null (key : ustring) (v : nullable_string) :
  property key (or_null v) = [(key, read_back v)].
Proof. destruct v as [| |[|u s]]; reflexivity. Qed.

(** The properties [JSON.stringify] finds after the two assignments: all
    of them, in the order of the object. *)
Lemma properties_normalized (d : TracestateData) :
  properties (normalized d)
  = map (fun k => (key_name k, read_value k d)) (own_keys (normalized d)).
Proof.
  unfold properties.
  induction (own_keys (normalized d)) as [|k keys IH]; [reflexivity|].
  cbn [flat_map map]. rewrite IH. f_equal.
  destruct k; cbn [value_of read_value normalized trace_id environment release public_key];
    try reflexivity; now rewrite property_or_null.
Qed.

Lemma ustring_eqb_key_name (k k' : key) :
  JSON.ustring_eqb (key_name k) (key_name k') = key_eqb k k'.
Proof. destruct k, k'; reflexivity. Qed.

Lemma key_eqb_eq (k k' : key) : key_eqb k k' = true <-> k = k'.
Proof. destruct k, k'; cbn; split; congruence. Qed.

(** Reading a key of the members written for a list of keys. *)
Lemma get_members (f : key -> option ustring) (k : key) (keys : list key) :
  JSON.get (key_name k) (map (fun k' => (key_name k', f k')) keys)
  = if existsb (key_eqb k) keys then Some (f k) else None.
Proof.
  induction keys as [|k0 keys IH]; [reflexivity|].
  cbn [map JSON.get existsb]. rewrite IH, ustring_eqb_key_name.
  destruct (existsb (key_eqb k) keys); [now rewrite orb_true_r|].
  rewrite orb_false_r. destruct (key_eqb k k0) eqn:E; [|reflexivity].
  apply key_eqb_eq in E. now subst.
Qed.

Lemma existsb_key_eqb (k : key) (keys : list key) :
  existsb (key_eqb k) keys = true <-> In k keys.
Proof.
  rewrite existsb_exists. split.
  - now intros (k' & Hin & ->%key_eqb_eq).
  - intros Hin. exists k. split; [exact Hin|]. now apply key_eqb_eq.
Qed.

(** After an assignment the object has the key, and those it had. *)
Lemma assign_key_In (k k' : key) (keys : list key) :
  In k' (assign_key k keys) <-> k' = k \/ In k' keys.
Proof.
  unfold assign_key. destruct (existsb (key_eqb k) keys) eqn:E.
  - apply existsb_key_eqb in E. split; [auto|]. now intros [-> | H].
  - rewrite in_app_iff. cbn. intuition congruence.
Qed.

Lemma assign_key_present (k : key) (keys : list key) :
  In k keys -> assign_key k keys = keys.
Proof. intros Hin. unfold assign_key. now rewrite (proj2 (existsb_key_eqb k keys) Hin). Qed.

Lemma In_declared_keys (k : key) (keys : list key) :
  Permutation keys declared_keys -> In k keys.
Proof.
  intros Hperm. apply (Permutation_in k (Permutation_sym Hperm)).
  destruct k; cbn; tauto.
Qed.

(** The two assignments leave an object with all its keys as it is. *)
Lemma own_keys_normalized (d : TracestateData) :
  In Key_environment (own_keys d) -> In Key_release (own_keys d) ->
  own_keys (normalized d) = own_keys d.
Proof.
  intros He Hr. cbn [own_keys normalized].
  now rewrite (assign_key_present _ _ He), (assign_key_present _ _ Hr).
Qed.

Lemma get_own_key (f : key -> option ustring) (k : key) (keys : list key) :
  In k keys ->
  JSON.get (key_name k) (map (fun k' => (key_name k', f k')) keys) = Some (f k).
Proof.
  intros Hin. rewrite get_members.
  now rewrite (proj2 (existsb_key_eqb k keys) Hin).
Qed.

Lemma no_padding_ends_with (digits : list ascii) :
  no_padding digits = true -> ends_with "=" (string_of_list_ascii digits) = false.
Proof.
  intros H. unfold ends_with. rewrite list_ascii_of_string_of_list_ascii.
  assert (Hrev : no_padding (rev digits) = true).
  { unfold no_padding in *. rewrite forallb_forall in *.
    intros c Hc. apply H. now apply in_rev. }
  destruct (rev digits) as [|last l]; [reflexivity|].
  cbn in Hrev. apply andb_true_iff in Hrev as [Hlast _].
  now apply negb_true_iff in Hlast.
Qed.

(** C8: for every tracestate data, an object with its keys in any
    order and with any strings for values, [computeTracestateValue] (with
    the engine's [JSON.stringify] and the UTF-8 base64 of
    [unicodeToBase64]) returns a text [out] that is the base64 of the JSON
    text with its one or two padding characters stripped: no [=] is left
    in it, at its end or elsewhere.  Decoding [out] from base64 and parsing
    the JSON gives the members of an object in which [environment] and
    [release] are [null] if the input had them undefined, null or empty,
    and are the input's values otherwise.  Its [trace_id] and [public_key]
    are those of the input, and its keys are in the order of the input's
    (an [environment] or a [release] the input did not have comes
    last). *)
Theorem computeTracestateValue_round_trip
    (address : nat) (heap : gmap nat TracestateData) (d : TracestateData) :
  heap !! address = Some d ->
  exists out json pad parsed,
    snd (computeTracestateValue JSON_stringify_tracestate unicodeToBase64 address heap) = Normal out /\
    JSON_stringify_tracestate (normalized d) = Normal json /\
    unicodeToBase64 json = Normal (out ++ pad) /\
    (pad = "" \/ pad = "=" \/ pad = "==") /\
    ends_with "=" out = false /\
    chars_in (fun c => negb (Ascii.eqb c "=")) out = true /\
    base64ToUnicode out = Some json /\
    JSON.parse json = Some parsed /\
    parsed = map (fun k => (key_name k, read_value k d))
               (assign_key Key_release (assign_key Key_environment (own_keys d))) /\
    JSON.get (of_string "environment") parsed = Some (read_back (environment d)) /\
    JSON.get (of_string "release") parsed = Some (read_back (release d)) /\
    (In Key_trace_id (own_keys d) ->
     JSON.get (of_string "trace_id") parsed = Some (Some (trace_id d))) /\
    (In Key_public_key (own_keys d) ->
     JSON.get (of_string "public_key") parsed = Some (Some (public_key d))) /\
    (In Key_environment (own_keys d) -> In Key_release (own_keys d) ->
     map fst parsed = map key_name (own_keys d)).
Proof.
  intros Hd. rewrite (computeTracestateValue_unfold _ _ _ _ _ Hd). cbn [snd].
  set (json := JSON.stringify (properties (normalized d))).
  destruct (base64_encode_digits (utf8_encode json)) as (pad & Hsplit & Hpad).
  pose proof (base64_digits_not_padding (utf8_encode json)) as Hdigits.
  exists (string_of_list_ascii (base64_digits (utf8_encode json))), json,
    (string_of_list_ascii pad),
    (map (fun k => (key_name k, read_value k d)) (own_keys (normalized d))).
  unfold JSON_stringify_tracestate at 1, unicodeToBase64 at 1. cbn [cbind]. fold json.
  rewrite Hsplit, String_replace_PADDING_REGEXP by assumption.
  split; [reflexivity|]. split; [reflexivity|].
  split; [unfold unicodeToBase64; now rewrite Hsplit, string_of_list_ascii_app|].
  split; [destruct Hpad as [-> | [-> | ->]]; auto|].
  split; [now apply no_padding_ends_with|].
  split; [unfold chars_in; now rewrite list_ascii_of_string_of_list_ascii|].
  split; [apply base64ToUnicode_digits, isWellFormed_stringify|].
  split; [unfold json; now rewrite parse_stringify, properties_normalized|].
  split; [reflexivity|].
  split; [|split; [|split; [|split]]].
  - apply (get_own_key (fun k => read_value k d) Key_environment).
    cbn [own_keys normalized]. rewrite !assign_key_In. auto.
  - apply (get_own_key (fun k => read_value k d) Key_release).
    cbn [own_keys normalized]. rewrite !assign_key_In. auto.
  - intros Hin. apply (get_own_key (fun k => read_value k d) Key_trace_id).
    cbn [own_keys normalized]. rewrite !assign_key_In. auto.
  - intros Hin. apply (get_own_key (fun k => read_value k d) Key_public_key).
    cbn [own_keys normalized]. rewrite !assign_key_In. auto.
  - intros He Hr. rewrite (own_keys_normalized d He Hr), map_map. reflexivity.
Qed.

Lemma computeTracestateValue_round_trip_witness :
  exists out,
    snd (computeTracestateValue JSON_stringify_tracestate unicodeToBase64 7
           {[ 7 := shuffled_data ]}) = Normal out /\
    unicodeToBase64 (JSON.stringify (properties (normalized shuffled_data)))
    = Normal (out ++ "==") /\
    ends_with "=" out = false /\
    (base64ToUnicode out ≫= JSON.parse)
    = Some [(of_string "public_key", Some (of_string "dogsarebadatkeepingsecrets"));
            (of_string "release", Some (of_string "v1.0" ++ [CodeUnit "216" "000"])%list);
            (of_string "environment",
             Some (of_string "caf" ++ [CodeUnit "000" "233"; of_ascii " ";
                                       CodeUnit "216" "061"; CodeUnit "222" "000"])%list);
            (of_string "trace_id", Some (of_string "4bf92f3577b34da6a3ce929d0e0e4736"))].
Proof.
  destruct (computeTracestateValue_round_trip 7 {[ 7 := shuffled_data ]} shuffled_data
              (lookup_singleton_eq 7 shuffled_data))
    as (out & json & pad & parsed & Hout & _ & _ & _ & Hend & _ & Hdec
        & Hparse & Hparsed & _).
  exists out. split; [exact Hout|]. split; [|split; [exact Hend|]].
  - vm_compute in Hout. injection Hout as <-. vm_compute. reflexivity.
  - rewrite Hdec. cbn [mbind option_bind]. rewrite Hparse, Hparsed. reflexivity.
Defined.

(** An object without [environment] and [release]: the two assignments
    give it the keys, after those it has. *)
Example computeTracestateValue_without_keys :
  match snd (computeTracestateValue JSON_stringify_tracestate unicodeToBase64 7
               {[ 7 := minimal_data ]}) with
  | Normal out => base64ToUnicode out ≫= JSON.parse
  | Throw _ => None
  end
  = Some [(of_string "public_key", Some (of_string "dogsarebadatkeepingsecrets"));
          (of_string "trace_id", Some (of_string "4bf92f3577b34da6a3ce929d0e0e4736"));
          (of_string "environment", None); (of_string "release", None)].
Proof. vm_compute. reflexivity. Qed.

(** ** Errors, repetition and the padding of any text *)

Lemma or_null_idempotent (v : nullable_string) : or_null (or_null v) = or_null v.
Proof. unfold or_null. destruct (falsy v) eqn:E; [reflexivity|now rewrite E]. Qed.

Lemma normalized_idempotent (d : TracestateData) : normalized (normalized d) = normalized d.
Proof.
  unfold normalized; cbn [own_keys trace_id environment release public_key].
  rewrite !or_null_idempotent.
  set (keys := assign_key Key_release (assign_key Key_environment (own_keys d))).
  assert (He : In Key_environment keys) by (unfold keys; rewrite !assign_key_In; auto).
  assert (Hr : In Key_release keys) by (unfold keys; rewrite !assign_key_In; auto).
  now rewrite (assign_key_present _ _ He), (assign_key_present _ _ Hr).
Qed.

Section Errors_and_repetition.
Variable JSON_stringify : TracestateData -> completion ustring.
Variable unicodeToBase64 : ustring -> completion string.

(** X18: the errors of the call.  On an object, the call returns exactly
    when [JSON.stringify] and [unicodeToBase64] both return, and what it
    throws otherwise is a SentryError around what one of the two threw,
    never that error itself. *)
Theorem computeTracestateValue_wraps_errors
    (address : nat) (heap : gmap nat TracestateData) (d : TracestateData) :
  heap !! address = Some d ->
  match snd (computeTracestateValue JSON_stringify unicodeToBase64 address heap) with
  | Normal out =>
      exists json base64,
        JSON_stringify (normalized d) = Normal json /\
        unicodeToBase64 json = Normal base64 /\
        out = String_replace base64 PADDING_REGEXP ""
  | Throw e =>
      exists cause,
        e = SentryError "[Tracing] Error creating tracestate header" cause /\
        (JSON_stringify (normalized d) = Throw cause \/
         exists json, JSON_stringify (normalized d) = Normal json /\
                      unicodeToBase64 json = Throw cause)
  end.
Proof.
  intros Hd. rewrite (computeTracestateValue_unfold _ _ _ _ _ Hd). cbn [snd].
  destruct (JSON_stringify (normalized d)) as [json|e] eqn:Hj; cbn [cbind].
  - destruct (unicodeToBase64 json) as [base64|e] eqn:Hb; eauto 6.
  - eauto.
Qed.

(** X19: a second call on the same object returns what the first did (or
    throws the same) and leaves the object as the first call left it. *)
Theorem computeTracestateValue_idempotent
    (address : nat) (heap : gmap nat TracestateData) (d : TracestateData) :
  heap !! address = Some d ->
  let first := computeTracestateValue JSON_stringify unicodeToBase64 address heap in
  computeTracestateValue JSON_stringify unicodeToBase64 address (fst first) = first.
Proof.
  intros Hd first. subst first.
  rewrite (computeTracestateValue_unfold _ _ _ _ _ Hd). cbn [fst].
  rewrite (computeTracestateValue_unfold _ _ _ _ (normalized d))
    by apply lookup_insert_eq.
  now rewrite normalized_idempotent, insert_insert_eq.
Qed.

End Errors_and_repetition.

Lemma computeTracestateValue_wraps_errors_witness :
  exists cause,
    snd (computeTracestateValue
           (fun _ => Throw (TypeError "Converting circular structure to JSON"))
           Encoding.unicodeToBase64 7 {[ 7 := sparse_data ]})
    = Throw (SentryError "[Tracing] Error creating tracestate header" cause).
Proof.
  pose proof (computeTracestateValue_wraps_errors
                (fun _ => Throw (TypeError "Converting circular structure to JSON"))
                Encoding.unicodeToBase64 7 {[ 7 := sparse_data ]} sparse_data
                (lookup_singleton_eq 7 sparse_data)) as H.
  destruct (snd _) as [out|e] in H |- *.
  - destruct H as (json & base64 & [=] & _).
  - destruct H as (cause & -> & _). now exists cause.
Defined.

Lemma computeTracestateValue_idempotent_witness :
  computeTracestateValue JSON_stringify_tracestate Encoding.unicodeToBase64 7
    (fst (computeTracestateValue JSON_stringify_tracestate Encoding.unicodeToBase64 7
            {[ 7 := sparse_data ]}))
  = computeTracestateValue JSON_stringify_tracestate Encoding.unicodeToBase64 7
      {[ 7 := sparse_data ]}.
Proof.
  exact (computeTracestateValue_idempotent JSON_stringify_tracestate
           Encoding.unicodeToBase64 7 {[ 7 := sparse_data ]} sparse_data
           (lookup_singleton_eq 7 sparse_data)).
Defined.

(** ** The header value tells the data apart *)

(** The header value: the base64 digits of the UTF-8 of the JSON text. *)
Lemma computeTracestateValue_value
    (address : nat) (heap : gmap nat TracestateData) (d : TracestateData) :
  heap !! address = Some d ->
  snd (computeTracestateValue JSON_stringify_tracestate unicodeToBase64 address heap)
  = Normal (string_of_list_ascii
              (base64_digits (utf8_encode (JSON.stringify (properties (normalized d)))))).
Proof.
  intros Hd. rewrite (computeTracestateValue_unfold _ _ _ _ _ Hd). cbn [snd].
  unfold JSON_stringify_tracestate at 1, unicodeToBase64 at 1. cbn [cbind].
  destruct (base64_encode_digits
              (utf8_encode (JSON.stringify (properties (normalized d)))))
    as (pad & -> & Hpad).
  now rewrite String_replace_PADDING_REGEXP
    by (auto using base64_digits_not_padding).
Qed.

Lemma header_value_injective (json json' : ustring) :
  isWellFormed json = true -> isWellFormed json' = true ->
  @Normal string (string_of_list_ascii (base64_digits (utf8_encode json)))
  = Normal (string_of_list_ascii (base64_digits (utf8_encode json'))) ->
  json = json'.
Proof.
  intros Hwf Hwf' E. assert (E' : Some json = Some json'); [|now injection E'].
  rewrite <- (base64ToUnicode_digits json Hwf), <- (base64ToUnicode_digits json' Hwf').
  now injection E as ->.
Qed.

Lemma stringify_injective (o o' : JSON.object) :
  JSON.stringify o = JSON.stringify o' -> o = o'.
Proof.
  intros E. assert (E' : Some o = Some o'); [|now injection E'].
  rewrite <- (parse_stringify o), <- (parse_stringify o'). now rewrite E.
Qed.

Lemma or_null_read_back (v v' : nullable_string) :
  read_back v = read_back v' -> or_null v = or_null v'.
Proof.
  destruct v as [| |[|u s]], v' as [| |[|u' s']]; cbn; try reflexivity; try discriminate.
  now intros [= -> ->].
Qed.

Lemma key_name_injective (k k' : key) : key_name k = key_name k' -> k = k'.
Proof.
  intros E. apply key_eqb_eq. rewrite <- ustring_eqb_key_name, E.
  destruct k'; reflexivity.
Qed.

(** The members written for two objects are the same only if the keys
    are in the same order and have the same values. *)
Lemma members_injective (f f' : key -> option ustring) (keys keys' : list key) :
  map (fun k => (key_name k, f k)) keys = map (fun k => (key_name k, f' k)) keys' ->
  keys = keys' /\ forall k, In k keys -> f k = f' k.
Proof.
  revert keys'. induction keys as [|k keys IH]; intros [|k' keys'] E; try discriminate E.
  - split; [reflexivity|]. intros k [].
  - cbn [map] in E. injection E as Hname Hvalue E.
    apply key_name_injective in Hname. subst k'.
    destruct (IH keys' E) as [-> Hvalues].
    split; [reflexivity|]. intros k0 [<- | Hin]; auto.
Qed.

(** X20: two header values (with the engine's [JSON.stringify] and the
    UTF-8 base64 of [unicodeToBase64]) are equal exactly when the objects
    are equal once normalised, the order of their keys included: an
    [environment] or [release] that is undefined, null or empty is not
    told apart; everything else is, and so are two objects with the same
    values whose keys are in another order. *)
Theorem computeTracestateValue_injective
    (address address' : nat) (heap heap' : gmap nat TracestateData)
    (d d' : TracestateData) :
  heap !! address = Some d ->
  heap' !! address' = Some d' ->
  Permutation (own_keys d) declared_keys ->
  Permutation (own_keys d') declared_keys ->
  snd (computeTracestateValue JSON_stringify_tracestate unicodeToBase64 address heap)
  = snd (computeTracestateValue JSON_stringify_tracestate unicodeToBase64 address' heap')
  <-> normalized d = normalized d'.
Proof.
  intros Hd Hd' Hkeys Hkeys'.
  rewrite (computeTracestateValue_value _ _ _ Hd), (computeTracestateValue_value _ _ _ Hd').
  split; [|now intros ->].
  intros E.
  apply header_value_injective in E; [|apply isWellFormed_stringify..].
  apply stringify_injective in E. rewrite !properties_normalized in E.
  apply members_injective in E as [Eorder Evalues].
  assert (Hin : forall k, In k (own_keys (normalized d))).
  { intros k. rewrite own_keys_normalized by now apply In_declared_keys.
    now apply In_declared_keys. }
  pose proof (Evalues Key_trace_id (Hin _)) as Ht.
  pose proof (Evalues Key_environment (Hin _)) as He.
  pose proof (Evalues Key_release (Hin _)) as Hr.
  pose proof (Evalues Key_public_key (Hin _)) as Hk.
  cbn [read_value] in Ht, He, Hr, Hk.
  injection Ht as Ht. injection Hk as Hk.
  cbn [own_keys normalized] in Eorder.
  unfold normalized. rewrite Eorder, Ht, Hk.
  now rewrite (or_null_read_back _ _ He), (or_null_read_back _ _ Hr).
Qed.

(** [reversed_data] once normalised and as it is: one header for the
    two, and another one than that of [sparse_data]. *)
Lemma computeTracestateValue_injective_witness :
  snd (computeTracestateValue JSON_stringify_tracestate unicodeToBase64 7
         {[ 7 := reversed_data ]})
  = snd (computeTracestateValue JSON_stringify_tracestate unicodeToBase64 3
           {[ 3 := normalized reversed_data ]}) /\
  snd (computeTracestateValue JSON_stringify_tracestate unicodeToBase64 7
         {[ 7 := reversed_data ]})
  <> snd (computeTracestateValue JSON_stringify_tracestate unicodeToBase64 3
            {[ 3 := sparse_data ]}).
Proof.
  split.
  - exact (proj2 (computeTracestateValue_injective 7 3 {[ 7 := reversed_data ]}
                    {[ 3 := normalized reversed_data ]}
                    reversed_data (normalized reversed_data)
                    (lookup_singleton_eq 7 _) (lookup_singleton_eq 3 _)
                    (Permutation_sym (Permutation_rev declared_keys))
                    (Permutation_sym (Permutation_rev declared_keys))) eq_refl).
  - intros E.
    apply (proj1 (computeTracestateValue_injective 7 3 {[ 7 := reversed_data ]}
                    {[ 3 := sparse_data ]} reversed_data sparse_data
                    (lookup_singleton_eq 7 _) (lookup_singleton_eq 3 _)
                    (Permutation_sym (Permutation_rev declared_keys))
                    (Permutation_refl declared_keys))) in E.
    discriminate E.
Defined.

(** ** Stripping the padding of any text *)

Lemma only_padding_is_padding (s : list ascii) :
  only_padding s = true <-> s = [padding] \/ s = [padding; padding].
Proof.
  destruct s as [|a [|b [|? ?]]]; cbn; rewrite ?andb_true_iff, ?Ascii.eqb_eq;
    split; try discriminate; try tauto;
    try (intros [? | ?]; discriminate); try (intros [[= ->] | [=]]; auto);
    try (intros [[=] | [= -> ->]]; auto).
  - intros ->. auto.
  - intros [-> ->]. auto.
Qed.

(** [/={1,2}$/] at a position matches what is left if that is [=] or
    [==], and nothing else. *)
Lemma compile_PADDING_REGEXP (Input s : list ascii) :
  compile Input PADDING_REGEXP {| rest := s; captures := [] |} Some
  = if only_padding s then Some {| rest := []; captures := [] |} else None.
Proof.
  destruct (only_padding s) eqn:E.
  - apply only_padding_is_padding in E. unfold PADDING_REGEXP. rewrite compile_Seq_eq.
    destruct E as [-> | ->].
    + rewrite (class_greedy Input (Ascii.eqb "=") 1 (Some 2) [padding] [] _ _
                 {| rest := []; captures := [] |}); cbn; auto.
      intros ? [= <-]; lia.
    + rewrite (class_greedy Input (Ascii.eqb "=") 1 (Some 2) [padding; padding] [] _ _
                 {| rest := []; captures := [] |}); cbn; auto.
      intros ? [= <-]; lia.
  - unfold PADDING_REGEXP. rewrite compile_Seq_eq. cbn [compile rest parens].
    apply RepeatMatcher_class_none; [intros k [= <-]; lia|].
    intros w s' -> Hw Hmin Hlen. cbn.
    destruct s' as [|? ?]; [|reflexivity]. exfalso.
    rewrite app_nil_r in E. specialize (Hlen 2 eq_refl).
    destruct w as [|a [|b [|? ?]]]; cbn [length] in *; try lia.
    + cbn [forallb] in Hw. rewrite andb_true_r in Hw.
      apply Ascii.eqb_eq in Hw as <-. discriminate E.
    + cbn [forallb] in Hw. rewrite andb_true_r in Hw.
      apply andb_true_iff in Hw as [Ha Hb].
      apply Ascii.eqb_eq in Ha as <-. apply Ascii.eqb_eq in Hb as <-. discriminate E.
Qed.

Lemma search_PADDING_REGEXP_any (Input : list ascii) :
  forall s k,
    exists body pad,
      s = (body ++ pad)%list /\ is_padding pad /\
      search Input PADDING_REGEXP k s
      = match pad with
        | [] => None
        | _ => Some {| index := k + length body; matched := pad; groups := [] |}
        end /\
      (pad = [] -> ends_without_padding s) /\
      (pad = [padding] -> ends_without_padding body).
Proof.
  induction s as [|a tl IH]; intros k.
  - exists [], []. split; [reflexivity|]. split; [now left|].
    split; [|split; [|discriminate]].
    + cbn [search]. change (replicate (length (parens PADDING_REGEXP)) None)
        with (@nil (option (list ascii))).
      now rewrite compile_PADDING_REGEXP.
    + intros _ body E. now destruct body.
  - cbn [search]. change (replicate (length (parens PADDING_REGEXP)) None)
      with (@nil (option (list ascii))).
    rewrite compile_PADDING_REGEXP.
    destruct (only_padding (a :: tl)) eqn:E.
    + apply only_padding_is_padding in E.
      exists [], (a :: tl). cbn [app length rest]. rewrite Nat.add_0_r, Nat.sub_0_r.
      change (S (length tl)) with (length (a :: tl)). rewrite firstn_all. split; [reflexivity|]. split; [|split; [reflexivity|split]].
      * destruct E as [E | E]; rewrite E; [right; now left|right; now right].
      * discriminate.
      * intros _ body Hb. now destruct body.
    + destruct (IH (S k)) as (body & pad & -> & Hpad & Hsearch & Hnone & Hone).
      exists (a :: body), pad. rewrite Hsearch. cbn [app length].
      rewrite Nat.add_succ_r. split; [reflexivity|]. split; [exact Hpad|].
      split; [reflexivity|split].
      * intros -> b Hb. rewrite app_nil_r in *.
        destruct b as [|x b]; cbn in Hb.
        -- injection Hb as -> ->. discriminate E.
        -- injection Hb as -> Hb. now apply (Hnone eq_refl b).
      * intros -> b Hb.
        destruct b as [|x b]; cbn in Hb.
        -- injection Hb as -> ->. discriminate E.
        -- injection Hb as -> Hb. now apply (Hone eq_refl b).
Qed.

Lemma ends_with_padding_false (l : list ascii) :
  ends_without_padding l -> ends_with "=" (string_of_list_ascii l) = false.
Proof.
  intros H. unfold ends_with. rewrite list_ascii_of_string_of_list_ascii.
  destruct (rev l) as [|last r] eqn:E; [reflexivity|].
  apply Ascii.eqb_neq. intros ->.
  apply (H (rev r)). rewrite <- (rev_involutive l), E. reflexivity.
Qed.

(** [text.replace(/={1,2}$/, '')] for any text. *)
Lemma String_replace_padding_any (text : string) :
  exists body pad,
    text = body ++ pad /\
    String_replace text PADDING_REGEXP "" = body /\
    (pad = "" \/ pad = "=" \/ pad = "==") /\
    (pad = "" -> ends_with "=" text = false) /\
    (pad = "=" -> ends_with "=" body = false).
Proof.
  destruct (search_PADDING_REGEXP_any (list_ascii_of_string text)
              (list_ascii_of_string text) 0)
    as (body & pad & E & Hpad & Hsearch & Hnone & Hone).
  exists (string_of_list_ascii body), (string_of_list_ascii pad).
  assert (Etext : text = string_of_list_ascii body ++ string_of_list_ascii pad).
  { now rewrite <- string_of_list_ascii_app, <- E, string_of_list_ascii_of_string. }
  split; [exact Etext|]. split; [|split; [|split]].
  - unfold String_replace, exec. rewrite Hsearch.
    destruct pad as [|p pad].
    + rewrite app_nil_r in E. now rewrite <- E, string_of_list_ascii_of_string.
    + cbn [index matched list_ascii_of_string app Nat.add]. rewrite E.
      rewrite take_app_length, drop_ge by (rewrite length_app; cbn; lia).
      now rewrite app_nil_r.
  - destruct Hpad as [-> | [-> | ->]]; auto.
  - intros Hp. assert (pad = []) as -> by (destruct pad; [reflexivity|discriminate]).
    rewrite <- (string_of_list_ascii_of_string text).
    now apply ends_with_padding_false, Hnone.
  - intros Hp. assert (pad = [padding]) as ->.
    { destruct pad as [|x [|? ?]]; try discriminate. now injection Hp as ->. }
    now apply ends_with_padding_false, Hone.
Qed.

Section Any_encoder.
Variable JSON_stringify : TracestateData -> completion ustring.
Variable unicodeToBase64 : ustring -> completion string.

(** X21: what is stripped, whatever text [unicodeToBase64] returns: the
    result is that text without its last [=] or its last two, and nothing
    else is removed.  Of a text that ends with three [=] or more, the last
    two are removed and the result still ends with [=]. *)
Theorem computeTracestateValue_strips_padding
    (address : nat) (heap : gmap nat TracestateData) (d : TracestateData)
    (json : ustring) (base64 : string) :
  heap !! address = Some d ->
  JSON_stringify (normalized d) = Normal json ->
  unicodeToBase64 json = Normal base64 ->
  exists out pad,
    snd (computeTracestateValue JSON_stringify unicodeToBase64 address heap) = Normal out /\
    base64 = out ++ pad /\
    (pad = "" \/ pad = "=" \/ pad = "==") /\
    (pad = "" -> ends_with "=" base64 = false) /\
    (pad = "=" -> ends_with "=" out = false).
Proof.
  intros Hd Hj Hb. rewrite (computeTracestateValue_unfold _ _ _ _ _ Hd). cbn [snd].
  rewrite Hj. cbn [cbind]. rewrite Hb.
  destruct (String_replace_padding_any base64) as (body & pad & E & Hr & H).
  exists body, pad. now rewrite Hr.
Qed.

End Any_encoder.

Lemma computeTracestateValue_strips_padding_witness :
  exists out pad,
    snd (computeTracestateValue (fun _ => Normal (of_string "{}"))
           (fun _ => Normal "e30===") 7 {[ 7 := sparse_data ]}) = Normal out /\
    "e30===" = out ++ pad /\
    (pad = "" \/ pad = "=" \/ pad = "==").
Proof.
  destruct (computeTracestateValue_strips_padding
              (fun _ => Normal (of_string "{}")) (fun _ => Normal "e30===") 7
              {[ 7 := sparse_data ]} sparse_data (of_string "{}") "e30==="
              (lookup_singleton_eq 7 sparse_data) eq_refl eq_refl)
    as (out & pad & H1 & H2 & H3 & _).
  exists out, pad. auto.
Defined.

End TracestateFacts.

(* ===================================================================== *)
(** * [isValidSampleRate] and [sample] *)
(* ===================================================================== *)

Module HubExtensionsFacts.
Import JS Effects Utils Types HubExtensions EffectsFacts FloatFacts.

Ltac run_effects :=
  unfold sample, decide, sampleRate, isValidSampleRate, return_transaction, setMetadata,
    initSpanRecorder, set_sampled, logger, Math_random, bind, ret, throw, lift, get,
    modify in *;
  cbn [fst snd] in *.

(** ** The validator *)

Lemma isValidSampleRate_boolean (b : bool) (w : World) :
  isValidSampleRate (bool_value b) w = (w, Normal true).
Proof. destruct b; reflexivity. Qed.

Lemma isValidSampleRate_number (n : number) (w : World) :
  exists w', isValidSampleRate (num n) w
             = (w', Normal (PrimFloat.leb 0 n && PrimFloat.leb n 1)).
Proof.
  run_effects. unfold isNaN, lessThan, ToNumber; cbn.
  destruct (is_nan n) eqn:Hnan; cbn.
  - eexists. f_equal. f_equal.
    destruct (PrimFloat.leb 0 n) eqn:H0; [|reflexivity].
    apply leb_true_not_nan in H0 as [_ H0]. congruence.
  - assert (Hz : is_nan 0%float = false) by reflexivity.
    assert (Ho : is_nan 1%float = false) by reflexivity.
    rewrite (ltb_negb_leb n 0%float Hnan Hz), (ltb_negb_leb 1%float n Ho Hnan).
    destruct (PrimFloat.leb 0 n); cbn; [|eauto].
    destruct (PrimFloat.leb n 1); cbn; eauto.
Qed.

(** Anything that is neither a number nor a boolean is never accepted. *)
Lemma isValidSampleRate_other_type (rate : value) (w w' : World) (b : bool) :
  type_tag_eqb (typeof rate) TNumber || type_tag_eqb (typeof rate) TBoolean = false ->
  isValidSampleRate rate w = (w', Normal b) -> b = false.
Proof.
  intros Hty. run_effects. rewrite Hty.
  destruct (isNaN rate) as [nan|]; [|discriminate].
  rewrite orb_true_r.
  destruct (JSON_stringify rate); [|discriminate].
  now intros [= _ <-].
Qed.

(** It returns (and does not throw) on every value whose conversion to a
    number and whose serialisation return. *)
Lemma isValidSampleRate_returns (rate : value) (w : World) (n : number) (j : option json) :
  ToNumber rate = Normal n -> JSON_stringify rate = Normal j ->
  exists w' b, isValidSampleRate rate w = (w', Normal b).
Proof.
  intros Hn Hj. run_effects. unfold isNaN, lessThan. rewrite Hn, Hj. cbn.
  repeat match goal with
         | |- context [if ?c then _ else _] => destruct c; cbn
         end; eauto.
Qed.

(** X1: [isValidSampleRate] returns [true] exactly on the booleans and on
    the numbers of the closed interval from 0 to 1; [NaN], every other
    number and every value of another type are never accepted. *)
Theorem isValidSampleRate_true_iff (rate : value) (w : World) :
  (exists w', isValidSampleRate rate w = (w', Normal true)) <->
  (exists b, rate = bool_value b) \/
  (exists n, rate = num n /\ PrimFloat.leb 0 n = true /\ PrimFloat.leb n 1 = true).
Proof.
  split.
  - intros [w' H].
    destruct rate as [[| |b|n| | |]|o];
      try (apply isValidSampleRate_other_type in H; [discriminate|];
           cbn; try reflexivity; now destruct (callable o)).
    + left; eauto.
    + right. exists n. split; [reflexivity|].
      destruct (isValidSampleRate_number n w) as [w'' H'].
      unfold num in H'. rewrite H in H'. injection H' as _ H'. symmetry in H'.
      now apply andb_true_iff in H'.
  - intros [[b ->]|(n & -> & H0 & H1)].
    + eexists. apply isValidSampleRate_boolean.
    + destruct (isValidSampleRate_number n w) as [w' H].
      rewrite H0, H1 in H. eauto.
Qed.

(** C4 (at the values on which the code departs from it): on a BigInt and
    on a symbol [isValidSampleRate] does not return [false]: the global
    [isNaN] converts its argument to a number first, and that conversion
    throws a TypeError, which nothing catches.  Nor does it return on an
    object with a cycle: the warning is built with [JSON.stringify], which
    throws on it. *)
Theorem isValidSampleRate_throws_on_bigint_and_symbol (w : World) :
  (forall z, isValidSampleRate (VPrim (PBigInt z)) w
             = (w, Throw (TypeError "Cannot convert a BigInt value to a number"))) /\
  (forall d, isValidSampleRate (VPrim (PSymbol d)) w
             = (w, Throw (TypeError "Cannot convert a Symbol value to a number"))) /\
  isValidSampleRate (VObject cyclic_object) w
  = (w, Throw (TypeError "Converting circular structure to JSON")).
Proof. repeat split; reflexivity. Qed.

(** ** The decision *)

(** Nothing after the choice of the sample rate writes the metadata. *)
Lemma decide_keeps_metadata (o : Options) (r : value) (w : World) :
  metadata (transaction (fst (decide o r w))) = metadata (transaction w).
Proof.
  run_effects.
  repeat match goal with
         | |- context [match ?c with _ => _ end] =>
             lazymatch type of c with
             | completion _ => destruct c
             | bool => destruct c
             end; cbn
         end; reflexivity.
Qed.

(** Of the options, the decision reads the sampler (whether it is a
    function) and the experiments, and not the configured rate. *)
Lemma decide_reads (o o' : Options) (r : value) (w : World) :
  tracesSampler o' = tracesSampler o -> _experiments o' = _experiments o ->
  decide o' r w = decide o r w.
Proof.
  intros Hs He. unfold decide, sampler_is_function, experiments_maxSpans.
  now rewrite Hs, He.
Qed.

(** With a client, tracing enabled and no decision yet, [sample] is the
    choice of the sample rate followed by the decision. *)
Lemma sample_undecided (hub : Hub) (client : Client) (ctx : SamplingContext) (w : World) :
  getClient hub = Some client ->
  hasTracingEnabled (options client) = true ->
  sampled (transaction w) = None ->
  sample hub ctx w = bind (sampleRate (options client) ctx) (decide (options client)) w.
Proof.
  intros Hc Hen Hs. unfold sample. rewrite Hc. cbn [has_key client_options negb orb].
  rewrite Hen. cbn [negb]. unfold bind at 1, get. now rewrite Hs.
Qed.

(** The three sources of the sample rate. *)
Lemma sampleRate_sampler (o : Options) (ctx : SamplingContext) (w : World)
    (sampler : SamplingContext -> completion value) (r : value) (n : number) :
  tracesSampler o = Some (Some sampler) ->
  sampler ctx = Normal r -> Number r = Normal n ->
  sampleRate o ctx w = (recorded {| method := Sampler; rate := Some n |} w, Normal r).
Proof.
  intros Hsam Hr Hn. unfold sampleRate. rewrite Hsam.
  unfold bind, lift, ret, recorded, setMetadata, modify. now rewrite Hr, Hn.
Qed.

Lemma sampleRate_inherited (o : Options) (ctx : SamplingContext) (w : World) :
  sampler_is_function o = false ->
  is_undefined (parentSampled ctx) = false ->
  sampleRate o ctx w
  = (recorded {| method := Inheritance; rate := None |} w, Normal (parentSampled ctx)).
Proof.
  intros Hnf Hdef. unfold sampleRate, sampler_is_function in *.
  destruct (tracesSampler o) as [[?|]|]; try discriminate; now rewrite Hdef.
Qed.

Lemma sampleRate_configured (o : Options) (ctx : SamplingContext) (w : World) (n : number) :
  sampler_is_function o = false ->
  is_undefined (parentSampled ctx) = true ->
  Number (read_tracesSampleRate o) = Normal n ->
  sampleRate o ctx w
  = (recorded {| method := Rate; rate := Some n |} w, Normal (read_tracesSampleRate o)).
Proof.
  intros Hnf Hundef Hn. unfold sampleRate, sampler_is_function in *.
  destruct (tracesSampler o) as [[?|]|]; try discriminate; rewrite Hundef; cbn [negb];
    unfold bind, lift, ret, recorded, setMetadata, modify; now rewrite Hn.
Qed.

(** C1 (at a value on which the code departs from it): with a client
    and no decision yet, a symbol for a sample rate, from a sampler that is
    a function or, without such a sampler and without an inherited
    decision, from [tracesSampleRate], is not made the candidate rate, and
    no provenance is recorded: the cast [Number(sampleRate)] for the
    metadata throws a TypeError before anything is written.  [sample] does
    not catch it; the transaction and the rest of the state are as they
    were, and [sampled] stays undefined. *)
Theorem sample_throws_on_symbol_rate
    (hub : Hub) (client : Client) (ctx : SamplingContext) (w : World) (d : string) :
  getClient hub = Some client ->
  sampled (transaction w) = None ->
  let o := options client in
  (forall sampler,
      tracesSampler o = Some (Some sampler) ->
      sampler ctx = Normal (VPrim (PSymbol d)) ->
      sample hub ctx w
      = (w, Throw (TypeError "Cannot convert a Symbol value to a number"))) /\
  (sampler_is_function o = false ->
   is_undefined (parentSampled ctx) = true ->
   tracesSampleRate o = Some (VPrim (PSymbol d)) ->
      sample hub ctx w
      = (w, Throw (TypeError "Cannot convert a Symbol value to a number"))).
Proof.
  intros Hc Hs o. subst o. split.
  - intros sampler Hsam Hr.
    assert (Hen : hasTracingEnabled (options client) = true)
      by (unfold hasTracingEnabled; rewrite Hsam; apply orb_true_r).
    rewrite (sample_undecided hub client ctx w Hc Hen Hs).
    unfold bind at 1, sampleRate. rewrite Hsam. unfold bind at 1, lift. now rewrite Hr.
  - intros Hnf Hundef Hrate.
    assert (Hen : hasTracingEnabled (options client) = true)
      by (unfold hasTracingEnabled; now rewrite Hrate).
    rewrite (sample_undecided hub client ctx w Hc Hen Hs).
    unfold sampler_is_function in Hnf.
    unfold bind at 1, sampleRate, read_tracesSampleRate. rewrite Hrate.
    destruct (tracesSampler (options client)) as [[?|]|]; try discriminate;
      now rewrite Hundef.
Qed.

Lemma sample_throws_on_symbol_rate_witness :
  sample (hub_of (options_with_sampler (Normal (VPrim (PSymbol "rate"))))) plain_context
    (world_of fresh_transaction)
  = (world_of fresh_transaction,
     Throw (TypeError "Cannot convert a Symbol value to a number")) /\
  sample (hub_of (options_with_rate (VPrim (PSymbol "rate")))) plain_context
    (world_of fresh_transaction)
  = (world_of fresh_transaction,
     Throw (TypeError "Cannot convert a Symbol value to a number")) /\
  sampled (transaction (world_of fresh_transaction)) = None /\
  transactionSampling (metadata (transaction (world_of fresh_transaction))) = None.
Proof.
  split; [|split; [|split; reflexivity]].
  - exact (proj1 (sample_throws_on_symbol_rate
             (hub_of (options_with_sampler (Normal (VPrim (PSymbol "rate")))))
             {| options := options_with_sampler (Normal (VPrim (PSymbol "rate"))) |}
             plain_context (world_of fresh_transaction) "rate" eq_refl eq_refl)
           (fun _ => Normal (VPrim (PSymbol "rate"))) eq_refl eq_refl).
  - exact (proj2 (sample_throws_on_symbol_rate
             (hub_of (options_with_rate (VPrim (PSymbol "rate"))))
             {| options := options_with_rate (VPrim (PSymbol "rate")) |}
             plain_context (world_of fresh_transaction) "rate" eq_refl eq_refl)
           eq_refl eq_refl eq_refl).
Defined.

(** X28: the order of the sources, on rates that [Number] converts.  With
    a client, tracing enabled and no decision yet, the sample rate comes
    from the first source that applies, in this order: the sampler if it is
    a function (called on the whole sampling context, its result cast to a
    number for the metadata), else a defined [parentSampled], else
    [tracesSampleRate] (cast likewise; [undefined], cast to [NaN], when the
    options have no such key).  The decision is then taken on that rate
    alone, and the provenance written first is what the transaction ends
    with.  No case reads a later source. *)
Theorem sample_precedence (hub : Hub) (client : Client) (ctx : SamplingContext) (w : World) :
  getClient hub = Some client ->
  hasTracingEnabled (options client) = true ->
  sampled (transaction w) = None ->
  let o := options client in
  (forall sampler r n,
      tracesSampler o = Some (Some sampler) ->
      sampler ctx = Normal r -> Number r = Normal n ->
      let ts := {| method := Sampler; rate := Some n |} in
      sample hub ctx w = decide o r (recorded ts w) /\
      transactionSampling (metadata (transaction (fst (sample hub ctx w)))) = Some ts) /\
  (sampler_is_function o = false ->
   is_undefined (parentSampled ctx) = false ->
      let ts := {| method := Inheritance; rate := None |} in
      sample hub ctx w = decide o (parentSampled ctx) (recorded ts w) /\
      transactionSampling (metadata (transaction (fst (sample hub ctx w)))) = Some ts) /\
  (forall r n,
      sampler_is_function o = false ->
      is_undefined (parentSampled ctx) = true ->
      tracesSampleRate o = Some r ->
      Number r = Normal n ->
      let ts := {| method := Rate; rate := Some n |} in
      sample hub ctx w = decide o r (recorded ts w) /\
      transactionSampling (metadata (transaction (fst (sample hub ctx w)))) = Some ts) /\
  (sampler_is_function o = false ->
   is_undefined (parentSampled ctx) = true ->
   tracesSampleRate o = None ->
      let ts := {| method := Rate; rate := Some nan |} in
      sample hub ctx w = decide o undefined (recorded ts w) /\
      transactionSampling (metadata (transaction (fst (sample hub ctx w)))) = Some ts) /\
  (forall o' r w',
      tracesSampler o' = tracesSampler o -> _experiments o' = _experiments o ->
      decide o' r w' = decide o r w').
Proof.
  intros Hc Hen Hs o. subst o.
  rewrite (sample_undecided hub client ctx w Hc Hen Hs).
  split; [|split; [|split; [|split]]]; [| | | |apply decide_reads].
  - intros sampler r n Hsam Hr Hn.
    rewrite (bind_normal _ _ _ _ _ (sampleRate_sampler _ ctx w sampler r n Hsam Hr Hn)).
    split; [reflexivity|]. now rewrite decide_keeps_metadata.
  - intros Hnf Hdef.
    rewrite (bind_normal _ _ _ _ _ (sampleRate_inherited _ ctx w Hnf Hdef)).
    split; [reflexivity|]. now rewrite decide_keeps_metadata.
  - intros r n Hnf Hundef Hrate Hn.
    assert (Hread : read_tracesSampleRate (options client) = r)
      by (unfold read_tracesSampleRate; now rewrite Hrate).
    rewrite <- Hread in Hn.
    rewrite (bind_normal _ _ _ _ _ (sampleRate_configured _ ctx w n Hnf Hundef Hn)).
    rewrite Hread. split; [reflexivity|]. now rewrite decide_keeps_metadata.
  - intros Hnf Hundef Hrate.
    assert (Hread : read_tracesSampleRate (options client) = undefined)
      by (unfold read_tracesSampleRate; now rewrite Hrate).
    assert (Hn : Number (read_tracesSampleRate (options client)) = Normal nan)
      by now rewrite Hread.
    rewrite (bind_normal _ _ _ _ _ (sampleRate_configured _ ctx w nan Hnf Hundef Hn)).
    rewrite Hread. split; [reflexivity|]. now rewrite decide_keeps_metadata.
Qed.

(** One transaction for each of the three sources. *)
Lemma sample_precedence_witness :
  sample (hub_of (options_with_sampler (Normal (num 0.5)))) plain_context
    (world_of fresh_transaction)
  = decide (options_with_sampler (Normal (num 0.5))) (num 0.5)
      (recorded {| method := Sampler; rate := Some 0.5%float |}
         (world_of fresh_transaction)) /\
  sample (hub_of (options_with_rate (num 0.25)))
    {| parentSampled := bool_value true;
       transactionContext := transactionContext plain_context; custom := [] |}
    (world_of fresh_transaction)
  = decide (options_with_rate (num 0.25)) (bool_value true)
      (recorded {| method := Inheritance; rate := None |} (world_of fresh_transaction)) /\
  sample (hub_of (options_with_rate (num 0.25))) plain_context
    (world_of fresh_transaction)
  = decide (options_with_rate (num 0.25)) (num 0.25)
      (recorded {| method := Rate; rate := Some 0.25%float |}
         (world_of fresh_transaction)).
Proof.
  split; [|split].
  - exact (proj1 (proj1 (sample_precedence
             (hub_of (options_with_sampler (Normal (num 0.5))))
             {| options := options_with_sampler (Normal (num 0.5)) |}
             plain_context (world_of fresh_transaction)
             eq_refl eq_refl eq_refl)
           (fun _ => Normal (num 0.5)) (num 0.5) 0.5%float eq_refl eq_refl eq_refl)).
  - exact (proj1 (proj1 (proj2 (sample_precedence
             (hub_of (options_with_rate (num 0.25)))
             {| options := options_with_rate (num 0.25) |}
             {| parentSampled := bool_value true;
                transactionContext := transactionContext plain_context; custom := [] |}
             (world_of fresh_transaction)
             eq_refl eq_refl eq_refl)) eq_refl eq_refl)).
  - exact (proj1 (proj1 (proj2 (proj2 (sample_precedence
             (hub_of (options_with_rate (num 0.25)))
             {| options := options_with_rate (num 0.25) |}
             plain_context (world_of fresh_transaction)
             eq_refl eq_refl eq_refl)))
           (num 0.25) 0.25%float eq_refl eq_refl eq_refl eq_refl)).
Defined.

(** C2 (amended): on a hub with a client whose options enable tracing, a
    transaction that already carries a boolean [sampled] keeps it; the
    pass records the provenance Explicit and does nothing else: it
    returns, logs nothing and draws no random number. *)
Theorem sample_keeps_explicit_decision
  (hub : Hub) (client : Client) (ctx : SamplingContext) (w : World) (b : bool) :
  getClient hub = Some client ->
  hasTracingEnabled (options client) = true ->
  sampled (transaction w) = Some b ->
  sample hub ctx w
  = (recorded {| method := Explicit; rate := None |} w,
     Normal (transaction (recorded {| method := Explicit; rate := None |} w))) /\
  let w' := fst (sample hub ctx w) in
  sampled (transaction w') = Some b /\
  transactionSampling (metadata (transaction w'))
    = Some {| method := Explicit; rate := None |} /\
  spanRecorder (transaction w') = spanRecorder (transaction w) /\
  console w' = console w /\
  draws w' = draws w.
Proof.
  intros Hc Hen Hs.
  assert (E : sample hub ctx w
              = (recorded {| method := Explicit; rate := None |} w,
                 Normal (transaction (recorded {| method := Explicit; rate := None |} w)))).
  { unfold sample. rewrite Hc. cbn [has_key client_options negb orb].
    rewrite Hen. cbn [negb]. unfold bind, get. now rewrite Hs. }
  rewrite E. split; [reflexivity|]. cbn. repeat split; auto.
Qed.

Lemma sample_keeps_explicit_decision_witness :
  sampled (transaction
    (fst (sample (hub_of (options_with_rate (num 0))) plain_context
            (world_of (forced_transaction true))))) = Some true.
Proof.
  apply (sample_keeps_explicit_decision (hub_of (options_with_rate (num 0)))
           {| options := options_with_rate (num 0) |} plain_context
           (world_of (forced_transaction true)) true eq_refl eq_refl eq_refl).
Defined.

(** C2 as stated fails: without a client the pass overwrites a [sampled]
    that was [true] with [false] (and records no provenance). *)
Lemma sample_overwrites_explicit_decision_without_client :
  sampled (transaction (world_of (forced_transaction true))) = Some true /\
  sampled (transaction
    (fst (sample hub_without_client plain_context
            (world_of (forced_transaction true))))) = Some false /\
  transactionSampling (metadata (transaction
    (fst (sample hub_without_client plain_context
            (world_of (forced_transaction true)))))) = None.
Proof. repeat split. Qed.

(** C3: when neither [tracesSampleRate] nor [tracesSampler] is a key of
    the options (or there is no client, whose options are then empty), the
    pass sets [sampled] to [false] whatever it was, returns, and writes
    nothing else: the metadata, the recorder and the log are as before and
    no random number is drawn. *)
Theorem sample_tracing_disabled (hub : Hub) (ctx : SamplingContext) (w : World) :
  hasTracingEnabled (client_options (getClient hub)) = false ->
  sample hub ctx w = (decided false w, Normal (transaction (decided false w))) /\
  let w' := fst (sample hub ctx w) in
  sampled (transaction w') = Some false /\
  metadata (transaction w') = metadata (transaction w) /\
  spanRecorder (transaction w') = spanRecorder (transaction w) /\
  console w' = console w /\
  draws w' = draws w.
Proof.
  intros Hdis.
  assert (E : sample hub ctx w
              = (decided false w, Normal (transaction (decided false w)))).
  { unfold sample. rewrite Hdis. cbn [negb]. now rewrite orb_true_r. }
  rewrite E. split; [reflexivity|]. cbn. repeat split; auto.
Qed.

Lemma sample_tracing_disabled_witness :
  sampled (transaction
    (fst (sample (hub_of empty_options) plain_context
            (world_of (forced_transaction true))))) = Some false.
Proof.
  apply (sample_tracing_disabled (hub_of empty_options) plain_context
           (world_of (forced_transaction true)) eq_refl).
Defined.

(** The decision on a rate of [1] or [true] when the draw is below 1. *)
Lemma decide_keeps (o : Options) (r : value) (w : World) :
  r = num 1 \/ r = bool_value true ->
  PrimFloat.ltb (entropy w (draws w)) 1 = true ->
  let kept :=
    {| name := name (transaction w); op := op (transaction w);
       sampled := Some true; metadata := metadata (transaction w);
       spanRecorder := Some (experiments_maxSpans o) |} in
  decide o r w
  = ({| transaction := kept;
        console := (LevelLog, Starting (op (transaction w)) (name (transaction w)))
                     :: console w;
        entropy := entropy w; draws := S (draws w) |}, Normal kept).
Proof.
  intros Hone Hdraw.
  assert (Hv : isValidSampleRate r w = (w, Normal true))
    by (destruct Hone as [-> | ->]; reflexivity).
  assert (Ht : ToBoolean r = true) by (destruct Hone as [-> | ->]; reflexivity).
  assert (Hlt : lessThan (num (entropy w (draws w))) r = Normal true)
    by (destruct Hone as [-> | ->]; unfold lessThan, ToNumber; cbn -[PrimFloat.ltb];
        now rewrite Hdraw).
  unfold decide, bind at 1. rewrite Hv, Ht. cbn [negb].
  unfold bind at 1, Math_random. unfold bind at 1, lift. rewrite Hlt.
  reflexivity.
Qed.

(** C5: with no decision yet and a sampler that returns [1] or [true],
    every draw of [Math.random] in [0, 1) keeps the transaction: the pass
    returns with [sampled = true], the recorder initialised with the
    configured [maxSpans], one random number drawn, the provenance Sampler
    with rate 1, and the start of the transaction logged.  Against the draw
    a candidate [true] is compared as the number 1. *)
Theorem sample_keeps_on_one_or_true
  (hub : Hub) (client : Client) (ctx : SamplingContext) (w : World)
  (sampler : SamplingContext -> completion value) (r : value) :
  getClient hub = Some client ->
  tracesSampler (options client) = Some (Some sampler) ->
  sampled (transaction w) = None ->
  sampler ctx = Normal r ->
  r = num 1 \/ r = bool_value true ->
  PrimFloat.leb 0 (entropy w (draws w)) = true ->
  PrimFloat.ltb (entropy w (draws w)) 1 = true ->
  let w' := fst (sample hub ctx w) in
  snd (sample hub ctx w) = Normal (transaction w') /\
  sampled (transaction w') = Some true /\
  spanRecorder (transaction w') = Some (experiments_maxSpans (options client)) /\
  draws w' = S (draws w) /\
  transactionSampling (metadata (transaction w'))
    = Some {| method := Sampler; rate := Some 1%float |} /\
  console w'
    = (LevelLog, Starting (op (transaction w)) (name (transaction w))) :: console w /\
  lessThan (num (entropy w (draws w))) (bool_value true)
    = Normal (PrimFloat.ltb (entropy w (draws w)) 1).
Proof.
  intros Hc Hsam Hs Hr Hone _ Hdraw.
  assert (Hen : hasTracingEnabled (options client) = true).
  { unfold hasTracingEnabled. rewrite Hsam. apply orb_true_r. }
  assert (Hn : Number r = Normal 1%float) by (destruct Hone as [-> | ->]; reflexivity).
  rewrite (sample_undecided hub client ctx w Hc Hen Hs).
  rewrite (bind_normal _ _ _ _ _ (sampleRate_sampler _ ctx w sampler r _ Hsam Hr Hn)).
  pose proof (decide_keeps (options client) r
             (recorded {| method := Sampler; rate := Some 1%float |} w) Hone Hdraw) as E.
  rewrite E.
  destruct Hone as [-> | ->]; cbn -[PrimFloat.ltb]; repeat split; reflexivity.
Qed.

Lemma sample_keeps_on_one_or_true_witness :
  sampled (transaction
    (fst (sample (hub_of (options_with_sampler (Normal (bool_value true)))) plain_context
            (world_of fresh_transaction)))) = Some true /\
  spanRecorder (transaction
    (fst (sample (hub_of (options_with_sampler (Normal (bool_value true)))) plain_context
            (world_of fresh_transaction)))) = Some (num 500).
Proof.
  pose proof (sample_keeps_on_one_or_true
           (hub_of (options_with_sampler (Normal (bool_value true))))
           {| options := options_with_sampler (Normal (bool_value true)) |}
           plain_context (world_of fresh_transaction)
           (fun _ => Normal (bool_value true)) (bool_value true)
           eq_refl eq_refl eq_refl eq_refl (or_intror eq_refl) eq_refl eq_refl) as H.
  exact (conj (proj1 (proj2 H)) (proj1 (proj2 (proj2 H)))).
Defined.

(** Where validation returns [false], and where the rate is a valid zero
    or [false], the pass drops the transaction: it returns with
    [sampled = false], draws no random number and leaves the recorder
    alone. *)
Lemma decide_drops (o : Options) (r : value) (w : World) :
  (exists w1, isValidSampleRate r w = (w1, Normal false)) \/
  ((exists w1, isValidSampleRate r w = (w1, Normal true)) /\ ToBoolean r = false) ->
  let w' := fst (decide o r w) in
  snd (decide o r w) = Normal (transaction w') /\
  sampled (transaction w') = Some false /\
  spanRecorder (transaction w') = spanRecorder (transaction w) /\
  draws w' = draws w.
Proof.
  assert (Hframe : forall b w1, isValidSampleRate r w = (w1, Normal b) ->
            spanRecorder (transaction w1) = spanRecorder (transaction w) /\
            draws w1 = draws w).
  { intros b w1. run_effects.
    repeat match goal with
           | |- context [match ?c with _ => _ end] =>
               lazymatch type of c with
               | completion _ => destruct c
               | bool => destruct c
               end; cbn
           end; intros [= <- _]; auto. }
  intros [[w1 Hv] | [[w1 Hv] Hz]]; destruct (Hframe _ _ Hv) as [Hrec Hdr];
    unfold decide; rewrite (bind_normal _ _ _ _ _ Hv); cbn [negb].
  - cbn. repeat split; auto.
  - rewrite Hz. cbn. repeat split; auto.
Qed.

(** X14: with a sampler whose result converts to a number: if the result
    is [0] or [false], or validation returns [false] for it, the pass drops
    the transaction: it returns with [sampled = false], without a draw and
    without a recorder. *)
Theorem sample_drops
    (hub : Hub) (client : Client) (ctx : SamplingContext) (w : World)
    (sampler : SamplingContext -> completion value) (r : value) (n : number) :
  getClient hub = Some client ->
  tracesSampler (options client) = Some (Some sampler) ->
  sampled (transaction w) = None ->
  sampler ctx = Normal r -> Number r = Normal n ->
  r = num 0 \/ r = bool_value false \/
  (exists w1, isValidSampleRate r (recorded {| method := Sampler; rate := Some n |} w)
              = (w1, Normal false)) ->
  let w' := fst (sample hub ctx w) in
  snd (sample hub ctx w) = Normal (transaction w') /\
  sampled (transaction w') = Some false /\
  spanRecorder (transaction w') = spanRecorder (transaction w) /\
  draws w' = draws w.
Proof.
  intros Hc Hsam Hs Hr Hn Hrate.
  assert (Hen : hasTracingEnabled (options client) = true).
  { unfold hasTracingEnabled. rewrite Hsam. apply orb_true_r. }
  rewrite (sample_undecided hub client ctx w Hc Hen Hs).
  rewrite (bind_normal _ _ _ _ _ (sampleRate_sampler _ ctx w sampler r n Hsam Hr Hn)).
  apply (decide_drops (options client) r
           (recorded {| method := Sampler; rate := Some n |} w)).
  destruct Hrate as [-> | [-> | Hv]]; [right|right|left; exact Hv];
    (split; [eexists; reflexivity|reflexivity]).
Qed.

Lemma sample_drops_witness :
  sampled (transaction
    (fst (sample (hub_of (options_with_sampler (Normal (bool_value false)))) plain_context
            (world_of fresh_transaction)))) = Some false.
Proof.
  exact (proj1 (proj2
    (sample_drops (hub_of (options_with_sampler (Normal (bool_value false))))
       {| options := options_with_sampler (Normal (bool_value false)) |}
       plain_context (world_of fresh_transaction)
       (fun _ => Normal (bool_value false)) (bool_value false) 0%float
       eq_refl eq_refl eq_refl eq_refl eq_refl (or_intror (or_introl eq_refl))))).
Defined.

(** C6 (at a value on which the code departs from it): a sampler that
    returns a BigInt, which is of the wrong type for a sample rate, does
    not end in a drop. The metadata is written, then [isValidSampleRate]
    throws the TypeError of [isNaN]; [sample] does not catch it, and
    [sampled] stays undefined. *)
Theorem sample_throws_on_bigint_rate (z : Z) :
  let hub := hub_of (options_with_sampler (Normal (VPrim (PBigInt z)))) in
  let w := world_of fresh_transaction in
  sample hub plain_context w
  = (recorded {| method := Sampler; rate := Some (BigIntToNumber z) |} w,
     Throw (TypeError "Cannot convert a BigInt value to a number")) /\
  sampled (transaction (fst (sample hub plain_context w))) = None.
Proof. split; reflexivity. Qed.

(** The scenarios of the specification: with a configured rate of 0 a
    transaction is dropped, and with a rate of 1 it is kept and gets its
    recorder. *)
Example sample_with_rate_zero :
  sampled (transaction
    (fst (sample (hub_of (options_with_rate (num 0))) plain_context
            (world_of fresh_transaction)))) = Some false.
Proof. reflexivity. Qed.

Example sample_with_rate_one :
  let w' := fst (sample (hub_of (options_with_rate (num 1))) plain_context
                   (world_of fresh_transaction)) in
  sampled (transaction w') = Some true /\
  spanRecorder (transaction w') = Some undefined /\
  transactionSampling (metadata (transaction w'))
  = Some {| method := Rate; rate := Some 1%float |}.
Proof. repeat split. Qed.

(** ** More on the validator and the pass *)

Ltac by_cases :=
  repeat match goal with
         | |- context [match ?c with _ => _ end] =>
             lazymatch type of c with
             | completion _ => destruct c eqn:?
             | bool => destruct c eqn:?
             | option _ => destruct c eqn:?
             end; cbn [fst snd negb]
         end.

Ltac by_cases_in H :=
  repeat match type of H with
         | context [match ?c with _ => _ end] =>
             lazymatch type of c with
             | completion _ => destruct c eqn:?
             | bool => destruct c eqn:?
             | option _ => destruct c eqn:?
             end; cbn [fst snd negb] in H
         end.

(** ** The validator: what it writes *)

(** X3: [isValidSampleRate] touches nothing but the log.  Whatever the
    rate and however the call ends, the transaction and the random draws
    are as before; a call that returns [false] has logged exactly one
    warning, and a call that returns [true] or throws has logged
    nothing. *)
Theorem isValidSampleRate_warns_once (rate : value) (w w' : World) (c : completion bool) :
  isValidSampleRate rate w = (w', c) ->
  transaction w' = transaction w /\ entropy w' = entropy w /\ draws w' = draws w /\
  match c with
  | Normal true => console w' = console w
  | Normal false => exists m, console w' = (LevelWarn, m) :: console w
  | Throw _ => console w' = console w
  end.
Proof.
  intros H. run_effects. by_cases_in H; injection H as <- <-; cbn; eauto 6.
Qed.

Lemma isValidSampleRate_warns_once_witness :
  exists m,
    console (fst (isValidSampleRate (num 2) (world_of fresh_transaction)))
    = [(LevelWarn, m)].
Proof.
  exact (proj2 (proj2 (proj2
    (isValidSampleRate_warns_once (num 2) (world_of fresh_transaction) _ _ eq_refl)))).
Defined.

(** X2: on a primitive value [isValidSampleRate] returns (it does not
    throw) exactly when the value is neither a symbol nor a BigInt:
    undefined, null, booleans, numbers ([NaN] and the infinities among
    them) and strings all get an answer. *)
Theorem isValidSampleRate_total_on_primitives (p : primitive) (w : World) :
  (exists w' b, isValidSampleRate (VPrim p) w = (w', Normal b)) <->
  (forall d, p <> PSymbol d) /\ (forall z, p <> PBigInt z).
Proof.
  split.
  - intros (w' & b & H). split; intros x ->; discriminate.
  - intros [Hs Hb].
    destruct p as [| |b|n|s n|d|z]; try (now destruct (Hs d)); try (now destruct (Hb z));
      eapply isValidSampleRate_returns; reflexivity.
Qed.

(** ** The pass: what always holds *)

(** A decision that returns has set [sampled], and has created the recorder
    exactly where it set [true], after a draw. *)
Lemma decide_returns_decided (o : Options) (r : value) (w w' : World) (t : Transaction) :
  decide o r w = (w', Normal t) ->
  t = transaction w' /\
  ((sampled t = Some true /\ spanRecorder t = Some (experiments_maxSpans o) /\
    draws w' = S (draws w)) \/
   (sampled t = Some false /\ spanRecorder t = spanRecorder (transaction w))).
Proof.
  intros H. run_effects. by_cases_in H; try discriminate; injection H as <- <-;
    repeat match goal with
           | E : negb ?b = _ |- _ => destruct b; try discriminate E; clear E
           end; cbn; auto.
Qed.

(** Choosing the sample rate writes the metadata and nothing else. *)
Lemma sampleRate_frame (o : Options) (ctx : SamplingContext) (w w' : World)
    (c : completion value) :
  sampleRate o ctx w = (w', c) ->
  name (transaction w') = name (transaction w) /\
  op (transaction w') = op (transaction w) /\
  sampled (transaction w') = sampled (transaction w) /\
  spanRecorder (transaction w') = spanRecorder (transaction w) /\
  console w' = console w /\ entropy w' = entropy w /\ draws w' = draws w.
Proof.
  intros H. run_effects. by_cases_in H; injection H as <- <-; cbn; auto 10.
Qed.

Ltac frame_done :=
  cbn;
  (split; [reflexivity|split; [reflexivity|split; [reflexivity|split; [auto|]]]]);
  first [ exists []; split; [reflexivity|cbn; lia]
        | eexists [_]; split; [reflexivity|cbn; lia]
        | eexists [_; _]; split; [reflexivity|cbn; lia] ].

(** What the decision leaves alone. *)
Lemma decide_frame (o : Options) (r : value) (w : World) :
  let w' := fst (decide o r w) in
  name (transaction w') = name (transaction w) /\
  op (transaction w') = op (transaction w) /\
  entropy w' = entropy w /\
  (draws w' = draws w \/ draws w' = S (draws w)) /\
  exists l, console w' = (l ++ console w)%list /\ length l <= 2.
Proof.
  run_effects. by_cases; frame_done.
Qed.

(** The two ways into the pass: the guard of lines 40-44 holds, or not. *)
Lemma sample_disabled (hub : Hub) (ctx : SamplingContext) (w : World) :
  negb (has_key (getClient hub))
  || negb (hasTracingEnabled (client_options (getClient hub))) = true ->
  sample hub ctx w = (decided false w, Normal (transaction (decided false w))).
Proof. intros H. unfold sample. now rewrite H. Qed.

Lemma sample_enabled (hub : Hub) (ctx : SamplingContext) (w : World) :
  negb (has_key (getClient hub))
  || negb (hasTracingEnabled (client_options (getClient hub))) = false ->
  sample hub ctx w
  = match sampled (transaction w) with
    | Some _ =>
        (recorded {| method := Explicit; rate := None |} w,
         Normal (transaction (recorded {| method := Explicit; rate := None |} w)))
    | None =>
        bind (sampleRate (client_options (getClient hub)) ctx)
             (decide (client_options (getClient hub))) w
    end.
Proof.
  intros H. unfold sample. rewrite H. unfold bind at 1, get.
  now destruct (sampled (transaction w)).
Qed.

(** A pass that returns has decided. *)
Lemma sample_decides (hub : Hub) (ctx : SamplingContext) (w w' : World) (t : Transaction) :
  sample hub ctx w = (w', Normal t) ->
  t = transaction w' /\ exists b, sampled t = Some b.
Proof.
  intros H.
  destruct (negb (has_key (getClient hub))
            || negb (hasTracingEnabled (client_options (getClient hub)))) eqn:G.
  - rewrite sample_disabled in H by exact G. injection H as <- <-. cbn. eauto.
  - rewrite sample_enabled in H by exact G.
    destruct (sampled (transaction w)) as [b|] eqn:Hs.
    + injection H as <- <-. cbn. eauto.
    + unfold bind in H.
      destruct (sampleRate _ ctx w) as [w1 [r|e]]; [|discriminate].
      apply decide_returns_decided in H as [-> [(-> & _) | (-> & _)]]; eauto.
Qed.

(** X4: whenever the pass returns, what it returns is the transaction it
    was given, and that transaction carries a decision: [sampled] is a
    boolean, never [undefined]. *)
Theorem sample_returns_decided
    (hub : Hub) (ctx : SamplingContext) (w w' : World) (t : Transaction) :
  sample hub ctx w = (w', Normal t) ->
  t = transaction w' /\ exists b, sampled t = Some b.
Proof. apply sample_decides. Qed.

Lemma sample_returns_decided_witness :
  exists b,
    sampled (transaction
      (fst (sample (hub_of (options_with_rate (num 0.25))) plain_context
              (world_of fresh_transaction)))) = Some b.
Proof.
  exact (proj2 (sample_returns_decided (hub_of (options_with_rate (num 0.25)))
                  plain_context (world_of fresh_transaction) _ _ eq_refl)).
Defined.

(** X5: on a transaction without a decision, a pass that returns with
    [sampled = true] has drawn one random number and created the recorder
    with the configured [maxSpans]; one that returns with [sampled = false]
    has left the recorder as it was. *)
Theorem sample_recorder_iff_kept
    (hub : Hub) (ctx : SamplingContext) (w w' : World) (t : Transaction) :
  sampled (transaction w) = None ->
  sample hub ctx w = (w', Normal t) ->
  (sampled t = Some true ->
   spanRecorder t = Some (experiments_maxSpans (client_options (getClient hub))) /\
   draws w' = S (draws w)) /\
  (sampled t = Some false -> spanRecorder t = spanRecorder (transaction w)).
Proof.
  intros Hs H.
  destruct (negb (has_key (getClient hub))
            || negb (hasTracingEnabled (client_options (getClient hub)))) eqn:G.
  - rewrite sample_disabled in H by exact G. injection H as <- <-. cbn.
    split; [discriminate|reflexivity].
  - rewrite sample_enabled, Hs in H by exact G. unfold bind in H.
    destruct (sampleRate _ ctx w) as [w1 [r|e]] eqn:Hr; [|discriminate].
    apply sampleRate_frame in Hr as (_ & _ & _ & Hrec & _ & _ & Hdr).
    apply decide_returns_decided in H as [-> [(E & Hk & Hd) | (E & Hk)]];
      rewrite E; split; intros [=]; [split|]; congruence.
Qed.

Lemma sample_recorder_iff_kept_witness :
  let w' := fst (sample (hub_of (options_with_sampler (Normal (num 1)))) plain_context
                   (world_of fresh_transaction)) in
  spanRecorder (transaction w') = Some (num 500) /\ draws w' = 1.
Proof.
  exact (proj1 (sample_recorder_iff_kept
                  (hub_of (options_with_sampler (Normal (num 1)))) plain_context
                  (world_of fresh_transaction) _ _ eq_refl eq_refl) eq_refl).
Defined.

(** What a pass leaves alone, and how much it logs and draws. *)
Lemma sample_footprint (hub : Hub) (ctx : SamplingContext) (w : World) :
  let w' := fst (sample hub ctx w) in
  name (transaction w') = name (transaction w) /\
  op (transaction w') = op (transaction w) /\
  entropy w' = entropy w /\
  (draws w' = draws w \/ draws w' = S (draws w)) /\
  exists l, console w' = (l ++ console w)%list /\ length l <= 2.
Proof.
  destruct (negb (has_key (getClient hub))
            || negb (hasTracingEnabled (client_options (getClient hub)))) eqn:G.
  - rewrite sample_disabled by exact G. frame_done.
  - rewrite sample_enabled by exact G.
    destruct (sampled (transaction w)).
    + frame_done.
    + unfold bind.
      destruct (sampleRate _ ctx w) as [w1 [r|e]] eqn:Hr;
        apply sampleRate_frame in Hr as (Hn & Ho & _ & _ & Hc & He & Hd).
      * pose proof (decide_frame (client_options (getClient hub)) r w1) as F.
        cbv zeta in *. now rewrite <- Hn, <- Ho, <- Hc, <- He, <- Hd.
      * cbn [fst]. rewrite Hn, Ho, Hc, He, Hd. frame_done.
Qed.

(** X6: what the pass never does, however it ends: it does not change the
    name or the operation of the transaction, it draws at most one random
    number, and it adds at most two messages to the log, removing none. *)
Theorem sample_frame (hub : Hub) (ctx : SamplingContext) (w : World) :
  let w' := fst (sample hub ctx w) in
  name (transaction w') = name (transaction w) /\
  op (transaction w') = op (transaction w) /\
  entropy w' = entropy w /\
  (draws w' = draws w \/ draws w' = S (draws w)) /\
  exists l, console w' = (l ++ console w)%list /\ length l <= 2.
Proof. apply sample_footprint. Qed.

(** ** The pass on a configured rate *)

(** A number of the closed interval is accepted, and nothing is logged. *)
Lemma isValidSampleRate_valid_number (n : number) (w : World) :
  PrimFloat.leb 0 n = true -> PrimFloat.leb n 1 = true ->
  isValidSampleRate (num n) w = (w, Normal true).
Proof.
  intros H0 H1. destruct (leb_true_not_nan _ _ H0) as [_ Hnan].
  run_effects. unfold isNaN, lessThan, ToNumber; cbn. rewrite Hnan. cbn.
  rewrite (ltb_negb_leb n 0%float Hnan eq_refl), H0. cbn.
  now rewrite (ltb_negb_leb 1%float n eq_refl Hnan), H1.
Qed.

Lemma isValidSampleRate_invalid_number (n : number) (w : World) :
  PrimFloat.leb 0 n && PrimFloat.leb n 1 = false ->
  isValidSampleRate (num n) w
  = (fst (logger LevelWarn (invalid_number_warning n) w), Normal false).
Proof.
  intros H. unfold invalid_number_warning.
  run_effects. unfold isNaN, lessThan, ToNumber; cbn.
  destruct (is_nan n) eqn:Hnan; cbn.
  { unfold is_finite. now rewrite Hnan. }
  rewrite (ltb_negb_leb n 0%float Hnan eq_refl).
  destruct (PrimFloat.leb 0 n); cbn; [|reflexivity].
  rewrite (ltb_negb_leb 1%float n eq_refl Hnan).
  cbn in H. now rewrite H.
Qed.

(** With the configured rate as the source, the pass is the decision on
    that rate once the provenance Rate is recorded. *)
Lemma sample_configured (hub : Hub) (client : Client) (ctx : SamplingContext) (w : World)
    (r : value) (n : number) :
  getClient hub = Some client ->
  tracesSampleRate (options client) = Some r ->
  sampler_is_function (options client) = false ->
  is_undefined (parentSampled ctx) = true ->
  sampled (transaction w) = None ->
  Number r = Normal n ->
  sample hub ctx w
  = decide (options client) r (recorded {| method := Rate; rate := Some n |} w).
Proof.
  intros Hc Hrate Hnf Hundef Hs Hn.
  assert (Hen : hasTracingEnabled (options client) = true)
    by (unfold hasTracingEnabled; now rewrite Hrate).
  assert (Hread : read_tracesSampleRate (options client) = r)
    by (unfold read_tracesSampleRate; now rewrite Hrate).
  rewrite (sample_undecided hub client ctx w Hc Hen Hs).
  rewrite <- Hread in Hn.
  rewrite (bind_normal _ _ _ _ _ (sampleRate_configured _ ctx w n Hnf Hundef Hn)).
  now rewrite Hread.
Qed.

(** The decision on a number above 0 and at most 1: one draw, kept when
    the draw is below the number. *)
Lemma decide_rolls (o : Options) (n : number) (w : World) :
  PrimFloat.ltb 0 n = true -> PrimFloat.leb n 1 = true ->
  let w' := fst (decide o (num n) w) in
  let keep := PrimFloat.ltb (entropy w (draws w)) n in
  snd (decide o (num n) w) = Normal (transaction w') /\
  sampled (transaction w') = Some keep /\
  draws w' = S (draws w) /\
  spanRecorder (transaction w')
  = (if keep then Some (experiments_maxSpans o) else spanRecorder (transaction w)) /\
  metadata (transaction w') = metadata (transaction w).
Proof.
  intros Hpos Hle.
  destruct (ltb_zero_truthy n Hpos) as (Hnz & Hnan & H0).
  unfold decide.
  rewrite (bind_normal _ _ _ _ _ (isValidSampleRate_valid_number n _ H0 Hle)).
  cbn [negb ToBoolean num]. rewrite Hnz, Hnan. cbn [orb negb].
  cbv zeta. run_effects. unfold lessThan, ToNumber, with_transaction.
  cbn -[PrimFloat.ltb].
  destruct (PrimFloat.ltb (entropy w (draws w)) n); cbn; auto.
Qed.

(** X7: the roll.  With no sampler function, no inherited decision and a
    configured [tracesSampleRate] that is a number [n] with [0 < n <= 1],
    the pass draws one random number and keeps the transaction exactly when
    the draw is below [n]; a kept transaction gets its recorder, and the
    provenance is Rate with rate [n]. *)
Theorem sample_rolls_configured_rate
    (hub : Hub) (client : Client) (ctx : SamplingContext) (w : World) (n : number) :
  getClient hub = Some client ->
  tracesSampleRate (options client) = Some (num n) ->
  sampler_is_function (options client) = false ->
  is_undefined (parentSampled ctx) = true ->
  sampled (transaction w) = None ->
  PrimFloat.ltb 0 n = true -> PrimFloat.leb n 1 = true ->
  let w' := fst (sample hub ctx w) in
  let keep := PrimFloat.ltb (entropy w (draws w)) n in
  snd (sample hub ctx w) = Normal (transaction w') /\
  sampled (transaction w') = Some keep /\
  draws w' = S (draws w) /\
  spanRecorder (transaction w')
  = (if keep then Some (experiments_maxSpans (options client))
     else spanRecorder (transaction w)) /\
  transactionSampling (metadata (transaction w'))
  = Some {| method := Rate; rate := Some n |}.
Proof.
  intros Hc Hrate Hnf Hundef Hs Hpos Hle.
  rewrite (sample_configured hub client ctx w (num n) n Hc Hrate Hnf Hundef Hs eq_refl).
  destruct (decide_rolls (options client) n
              (recorded {| method := Rate; rate := Some n |} w) Hpos Hle)
    as (Hret & Hsam & Hdr & Hrec & Hmeta).
  cbv zeta. rewrite Hmeta. auto.
Qed.

Lemma sample_rolls_configured_rate_witness :
  sampled (transaction
    (fst (sample (hub_of (options_with_rate (num 0.25))) plain_context
            (world_of fresh_transaction))))
  = Some (PrimFloat.ltb 0.5 0.25).
Proof.
  exact (proj1 (proj2
    (sample_rolls_configured_rate (hub_of (options_with_rate (num 0.25)))
       {| options := options_with_rate (num 0.25) |} plain_context
       (world_of fresh_transaction) 0.25%float
       eq_refl eq_refl eq_refl eq_refl eq_refl eq_refl eq_refl))).
Defined.

(** X27: raising the rate never loses a transaction.  For two configured
    rates [n <= m], both above 0 and at most 1, and the same draw: if the
    pass keeps the transaction at the rate [n], it keeps it at the rate
    [m]. *)
Theorem sample_rate_monotone
    (hub hub' : Hub) (client client' : Client) (ctx : SamplingContext) (w : World)
    (n m : number) :
  getClient hub = Some client -> getClient hub' = Some client' ->
  tracesSampleRate (options client) = Some (num n) ->
  tracesSampleRate (options client') = Some (num m) ->
  sampler_is_function (options client) = false ->
  sampler_is_function (options client') = false ->
  is_undefined (parentSampled ctx) = true ->
  sampled (transaction w) = None ->
  PrimFloat.ltb 0 n = true -> PrimFloat.leb n m = true -> PrimFloat.leb m 1 = true ->
  sampled (transaction (fst (sample hub ctx w))) = Some true ->
  sampled (transaction (fst (sample hub' ctx w))) = Some true.
Proof.
  intros Hc Hc' Hrate Hrate' Hnf Hnf' Hundef Hs Hpos Hnm Hle.
  assert (Hn1 : PrimFloat.leb n 1 = true) by (eapply leb_trans; eassumption).
  assert (Hpos' : PrimFloat.ltb 0 m = true) by (eapply ltb_leb_trans; eassumption).
  rewrite (sample_configured hub client ctx w (num n) n Hc Hrate Hnf Hundef Hs eq_refl).
  rewrite (sample_configured hub' client' ctx w (num m) m Hc' Hrate' Hnf' Hundef Hs eq_refl).
  destruct (decide_rolls (options client) n
              (recorded {| method := Rate; rate := Some n |} w) Hpos Hn1)
    as (_ & -> & _).
  destruct (decide_rolls (options client') m
              (recorded {| method := Rate; rate := Some m |} w) Hpos' Hle)
    as (_ & -> & _).
  cbn [recorded setMetadata modify fst entropy draws].
  intros [= Hkeep]. f_equal. eapply ltb_leb_trans; eassumption.
Qed.

Lemma sample_rate_monotone_witness :
  sampled (transaction
    (fst (sample (hub_of (options_with_rate (num 1))) plain_context
            (world_of fresh_transaction)))) = Some true.
Proof.
  exact (sample_rate_monotone (hub_of (options_with_rate (num 0.75)))
           (hub_of (options_with_rate (num 1)))
           {| options := options_with_rate (num 0.75) |}
           {| options := options_with_rate (num 1) |}
           plain_context (world_of fresh_transaction) 0.75%float 1%float
           eq_refl eq_refl eq_refl eq_refl eq_refl eq_refl eq_refl eq_refl
           eq_refl eq_refl eq_refl eq_refl).
Defined.

(** X8: a configured [tracesSampleRate] that is a number outside [0, 1],
    or [NaN], drops the transaction without a roll: [sampled] is [false],
    two warnings are logged (the validator's, then the pass's), and the
    provenance Rate with that number has been recorded all the same.  For
    [NaN] the validator's warning is the one for a wrong type, with the
    value printed as [null]. *)
Theorem sample_drops_invalid_configured_rate
    (hub : Hub) (client : Client) (ctx : SamplingContext) (w : World) (n : number) :
  getClient hub = Some client ->
  tracesSampleRate (options client) = Some (num n) ->
  sampler_is_function (options client) = false ->
  is_undefined (parentSampled ctx) = true ->
  sampled (transaction w) = None ->
  PrimFloat.leb 0 n && PrimFloat.leb n 1 = false ->
  let w' := fst (sample hub ctx w) in
  snd (sample hub ctx w) = Normal (transaction w') /\
  sampled (transaction w') = Some false /\
  transactionSampling (metadata (transaction w'))
  = Some {| method := Rate; rate := Some n |} /\
  console w'
  = (LevelWarn, DiscardingInvalidRate) :: (LevelWarn, invalid_number_warning n)
      :: console w /\
  spanRecorder (transaction w') = spanRecorder (transaction w) /\
  draws w' = draws w.
Proof.
  intros Hc Hrate Hnf Hundef Hs Hout.
  rewrite (sample_configured hub client ctx w (num n) n Hc Hrate Hnf Hundef Hs eq_refl).
  unfold decide.
  rewrite (bind_normal _ _ _ _ _ (isValidSampleRate_invalid_number n _ Hout)).
  cbn. auto 10.
Qed.

Lemma sample_drops_invalid_configured_rate_witness :
  console (fst (sample (hub_of (options_with_rate (num nan))) plain_context
                  (world_of fresh_transaction)))
  = [(LevelWarn, DiscardingInvalidRate);
     (LevelWarn, InvalidRateType (Some JNull) TNumber)].
Proof.
  exact (proj1 (proj2 (proj2 (proj2
    (sample_drops_invalid_configured_rate (hub_of (options_with_rate (num nan)))
       {| options := options_with_rate (num nan) |} plain_context
       (world_of fresh_transaction) nan
       eq_refl eq_refl eq_refl eq_refl eq_refl eq_refl))))).
Defined.

(** X9: tracing is enabled by the presence of a key, not by its value.
    With [tracesSampleRate: undefined] in the options [hasTracingEnabled]
    is true, and the pass does not take the quiet way out of a disabled
    SDK: it records the provenance Rate with rate [NaN], logs two warnings
    and drops the transaction. *)
Theorem sample_with_undefined_rate
    (hub : Hub) (client : Client) (ctx : SamplingContext) (w : World) :
  getClient hub = Some client ->
  tracesSampleRate (options client) = Some undefined ->
  sampler_is_function (options client) = false ->
  is_undefined (parentSampled ctx) = true ->
  sampled (transaction w) = None ->
  hasTracingEnabled (options client) = true /\
  let w' := fst (sample hub ctx w) in
  snd (sample hub ctx w) = Normal (transaction w') /\
  sampled (transaction w') = Some false /\
  transactionSampling (metadata (transaction w'))
  = Some {| method := Rate; rate := Some nan |} /\
  console w'
  = (LevelWarn, DiscardingInvalidRate) :: (LevelWarn, InvalidRateType None TUndefined)
      :: console w /\
  draws w' = draws w.
Proof.
  intros Hc Hrate Hnf Hundef Hs.
  split; [unfold hasTracingEnabled; now rewrite Hrate|].
  rewrite (sample_configured hub client ctx w undefined nan Hc Hrate Hnf Hundef Hs eq_refl).
  cbn. auto 10.
Qed.

Lemma sample_with_undefined_rate_witness :
  sampled (transaction
    (fst (sample (hub_of (options_with_rate undefined)) plain_context
            (world_of fresh_transaction)))) = Some false /\
  transactionSampling (metadata (transaction
    (fst (sample (hub_of (options_with_rate undefined)) plain_context
            (world_of fresh_transaction)))))
  = Some {| method := Rate; rate := Some nan |}.
Proof.
  pose proof (sample_with_undefined_rate (hub_of (options_with_rate undefined))
                {| options := options_with_rate undefined |} plain_context
                (world_of fresh_transaction) eq_refl eq_refl eq_refl eq_refl eq_refl) as H.
  exact (conj (proj1 (proj2 (proj2 H))) (proj1 (proj2 (proj2 (proj2 H))))).
Defined.

(** ** An inherited decision *)

(** The pass on an inherited boolean. *)
Lemma sample_inherited_decision
    (hub : Hub) (client : Client) (ctx : SamplingContext) (w : World) (b : bool) :
  getClient hub = Some client ->
  hasTracingEnabled (options client) = true ->
  sampler_is_function (options client) = false ->
  parentSampled ctx = bool_value b ->
  sampled (transaction w) = None ->
  PrimFloat.ltb (entropy w (draws w)) 1 = true ->
  let w' := fst (sample hub ctx w) in
  snd (sample hub ctx w) = Normal (transaction w') /\
  sampled (transaction w') = Some b /\
  transactionSampling (metadata (transaction w'))
  = Some {| method := Inheritance; rate := None |} /\
  spanRecorder (transaction w')
  = (if b then Some (experiments_maxSpans (options client))
     else spanRecorder (transaction w)) /\
  draws w' = (if b then S (draws w) else draws w).
Proof.
  intros Hc Hen Hnf Hp Hs Hdraw.
  assert (Hdef : is_undefined (parentSampled ctx) = false) by now rewrite Hp.
  rewrite (sample_undecided hub client ctx w Hc Hen Hs).
  rewrite (bind_normal _ _ _ _ _ (sampleRate_inherited _ ctx w Hnf Hdef)).
  rewrite Hp. destruct b.
  - rewrite (decide_keeps (options client) (bool_value true)
               (recorded {| method := Inheritance; rate := None |} w)
               (or_intror eq_refl) Hdraw).
    cbn. auto 10.
  - cbn. auto 10.
Qed.

(** X10: a child follows its parent.  With tracing enabled, no sampler
    function and a [parentSampled] that is a boolean [b], the transaction
    ends with [sampled = b] and the provenance Inheritance, whatever
    [tracesSampleRate] is: a [true] is kept for every draw below 1 (and gets
    its recorder), a [false] is dropped without a draw. *)
Theorem sample_inherits_parent_decision
    (hub : Hub) (client : Client) (ctx : SamplingContext) (w : World) (b : bool) :
  getClient hub = Some client ->
  hasTracingEnabled (options client) = true ->
  sampler_is_function (options client) = false ->
  parentSampled ctx = bool_value b ->
  sampled (transaction w) = None ->
  PrimFloat.ltb (entropy w (draws w)) 1 = true ->
  let w' := fst (sample hub ctx w) in
  snd (sample hub ctx w) = Normal (transaction w') /\
  sampled (transaction w') = Some b /\
  transactionSampling (metadata (transaction w'))
  = Some {| method := Inheritance; rate := None |} /\
  spanRecorder (transaction w')
  = (if b then Some (experiments_maxSpans (options client))
     else spanRecorder (transaction w)) /\
  draws w' = (if b then S (draws w) else draws w).
Proof. apply sample_inherited_decision. Qed.

Lemma sample_inherits_parent_decision_witness :
  sampled (transaction
    (fst (sample (hub_of (options_with_rate (num 0)))
            {| parentSampled := bool_value true;
               transactionContext := transactionContext plain_context;
               custom := [] |}
            (world_of fresh_transaction)))) = Some true.
Proof.
  exact (proj1 (proj2
    (sample_inherits_parent_decision (hub_of (options_with_rate (num 0)))
       {| options := options_with_rate (num 0) |}
       {| parentSampled := bool_value true;
          transactionContext := transactionContext plain_context;
          custom := [] |}
       (world_of fresh_transaction) true
       eq_refl eq_refl eq_refl eq_refl eq_refl eq_refl))).
Defined.

(** ** The sampler *)

(** X11: what the sampler throws escapes.  The pass ends with the
    sampler's exception, and has written nothing: the transaction has no
    decision and no provenance, and nothing is logged or drawn. *)
Theorem sample_lets_sampler_throw
    (hub : Hub) (client : Client) (ctx : SamplingContext) (w : World)
    (sampler : SamplingContext -> completion value) (e : error) :
  getClient hub = Some client ->
  tracesSampler (options client) = Some (Some sampler) ->
  sampled (transaction w) = None ->
  sampler ctx = Throw e ->
  sample hub ctx w = (w, Throw e).
Proof.
  intros Hc Hsam Hs He.
  assert (Hen : hasTracingEnabled (options client) = true).
  { unfold hasTracingEnabled. rewrite Hsam. apply orb_true_r. }
  rewrite (sample_undecided hub client ctx w Hc Hen Hs).
  unfold bind at 1, sampleRate. rewrite Hsam. unfold bind, lift. now rewrite He.
Qed.

Lemma sample_lets_sampler_throw_witness :
  sample (hub_of (options_with_sampler (Throw (UserThrow "sampler failed"))))
    plain_context (world_of fresh_transaction)
  = (world_of fresh_transaction, Throw (UserThrow "sampler failed")).
Proof.
  exact (sample_lets_sampler_throw
           (hub_of (options_with_sampler (Throw (UserThrow "sampler failed"))))
           {| options := options_with_sampler (Throw (UserThrow "sampler failed")) |}
           plain_context (world_of fresh_transaction)
           (fun _ => Throw (UserThrow "sampler failed")) (UserThrow "sampler failed")
           eq_refl eq_refl eq_refl eq_refl).
Defined.

(** Of the sampler, the decision only reads whether it is a function. *)
Lemma decide_reads_function (o o' : Options) (r : value) (w : World) :
  sampler_is_function o' = sampler_is_function o -> _experiments o' = _experiments o ->
  decide o' r w = decide o r w.
Proof.
  intros Hs He. unfold decide, experiments_maxSpans. now rewrite Hs, He.
Qed.

(** X12: a boolean from the sampler is the number it casts to.  A
    sampler that returns [true] and one that returns [1] (or [false] and
    [0]) lead to the same result and the same state: decision, provenance,
    recorder, log and draws. *)
Theorem sample_boolean_rate_as_number
    (hub hub' : Hub) (client client' : Client) (ctx : SamplingContext) (w : World)
    (sampler sampler' : SamplingContext -> completion value) (b : bool) :
  getClient hub = Some client -> getClient hub' = Some client' ->
  tracesSampler (options client) = Some (Some sampler) ->
  tracesSampler (options client') = Some (Some sampler') ->
  _experiments (options client') = _experiments (options client) ->
  sampled (transaction w) = None ->
  sampler ctx = Normal (bool_value b) ->
  sampler' ctx = Normal (num (if b then 1 else 0)) ->
  sample hub' ctx w = sample hub ctx w.
Proof.
  intros Hc Hc' Hsam Hsam' Hexp Hs Hr Hr'.
  assert (Hen : hasTracingEnabled (options client) = true).
  { unfold hasTracingEnabled. rewrite Hsam. apply orb_true_r. }
  assert (Hen' : hasTracingEnabled (options client') = true).
  { unfold hasTracingEnabled. rewrite Hsam'. apply orb_true_r. }
  rewrite (sample_undecided hub client ctx w Hc Hen Hs).
  rewrite (sample_undecided hub' client' ctx w Hc' Hen' Hs).
  rewrite (bind_normal _ _ _ _ _
             (sampleRate_sampler _ ctx w sampler _ (if b then 1 else 0)%float Hsam Hr
                ltac:(now destruct b))).
  rewrite (bind_normal _ _ _ _ _
             (sampleRate_sampler _ ctx w sampler' _ (if b then 1 else 0)%float Hsam' Hr'
                ltac:(now destruct b))).
  rewrite (decide_reads_function (options client) (options client')).
  - destruct b; reflexivity.
  - unfold sampler_is_function. now rewrite Hsam, Hsam'.
  - exact Hexp.
Qed.

Lemma sample_boolean_rate_as_number_witness :
  sample (hub_of (options_with_sampler (Normal (num 1)))) plain_context
    (world_of fresh_transaction)
  = sample (hub_of (options_with_sampler (Normal (bool_value true)))) plain_context
      (world_of fresh_transaction).
Proof.
  exact (sample_boolean_rate_as_number
           (hub_of (options_with_sampler (Normal (bool_value true))))
           (hub_of (options_with_sampler (Normal (num 1))))
           {| options := options_with_sampler (Normal (bool_value true)) |}
           {| options := options_with_sampler (Normal (num 1)) |}
           plain_context (world_of fresh_transaction)
           (fun _ => Normal (bool_value true)) (fun _ => Normal (num 1)) true
           eq_refl eq_refl eq_refl eq_refl eq_refl eq_refl eq_refl eq_refl).
Defined.

(** ** A second pass *)

(** X13: a second pass keeps the decision of the first.  After a pass
    that returned, another pass on the same hub (with any sampling context)
    returns with the same [sampled] and the same recorder, logs nothing and
    draws nothing; with a client and tracing enabled it overwrites the
    provenance with Explicit. *)
Theorem sample_second_pass
    (hub : Hub) (ctx ctx' : SamplingContext) (w w1 : World) (t1 : Transaction) :
  sample hub ctx w = (w1, Normal t1) ->
  let w2 := fst (sample hub ctx' w1) in
  snd (sample hub ctx' w1) = Normal (transaction w2) /\
  sampled (transaction w2) = sampled t1 /\
  spanRecorder (transaction w2) = spanRecorder t1 /\
  console w2 = console w1 /\
  draws w2 = draws w1 /\
  (has_key (getClient hub) && hasTracingEnabled (client_options (getClient hub)) = true ->
   transactionSampling (metadata (transaction w2))
   = Some {| method := Explicit; rate := None |}).
Proof.
  intros H.
  destruct (negb (has_key (getClient hub))
            || negb (hasTracingEnabled (client_options (getClient hub)))) eqn:G.
  - rewrite sample_disabled in H by exact G. injection H as <- <-.
    rewrite sample_disabled by exact G. cbn. repeat split; auto.
    intros E. apply andb_true_iff in E as [E1 E2]. now rewrite E1, E2 in G.
  - destruct (sample_decides _ _ _ _ _ H) as [-> [b Hb]].
    rewrite sample_enabled, Hb by exact G. cbn. repeat split; auto.
Qed.

Lemma sample_second_pass_witness :
  let w1 := fst (sample (hub_of (options_with_rate (num 1))) plain_context
                   (world_of fresh_transaction)) in
  sampled (transaction (fst (sample (hub_of (options_with_rate (num 1))) plain_context w1)))
  = sampled (transaction w1).
Proof.
  exact (proj1 (proj2
    (sample_second_pass (hub_of (options_with_rate (num 1))) plain_context plain_context
       (world_of fresh_transaction) _ _ eq_refl))).
Defined.

(** ** The transaction factory *)

Section Factory.
Variable new_Transaction : TransactionContext -> Hub -> Transaction.
Variable new_IdleTransaction : TransactionContext -> Hub -> value -> value -> Transaction.
Variable context_parentSampled : TransactionContext -> value.

(** X25: when [_startTransaction] or [startIdleTransaction] returns,
    what it returns is the transaction it built, with the name and the
    operation the constructor gave it and with a decision: [sampled] is a
    boolean. *)
Theorem startTransaction_returns_decided
    (hub : Hub) (ctx : TransactionContext) (idleTimeout onScope : value)
    (custom : option (list (string * value))) (w : World) :
  (forall w' t,
      _startTransaction new_Transaction context_parentSampled hub ctx custom w
      = (w', Normal t) ->
      t = transaction w' /\ (exists b, sampled t = Some b) /\
      name t = name (new_Transaction ctx hub) /\ op t = op (new_Transaction ctx hub)) /\
  (forall w' t,
      startIdleTransaction new_IdleTransaction context_parentSampled hub ctx idleTimeout
        onScope custom w = (w', Normal t) ->
      t = transaction w' /\ (exists b, sampled t = Some b) /\
      name t = name (new_IdleTransaction ctx hub idleTimeout onScope) /\
      op t = op (new_IdleTransaction ctx hub idleTimeout onScope)).
Proof.
  split; intros w' t H;
    unfold _startTransaction, startIdleTransaction, bind at 1,
      construct, modify in H;
    match type of H with
    | sample ?h ?c ?w0 = _ =>
        pose proof (sample_footprint h c w0) as F; cbv zeta in F; rewrite H in F;
        destruct F as (Hn & Ho & _);
        destruct (sample_decides _ _ _ _ _ H) as [-> Hb]
    end; cbn in *; auto.
Qed.

(** X26: a [parentSampled] among the custom sampling context replaces
    the one of the construction context, since the custom properties are
    spread last.  With tracing enabled and no sampler function the new
    transaction follows the custom boolean, whatever the construction
    context says. *)
Theorem startTransaction_custom_parentSampled
    (hub : Hub) (client : Client) (ctx : TransactionContext)
    (custom : list (string * value)) (b : bool) (w : World) :
  getClient hub = Some client ->
  hasTracingEnabled (options client) = true ->
  sampler_is_function (options client) = false ->
  sampled (new_Transaction ctx hub) = None ->
  property_of custom "parentSampled" = Some (bool_value b) ->
  PrimFloat.ltb (entropy w (draws w)) 1 = true ->
  let w' := fst (_startTransaction new_Transaction context_parentSampled hub ctx
                   (Some custom) w) in
  sampled (transaction w') = Some b /\
  transactionSampling (metadata (transaction w'))
  = Some {| method := Inheritance; rate := None |}.
Proof.
  intros Hc Hen Hnf Hs Hp Hdraw.
  assert (Hps : parentSampled (sampling_context context_parentSampled ctx (Some custom))
                = bool_value b) by (cbn; now rewrite Hp).
  unfold _startTransaction, bind at 1, construct, modify.
  match goal with
  | |- context [sample ?h ?c ?w0] =>
      pose proof (sample_inherited_decision h client c w0 b Hc Hen Hnf Hps Hs Hdraw) as H
  end.
  cbv zeta in H |- *. exact (conj (proj1 (proj2 H)) (proj1 (proj2 (proj2 H)))).
Qed.

End Factory.

Lemma startTransaction_returns_decided_witness :
  exists b,
    sampled (transaction (fst (_startTransaction (fun _ _ => fresh_transaction)
                                 (fun _ => undefined)
                                 (hub_of (options_with_rate (num 1)))
                                 (transactionContext plain_context) None
                                 (world_of fresh_transaction)))) = Some b.
Proof.
  exact (proj1 (proj2 (proj1
    (startTransaction_returns_decided (fun _ _ => fresh_transaction)
       (fun _ _ _ _ => fresh_transaction) (fun _ => undefined)
       (hub_of (options_with_rate (num 1))) (transactionContext plain_context)
       undefined undefined None (world_of fresh_transaction)) _ _ eq_refl))).
Defined.

Lemma startTransaction_custom_parentSampled_witness :
  sampled (transaction
    (fst (_startTransaction (fun _ _ => fresh_transaction) (fun _ => bool_value true)
            (hub_of (options_with_rate (num 1))) (transactionContext plain_context)
            (Some [("parentSampled", bool_value false)])
            (world_of fresh_transaction)))) = Some false.
Proof.
  exact (proj1
    (startTransaction_custom_parentSampled (fun _ _ => fresh_transaction)
       (fun _ => bool_value true)
       (hub_of (options_with_rate (num 1))) {| options := options_with_rate (num 1) |}
       (transactionContext plain_context) [("parentSampled", bool_value false)] false
       (world_of fresh_transaction) eq_refl eq_refl eq_refl eq_refl eq_refl eq_refl)).
Defined.

(** ** The extension methods *)

(** The call as a function of the carrier. *)
Lemma _addTracingExtensions_unfold (carrier : Carrier) :
  _addTracingExtensions carrier
  = (let g := match __SENTRY__ carrier with
              | Some g => g
              | None => {| extensions := Some ∅; hub := undefined |}
              end in
     let exts := default ∅ (extensions g) in
     let exts1 := if missing exts "startTransaction"
                  then <["startTransaction" := Fn_startTransaction]> exts else exts in
     let exts2 := if missing exts1 "traceHeaders"
                  then <["traceHeaders" := Fn_traceHeaders]> exts1 else exts1 in
     {| __SENTRY__ := Some {| extensions := Some exts2; hub := hub g |} |}, Normal tt).
Proof.
  unfold _addTracingExtensions, getMainCarrier, get_extensions, set_extensions, bind, get,
    modify, ret.
  destruct carrier as [[[exts h]|]]; cbn;
    match goal with |- context [missing ?m "startTransaction"] =>
      destruct (missing m "startTransaction") end; cbn;
    match goal with |- context [missing ?m "traceHeaders"] =>
      destruct (missing m "traceHeaders") end; reflexivity.
Qed.

Lemma missing_insert_truthy (exts : gmap string extension) (key : string) (e : extension) :
  extension_truthy e = true -> missing (<[key := e]> exts) key = false.
Proof. intros He. unfold missing. rewrite lookup_insert_eq. now rewrite He. Qed.

Lemma missing_insert_ne (exts : gmap string extension) (key key' : string) (e : extension) :
  key <> key' -> missing (<[key := e]> exts) key' = missing exts key'.
Proof. intros Hne. unfold missing. now rewrite lookup_insert_ne. Qed.

(** The extensions after the call, entry by entry. *)
Lemma _addTracingExtensions_result (carrier : Carrier) (g : SentryGlobal) :
  __SENTRY__ carrier = Some g ->
  let before := default ∅ (extensions g) in
  exists after,
    fst (_addTracingExtensions carrier)
    = {| __SENTRY__ := Some {| extensions := Some after; hub := hub g |} |} /\
    after !! "startTransaction"
    = (if missing before "startTransaction" then Some Fn_startTransaction
       else before !! "startTransaction") /\
    after !! "traceHeaders"
    = (if missing before "traceHeaders" then Some Fn_traceHeaders
       else before !! "traceHeaders") /\
    missing after "startTransaction" = false /\
    missing after "traceHeaders" = false /\
    forall key, key <> "startTransaction" -> key <> "traceHeaders" ->
                after !! key = before !! key.
Proof.
  intros Hg before. rewrite _addTracingExtensions_unfold, Hg. cbn [fst].
  cbv beta iota zeta. fold before.
  eexists. split; [reflexivity|].
  destruct (missing before "startTransaction") eqn:H1.
  - rewrite missing_insert_ne by discriminate.
    destruct (missing before "traceHeaders") eqn:H2.
    + rewrite lookup_insert_ne, !lookup_insert_eq by discriminate.
      rewrite missing_insert_ne, !missing_insert_truthy by (discriminate || reflexivity).
      repeat split. intros key K1 K2. now rewrite !lookup_insert_ne.
    + rewrite lookup_insert_eq, lookup_insert_ne by discriminate.
      rewrite missing_insert_truthy, missing_insert_ne, H2 by (discriminate || reflexivity).
      repeat split. intros key K1 K2. now rewrite !lookup_insert_ne.
  - destruct (missing before "traceHeaders") eqn:H2.
    + rewrite lookup_insert_ne, !lookup_insert_eq by discriminate.
      rewrite missing_insert_ne, H1, missing_insert_truthy by (discriminate || reflexivity).
      repeat split. intros key K1 K2. now rewrite !lookup_insert_ne.
    + rewrite H1, H2. repeat split.
Qed.

(** X23: on a carrier with [__SENTRY__], the call leaves both
    [startTransaction] and [traceHeaders] among the extensions.  An entry
    that was there and truthy is kept; one that was missing or falsy is the
    function of this file.  Every other extension, and the rest of
    [__SENTRY__], is as before. *)
Theorem addTracingExtensions_installs (carrier : Carrier) (g : SentryGlobal) :
  __SENTRY__ carrier = Some g ->
  let before := default ∅ (extensions g) in
  exists after,
    fst (_addTracingExtensions carrier)
    = {| __SENTRY__ := Some {| extensions := Some after; hub := hub g |} |} /\
    after !! "startTransaction"
    = (if missing before "startTransaction" then Some Fn_startTransaction
       else before !! "startTransaction") /\
    after !! "traceHeaders"
    = (if missing before "traceHeaders" then Some Fn_traceHeaders
       else before !! "traceHeaders") /\
    missing after "startTransaction" = false /\
    missing after "traceHeaders" = false /\
    forall key, key <> "startTransaction" -> key <> "traceHeaders" ->
                after !! key = before !! key.
Proof. apply _addTracingExtensions_result. Qed.

Lemma addTracingExtensions_installs_witness :
  exists after,
    fst (_addTracingExtensions
           {| __SENTRY__ := Some {| extensions := None; hub := undefined |} |})
    = {| __SENTRY__ := Some {| extensions := Some after; hub := undefined |} |} /\
    after !! "startTransaction" = Some Fn_startTransaction /\
    after !! "traceHeaders" = Some Fn_traceHeaders.
Proof.
  destruct (addTracingExtensions_installs
              {| __SENTRY__ := Some {| extensions := None; hub := undefined |} |}
              {| extensions := None; hub := undefined |} eq_refl)
    as (after & H1 & H2 & H3 & _).
  exists after. auto.
Defined.

Lemma missing_empty (key : string) : missing ∅ key = true.
Proof. unfold missing. now rewrite lookup_empty. Qed.

(** X24: calling [_addTracingExtensions] again changes nothing.  On a
    carrier without [__SENTRY__], [getMainCarrier] creates it, and the call
    leaves a [__SENTRY__] with an undefined [hub] and with [startTransaction]
    and [traceHeaders], the functions of this file, for all extensions. *)
Theorem addTracingExtensions_idempotent (carrier : Carrier) :
  fst (_addTracingExtensions (fst (_addTracingExtensions carrier)))
  = fst (_addTracingExtensions carrier) /\
  fst (_addTracingExtensions {| __SENTRY__ := None |})
  = {| __SENTRY__ :=
         Some {| extensions :=
                   Some (<["traceHeaders" := Fn_traceHeaders]>
                           (<["startTransaction" := Fn_startTransaction]> ∅));
                 hub := undefined |} |}.
Proof.
  split.
  - set (g := match __SENTRY__ carrier with
              | Some g => g
              | None => {| extensions := Some ∅; hub := undefined |}
              end).
    set (c := {| __SENTRY__ := Some g |}).
    assert (E : fst (_addTracingExtensions carrier) = fst (_addTracingExtensions c)).
    { rewrite !_addTracingExtensions_unfold. reflexivity. }
    rewrite E.
    destruct (_addTracingExtensions_result c g eq_refl)
      as (after & -> & _ & _ & H1 & H2 & _).
    rewrite _addTracingExtensions_unfold. cbn. now rewrite H1, H2.
  - rewrite _addTracingExtensions_unfold. cbn [fst __SENTRY__ extensions hub].
    cbv beta iota zeta. change (default ∅ (Some ∅)) with (∅ : gmap string extension).
    rewrite missing_empty, missing_insert_ne, missing_empty by discriminate.
    reflexivity.
Qed.

End HubExtensionsFacts.
